(** * Image-Processor: the per-image pipeline and the batch controller

    A shallow embedding of [src/utils/imageUtils.ts] ([processFile]) and of
    the batch controller of the application component ([handleProcessAll],
    [handleRemoveFile], [handleClearAll]), together with the properties the
    specification states about them.

    JavaScript numbers are IEEE-754 binary64 values.  They are modelled with
    the Standard Library's executable specification of binary floating point
    ([SpecFloat]), instantiated at precision 53 and maximal exponent 1024, so
    that [Math.round(w * (v / 100))] evaluates here to the very double the
    browser computes. *)

From Stdlib Require Import ZArith Lia List Bool String Ascii.
From Stdlib Require Import DecimalString DecimalNat.
From Stdlib Require Import SpecFloat.
From Stdlib Require Import Reals Lra.
Import ListNotations.

Local Open Scope Z_scope.

(** ** JavaScript numbers *)

Module Number.

Definition prec : Z := 53.
Definition emax : Z := 1024.

Definition number := spec_float.

(** The number a mathematical integer converts to (round to nearest even;
    exact below [2^53]). *)
Definition of_Z (z : Z) : number := binary_normalize prec emax z 0 false.

(** [x * y] and [x / y]. *)
Definition mul (x y : number) : number := SFmul prec emax x y.
Definition div (x y : number) : number := SFdiv prec emax x y.

(** [x <= y] (false when either side is NaN). *)
Definition leb (x y : number) : bool := SFleb x y.

(** [Math.round(x)]: the integral number closest to [x], the one closer to
    +infinity on a tie; NaN, the infinities and the zeros are returned as
    they are, and a result of zero keeps the sign of [x]. *)
Definition round (x : number) : number :=
  match x with
  | S754_finite s m e =>
      if 0 <=? e then x
      else
        let n := (2 * cond_Zopp s (Zpos m) + 2 ^ (- e)) / 2 ^ (1 - e) in
        if n =? 0 then S754_zero s else of_Z n
  | _ => x
  end.

End Number.

Definition number := Number.number.

(** ** Data model ([types.ts]) *)

Inductive ImageFormat := image_jpeg | image_png | image_webp.

Inductive ResizeMode := original | percentage | fixed_width | fixed_height.

Record ProcessingOptions := {
  format : ImageFormat;
  quality : number;
  resizeMode : ResizeMode;
  resizeValue : number;
  maintainAspectRatio : bool
}.

Inductive ProcessStatus := Idle | Processing | Completed | Error.

(** The part of a DOM [File] the pipeline can observe. *)
Record File := { file_name : string; file_type : string; file_size : Z }.

Record ImageItem := {
  id : string;
  file : File;
  previewUrl : string;
  originalSize : number;
  originalWidth : number;
  originalHeight : number;
  status : ProcessStatus;
  processedUrl : option string;
  processedFormat : option ImageFormat;
  processedSize : option number;
  processedWidth : option number;
  processedHeight : option number;
  error : option string
}.

(** A decoded image: [naturalWidth] and [naturalHeight] are unsigned
    integers of the DOM. *)
Record HTMLImageElement := { naturalWidth : Z; naturalHeight : Z }.

(** ** Dimension resolution (lines 63-83 of [processFile]) *)

Definition targetDimensions (img : HTMLImageElement)
    (options : ProcessingOptions) : number * number :=
  let targetWidth := Number.of_Z (naturalWidth img) in
  let targetHeight := Number.of_Z (naturalHeight img) in
  match resizeMode options with
  | percentage =>
      let ratio := Number.div (resizeValue options) (Number.of_Z 100) in
      (Number.round (Number.mul targetWidth ratio),
       Number.round (Number.mul targetHeight ratio))
  | fixed_width =>
      let targetWidth := resizeValue options in
      if maintainAspectRatio options then
        let ratio := Number.div (Number.of_Z (naturalHeight img))
                                (Number.of_Z (naturalWidth img)) in
        (targetWidth, Number.round (Number.mul targetWidth ratio))
      else (targetWidth, targetHeight)
  | fixed_height =>
      let targetHeight := resizeValue options in
      if maintainAspectRatio options then
        let ratio := Number.div (Number.of_Z (naturalWidth img))
                                (Number.of_Z (naturalHeight img)) in
        (Number.round (Number.mul targetHeight ratio), targetHeight)
      else (targetWidth, targetHeight)
  | original => (targetWidth, targetHeight)
  end.

(** ** Exceptions and completions

    A thrown value is an [Error] (or a [DOMException]): an object with a
    [message].  A completion is the outcome of running a block, or of
    awaiting a promise: it returned (resolved) or it threw (rejected). *)

Record Thrown := JsError { message : string }.

Inductive Completion (A : Type) :=
| Returned (a : A)
| Threw (err : Thrown).
Arguments Returned {A} a.
Arguments Threw {A} err.

Definition bind {A B} (c : Completion A) (k : A -> Completion B) : Completion B :=
  match c with
  | Returned a => k a
  | Threw err => Threw err
  end.

(** [try { c } catch (err) { handler err }] *)
Definition try_catch {A} (c : Completion A) (handler : Thrown -> Completion A)
    : Completion A :=
  match c with
  | Returned a => Returned a
  | Threw err => handler err
  end.

Notation "x <- c ;; k" := (bind c (fun x => k))
  (at level 61, c at next level, right associativity).

(** Truthiness of a string, and [s || d]. *)
Definition truthy (s : string) : bool := negb (String.eqb s "").
Definition or_else (s d : string) : string := if truthy s then s else d.

(** ** Partial items and object spread *)

(** [Partial<ImageItem>]: every key may be absent ([None]); the keys whose
    type is optional may be present with the value [undefined]
    ([Some None]). *)
Record PartialItem := {
  p_id : option string;
  p_file : option File;
  p_previewUrl : option string;
  p_originalSize : option number;
  p_originalWidth : option number;
  p_originalHeight : option number;
  p_status : option ProcessStatus;
  p_processedUrl : option (option string);
  p_processedFormat : option (option ImageFormat);
  p_processedSize : option (option number);
  p_processedWidth : option (option number);
  p_processedHeight : option (option number);
  p_error : option (option string)
}.

(** Reading a key of a partial item: absent and [undefined] read alike. *)
Definition get {A} (k : option (option A)) : option A :=
  match k with Some v => v | None => None end.

Definition override {A} (k : option A) (old : A) : A :=
  match k with Some v => v | None => old end.

(** [{ ...f, ...result }] *)
Definition spread (f : ImageItem) (result : PartialItem) : ImageItem :=
  {| id := override (p_id result) (id f);
     file := override (p_file result) (file f);
     previewUrl := override (p_previewUrl result) (previewUrl f);
     originalSize := override (p_originalSize result) (originalSize f);
     originalWidth := override (p_originalWidth result) (originalWidth f);
     originalHeight := override (p_originalHeight result) (originalHeight f);
     status := override (p_status result) (status f);
     processedUrl := override (p_processedUrl result) (processedUrl f);
     processedFormat := override (p_processedFormat result) (processedFormat f);
     processedSize := override (p_processedSize result) (processedSize f);
     processedWidth := override (p_processedWidth result) (processedWidth f);
     processedHeight := override (p_processedHeight result) (processedHeight f);
     error := override (p_error result) (error f) |}.

(** [{ status: 'error', error: msg }] *)
Definition failureResult (msg : string) : PartialItem :=
  {| p_id := None; p_file := None; p_previewUrl := None;
     p_originalSize := None; p_originalWidth := None; p_originalHeight := None;
     p_status := Some Error;
     p_processedUrl := None; p_processedFormat := None; p_processedSize := None;
     p_processedWidth := None; p_processedHeight := None;
     p_error := Some (Some msg) |}.

(** [{ status: 'completed', processedUrl, processedFormat, processedSize,
      processedWidth, processedHeight, error: undefined }] *)
Definition completedResult (url : string) (fmt : ImageFormat)
    (size width height : number) : PartialItem :=
  {| p_id := None; p_file := None; p_previewUrl := None;
     p_originalSize := None; p_originalWidth := None; p_originalHeight := None;
     p_status := Some Completed;
     p_processedUrl := Some (Some url);
     p_processedFormat := Some (Some fmt);
     p_processedSize := Some (Some size);
     p_processedWidth := Some (Some width);
     p_processedHeight := Some (Some height);
     p_error := Some None |}.

(** ** The browser, as far as [processFile] uses it *)

Record Blob := { blob_size : Z; blob_type : string }.

Record Env := {
  (** [loadImage(url)]: the promise resolves with the decoded image or
      rejects. *)
  env_loadImage : string -> Completion HTMLImageElement;
  (** [canvas.getContext('2d')] on a canvas given this width and height:
      is there a context? *)
  env_getContext : number -> number -> Completion bool;
  (** [ctx.drawImage(img, 0, 0, w, h)] *)
  env_drawImage : HTMLImageElement -> number -> number -> Completion unit;
  (** [canvas.toBlob(cb, format, quality)]: the blob handed to the callback,
      [None] for [null]. *)
  env_toBlob : HTMLImageElement -> number -> number -> ImageFormat -> number ->
               Completion (option Blob);
  (** [URL.createObjectURL(blob)] *)
  env_createObjectURL : Blob -> string
}.

(** ** [processFile] ([src/utils/imageUtils.ts]) *)

(** The [try] block. *)
Definition processFile_try (env : Env) (item : ImageItem)
    (options : ProcessingOptions) : Completion PartialItem :=
  img <- env_loadImage env (previewUrl item) ;;
  let '(targetWidth, targetHeight) := targetDimensions img options in
  ctx <- env_getContext env targetWidth targetHeight ;;
  if negb ctx then Threw (JsError "Could not get canvas context") else
  _ <- env_drawImage env img targetWidth targetHeight ;;
  blob <- env_toBlob env img targetWidth targetHeight
            (format options) (quality options) ;;
  match blob with
  | None => Threw (JsError "Image encoding failed")
  | Some blob =>
      let processedUrl := env_createObjectURL env blob in
      Returned (completedResult processedUrl (format options)
                  (Number.of_Z (blob_size blob)) targetWidth targetHeight)
  end.

(** The [catch] block. *)
Definition processFile_catch (err : Thrown) : Completion PartialItem :=
  Returned (failureResult (or_else (message err) "Processing failed")).

Definition processFile (env : Env) (item : ImageItem)
    (options : ProcessingOptions) : Completion PartialItem :=
  try_catch (processFile_try env item options) processFile_catch.

(** The target dimensions [processFile] resolves for an item: those of the
    canvas it creates once the image has loaded. *)
Definition resolvedDimensions (env : Env) (item : ImageItem)
    (options : ProcessingOptions) : option (number * number) :=
  match env_loadImage env (previewUrl item) with
  | Returned img => Some (targetDimensions img options)
  | Threw _ => None
  end.

(** ** The batch controller *)

(** The collection ([files] of the component state), the [isProcessing]
    flag, and the object URLs revoked so far (latest first). *)
Record AppState := {
  files : list ImageItem;
  isProcessing : bool;
  revoked : list string
}.

Definition setFiles (u : list ImageItem -> list ImageItem) (st : AppState) : AppState :=
  {| files := u (files st); isProcessing := isProcessing st; revoked := revoked st |}.

Definition setIsProcessing (b : bool) (st : AppState) : AppState :=
  {| files := files st; isProcessing := b; revoked := revoked st |}.

Definition revokeObjectURL (url : string) (st : AppState) : AppState :=
  {| files := files st; isProcessing := isProcessing st; revoked := url :: revoked st |}.

(** [if (url) URL.revokeObjectURL(url)] for an optional url. *)
Definition revokeIfSet (url : option string) (st : AppState) : AppState :=
  match url with
  | Some u => if truthy u then revokeObjectURL u st else st
  | None => st
  end.

Definition revokeItem (f : ImageItem) (st : AppState) : AppState :=
  revokeIfSet (processedUrl f) (revokeObjectURL (previewUrl f) st).

Definition handleRemoveFile (i : string) (st : AppState) : AppState :=
  let st' :=
    match find (fun f => String.eqb (id f) i) (files st) with
    | Some fileToRemove => revokeItem fileToRemove st
    | None => st
    end in
  setFiles (filter (fun f => negb (String.eqb (id f) i))) st'.

(** [handleClearAll] revokes the urls of the collection it closed over. *)
Definition handleClearAll (snapshot : list ImageItem) (st : AppState) : AppState :=
  setFiles (fun _ => []) (fold_left (fun s f => revokeItem f s) snapshot st).

(** What else can happen to the collection while [processFile] is
    awaited. *)
Inductive Event :=
| RemoveFile (i : string)
| ClearAll (snapshot : list ImageItem)
| FileDropped (newItem : ImageItem).

Definition applyEvent (st : AppState) (ev : Event) : AppState :=
  match ev with
  | RemoveFile i => handleRemoveFile i st
  | ClearAll snapshot => handleClearAll snapshot st
  | FileDropped newItem => setFiles (fun prev => prev ++ [newItem]) st
  end.

Definition isCandidate (f : ImageItem) : bool :=
  match status f with
  | Idle | Error => true
  | _ => false
  end.

(** Lines 119-125: the items a run visits. *)
Definition itemsToProcess (files : list ImageItem) : list ImageItem :=
  let itemsToProcess := filter isCandidate files in
  if (List.length itemsToProcess =? 0)%nat && (0 <? List.length files)%nat
  then files
  else itemsToProcess.

(** Line 128: [{ ...f, status: 'processing', error: undefined }] *)
Definition toProcessing (f : ImageItem) : ImageItem :=
  {| id := id f; file := file f; previewUrl := previewUrl f;
     originalSize := originalSize f; originalWidth := originalWidth f;
     originalHeight := originalHeight f;
     status := Processing;
     processedUrl := processedUrl f;
     processedFormat := processedFormat f;
     processedSize := processedSize f;
     processedWidth := processedWidth f;
     processedHeight := processedHeight f;
     error := None |}.

Definition markProcessing (item : ImageItem) (prev : list ImageItem) : list ImageItem :=
  map (fun f => if String.eqb (id f) (id item) then toProcessing f else f) prev.

Definition option_string_eqb (a b : option string) : bool :=
  match a, b with
  | Some x, Some y => String.eqb x y
  | None, None => true
  | _, _ => false
  end.

(** Lines 138-154: the updater that merges a result. *)
Definition mergeResult (item : ImageItem) (result : PartialItem)
    (st : AppState) : AppState :=
  let prev := files st in
  let fileExists := existsb (fun f => String.eqb (id f) (id item)) prev in
  if negb fileExists then
    revokeIfSet (get (p_processedUrl result)) st
  else
    let st' :=
      fold_left
        (fun s f =>
           if String.eqb (id f) (id item) then
             match processedUrl f with
             | Some u =>
                 if truthy u
                    && negb (option_string_eqb (processedUrl f)
                                               (get (p_processedUrl result)))
                 then revokeObjectURL u s else s
             | None => s
             end
           else s)
        prev st in
    setFiles
      (map (fun f => if String.eqb (id f) (id item) then spread f result else f))
      st'.

(** The controller's own [catch] around [processFile] (lines 132-136). *)
Definition awaitProcessFile (env : Env) (item : ImageItem)
    (options : ProcessingOptions) : Completion PartialItem :=
  try_catch (processFile env item options)
    (fun err => Returned (failureResult (or_else (message err) "Processing failed"))).

(** Lines 127-155: the loop.  [schedule] lists, for each item visited, the
    events that reach the collection while its [processFile] is awaited. *)
Fixpoint processLoop (env : Env) (options : ProcessingOptions)
    (items : list ImageItem) (schedule : list (list Event))
    (st : AppState) : Completion AppState :=
  match items with
  | [] => Returned st
  | item :: rest =>
      let st := setFiles (markProcessing item) st in
      result <- awaitProcessFile env item options ;;
      let st := fold_left applyEvent (hd [] schedule) st in
      let st := mergeResult item result st in
      processLoop env options rest (tl schedule) st
  end.

Definition handleProcessAll (env : Env) (options : ProcessingOptions)
    (schedule : list (list Event)) (st : AppState) : Completion AppState :=
  let snapshot := files st in
  let st := setIsProcessing true st in
  st <- processLoop env options (itemsToProcess snapshot) schedule st ;;
  Returned (setIsProcessing false st).

(** An item as [handleFilesDropped] creates it (lines 71-79): the width and
    height are those probed at ingestion, [0] when probing failed. *)
Definition newItem (i : string) (f : File) (url : string) (size : Z)
    (width height : Z) : ImageItem :=
  {| id := i; file := f; previewUrl := url;
     originalSize := Number.of_Z size;
     originalWidth := Number.of_Z width;
     originalHeight := Number.of_Z height;
     status := Idle;
     processedUrl := None; processedFormat := None; processedSize := None;
     processedWidth := None; processedHeight := None; error := None |}.

(** ** Options with a given resize policy *)

Definition mkOptions (m : ResizeMode) (v : number) (keep : bool) : ProcessingOptions :=
  {| format := image_jpeg;
     quality := Number.div (Number.of_Z 8) (Number.of_Z 10);
     resizeMode := m; resizeValue := v; maintainAspectRatio := keep |}.

(** ** Predicates the properties are stated with *)

Definition one : number := Number.of_Z 1.

(** Both resolved dimensions are at least one pixel. *)
Definition atLeastOnePixel (d : number * number) : Prop :=
  Number.leb one (fst d) = true /\ Number.leb one (snd d) = true.

Definition noOutput (f : ImageItem) : Prop :=
  processedUrl f = None /\ processedFormat f = None /\ processedSize f = None /\
  processedWidth f = None /\ processedHeight f = None.

Definition successSet (f : ImageItem) : Prop :=
  processedUrl f <> None /\ processedFormat f <> None /\ processedSize f <> None /\
  processedWidth f <> None /\ processedHeight f <> None.

(** The invariant as the specification words it: exactly one of "no output
    yet", "success fields set", "error set", as the status says, with
    everything cleared while processing. *)
Definition exclusiveOutputs (f : ImageItem) : Prop :=
  match status f with
  | Idle | Processing => noOutput f /\ error f = None
  | Completed => successSet f /\ error f = None
  | Error => noOutput f /\ error f <> None
  end.

(** The invariant the controller maintains. *)
Definition consistent (f : ImageItem) : Prop :=
  match status f with
  | Idle => noOutput f /\ error f = None
  | Processing => error f = None
  | Completed => successSet f /\ error f = None
  | Error => exists msg, error f = Some msg /\ msg <> ""%string
  end.

Definition eventOk (ev : Event) : Prop :=
  match ev with
  | FileDropped newItem => consistent newItem
  | _ => True
  end.



(** What [processFile] can hand back. *)
Definition pipelineResult (r : PartialItem) : Prop :=
  (exists url fmt size w h, r = completedResult url fmt size w h) \/
  (exists msg, msg <> ""%string /\ r = failureResult msg).

Definition terminal (s : ProcessStatus) : Prop := s = Completed \/ s = Error.

Definition sameOriginal (f f' : ImageItem) : Prop :=
  id f' = id f /\ file f' = file f /\ previewUrl f' = previewUrl f /\
  originalSize f' = originalSize f /\ originalWidth f' = originalWidth f /\
  originalHeight f' = originalHeight f.


(** ** Exact rounding, to state what the resolved dimensions are *)

(** [n / d] rounded to the nearest integer, ties away from zero ([0 < d]). *)
Definition roundHalfAway (n d : Z) : Z :=
  Z.sgn n * ((2 * Z.abs n + d) / (2 * d)).

(** [n / d] lies exactly halfway between two integers. *)
Definition halfway (n d : Z) : Prop := (2 * n) mod (2 * d) = d.

(** ** Real values, for the error analysis of the floating-point operations *)

Definition bpow (e : Z) : R := powerRZ 2 e.

(** [x] lies where the record says: in [[m, m+1)], at the place the round
    and sticky bits tell. *)
Definition locInv (x : R) (mrs : shr_record) : Prop :=
  0 <= shr_m mrs /\
  match shr_r mrs, shr_s mrs with
  | false, false => x = IZR (shr_m mrs)
  | false, true => (IZR (shr_m mrs) < x < IZR (shr_m mrs) + / 2)%R
  | true, false => x = (IZR (shr_m mrs) + / 2)%R
  | true, true => (IZR (shr_m mrs) + / 2 < x < IZR (shr_m mrs) + 1)%R
  end.

(** ** What the page shows of the collection (lines 234-235) *)

Definition hasIdleOrError (files : list ImageItem) : bool :=
  existsb isCandidate files.

Definition showReprocess (files : list ImageItem) : bool :=
  (0 <? List.length files)%nat && negb (hasIdleOrError files).

(** ** The archive of the processed files ([handleDownloadAll], lines 160-220) *)

(** [`${n}`] for a count. *)
Definition decimal (n : nat) : string :=
  NilEmpty.string_of_uint (Nat.to_uint n).

(** [s.lastIndexOf('.')], [None] for -1. *)
Fixpoint lastIndexOfDot (s : string) : option nat :=
  match s with
  | EmptyString => None
  | String c rest =>
      match lastIndexOfDot rest with
      | Some i => Some (S i)
      | None => if Ascii.eqb c "." then Some 0%nat else None
      end
  end.

(** [name.substring(0, name.lastIndexOf('.')) || name] (line 188); a
    negative end counts as 0. *)
Definition baseName (name : string) : string :=
  or_else
    match lastIndexOfDot name with
    | Some i => substring 0 i name
    | None => ""%string
    end
    name.

(** Lines 181-186. *)
Definition extensionOf (blobType : string) : string :=
  if String.eqb blobType "image/png" then "png"%string
  else if String.eqb blobType "image/webp" then "webp"%string
  else "jpg"%string.

(** [usedNames: Record<string, number>]: the latest binding of a key
    counts.  Every key the loop looks up ends in [_optimized.] and an
    extension, so none is a property the empty object inherits. *)
Fixpoint lookupName (usedNames : list (string * nat)) (key : string) : option nat :=
  match usedNames with
  | [] => None
  | (k, v) :: rest => if String.eqb k key then Some v else lookupName rest key
  end.

(** The loop of lines 174-203: [zip] lists the calls [zip.file(fileName,
    blob)] made so far; an item whose blob cannot be fetched is skipped. *)
Fixpoint zipLoop (fetchBlob : string -> Completion Blob)
    (processedFiles : list ImageItem) (usedNames : list (string * nat))
    (zip : list (string * Blob)) : list (string * Blob) :=
  match processedFiles with
  | [] => zip
  | f :: rest =>
      match processedUrl f with
      | Some url =>
          if truthy url then
            match fetchBlob url with
            | Returned blob =>
                let ext := extensionOf (blob_type blob) in
                let baseName := baseName (file_name (file f)) in
                let fileName := (baseName ++ "_optimized." ++ ext)%string in
                match lookupName usedNames fileName with
                | Some (S count) =>
                    let usedNames := (fileName, S (S count)) :: usedNames in
                    let fileName :=
                      (baseName ++ "_optimized_" ++ decimal (S (S count))
                         ++ "." ++ ext)%string in
                    zipLoop fetchBlob rest usedNames (zip ++ [(fileName, blob)])
                | _ =>
                    zipLoop fetchBlob rest ((fileName, 1%nat) :: usedNames)
                      (zip ++ [(fileName, blob)])
                end
            | Threw _ => zipLoop fetchBlob rest usedNames zip
            end
          else zipLoop fetchBlob rest usedNames zip
      | None => zipLoop fetchBlob rest usedNames zip
      end
  end.

(** The files that go into the archive (line 165), and the calls that fill
    it; [None] when there is nothing to download (lines 167-170). *)
Definition processedFiles (files : list ImageItem) : list ImageItem :=
  filter (fun f => match status f, processedUrl f with
                   | Completed, Some url => truthy url
                   | _, _ => false
                   end) files.

Definition handleDownloadAll (fetchBlob : string -> Completion Blob)
    (files : list ImageItem) : option (list (string * Blob)) :=
  if (List.length (processedFiles files) =? 0)%nat then None
  else Some (zipLoop fetchBlob (processedFiles files) [] []).

(** The blobs fetched, in the order of the collection. *)
Definition fetchedBlobs (fetchBlob : string -> Completion Blob)
    (files : list ImageItem) : list Blob :=
  flat_map (fun f => match processedUrl f with
                     | Some url =>
                         if truthy url then
                           match fetchBlob url with
                           | Returned blob => [blob]
                           | Threw _ => []
                           end
                         else []
                     | None => []
                     end) files.

Definition isDigit (c : ascii) : bool :=
  (48 <=? nat_of_ascii c)%nat && (nat_of_ascii c <=? 57)%nat.

Definition notDot (c : ascii) : bool := negb (Ascii.eqb c ".").

(** What the loop keeps of [usedNames] and of the names given to
    [zip.file] so far: the names are pairwise distinct; every key is a plain
    name with a count of at least 1; every name is a key, or the numbered
    form of a key with a number between 2 and the key's count. *)
Definition namesInv (usedNames : list (string * nat)) (names : list string) : Prop :=
  NoDup names /\
  (forall key c, lookupName usedNames key = Some c ->
     (1 <= c)%nat /\
     exists b t, key = (b ++ "_optimized." ++ extensionOf t)%string) /\
  (forall name, In name names ->
     (exists c, lookupName usedNames name = Some c) \/
     (exists b t k c,
        lookupName usedNames (b ++ "_optimized." ++ extensionOf t)%string = Some c /\
        (2 <= k <= c)%nat /\
        name = (b ++ "_optimized_" ++ decimal k ++ "." ++ extensionOf t)%string)).

(** The plain names [`${baseName}_optimized.${ext}`] (line 190) of the files
    whose blob is fetched, in the order of the collection. *)
Definition plainNames (fetchBlob : string -> Completion Blob)
    (files : list ImageItem) : list string :=
  flat_map (fun f => match processedUrl f with
                     | Some url =>
                         if truthy url then
                           match fetchBlob url with
                           | Returned blob =>
                               [(baseName (file_name (file f)) ++ "_optimized."
                                   ++ extensionOf (blob_type blob))%string]
                           | Threw _ => []
                           end
                         else []
                     | None => []
                     end) files.

(** The base name and the extension (lines 181-188) of the files whose blob
    is fetched, in the order of the collection. *)
Definition fetchedStems (fetchBlob : string -> Completion Blob)
    (files : list ImageItem) : list (string * string) :=
  flat_map (fun f => match processedUrl f with
                     | Some url =>
                         if truthy url then
                           match fetchBlob url with
                           | Returned blob =>
                               [(baseName (file_name (file f)),
                                 extensionOf (blob_type blob))]
                           | Threw _ => []
                           end
                         else []
                     | None => []
                     end) files.

(** The names by counting: a file whose plain name was met [k] times
    before ([seen] lists the plain names met so far) keeps the plain name
    when [k = 0] and takes the number [k + 1] otherwise. *)
Fixpoint numberedFrom (seen : list string) (stems : list (string * string))
    : list string :=
  match stems with
  | [] => []
  | (b, ext) :: rest =>
      let plain := (b ++ "_optimized." ++ ext)%string in
      (match count_occ string_dec seen plain with
       | O => plain
       | S k => (b ++ "_optimized_" ++ decimal (S (S k)) ++ "." ++ ext)%string
       end) :: numberedFrom (plain :: seen) rest
  end.

(** ** Dropping files in ([handleFilesDropped], lines 30-94) *)

(** What the handler asks of its surroundings: [isHeic(file)],
    [convertHeicToJpeg(file)], [URL.createObjectURL(file)], the load of an
    image to read its size, and the id [generateId()] draws while the k-th
    file of the drop is handled. *)
Record DropEnv := {
  drop_isHeic : File -> bool;
  drop_convertHeicToJpeg : File -> Completion File;
  drop_createObjectURL : File -> string;
  drop_loadImage : string -> Completion HTMLImageElement;
  drop_generateId : nat -> string
}.

(** The collection and the upload progress [{ current, total }]. *)
Record UploadState := {
  app : AppState;
  uploadProgress : option (nat * nat)
}.

(** The body of the [try] for one file: the item it appends, [None] when the
    conversion of a HEIC file fails ([continue]). *)
Definition droppedItem (env : DropEnv) (k : nat) (file : File) : option ImageItem :=
  let converted :=
    if drop_isHeic env file then
      match drop_convertHeicToJpeg env file with
      | Returned fileToProcess =>
          Some (fileToProcess, drop_createObjectURL env fileToProcess)
      | Threw _ => None
      end
    else Some (file, drop_createObjectURL env file) in
  match converted with
  | None => None
  | Some (fileToProcess, previewUrl) =>
      let '(width, height) :=
        match drop_loadImage env previewUrl with
        | Returned img => (naturalWidth img, naturalHeight img)
        | Threw _ => (0, 0)
        end in
      Some (newItem (drop_generateId env k) fileToProcess previewUrl
              (file_size file) width height)
  end.

Fixpoint dropLoop (env : DropEnv) (total : nat) (newFiles : list File)
    (processedCount : nat) (st : UploadState) : UploadState :=
  match newFiles with
  | [] => st
  | file :: rest =>
      let app' :=
        match droppedItem env processedCount file with
        | Some newItem => setFiles (fun prev => prev ++ [newItem]) (app st)
        | None => app st
        end in
      let processedCount := S processedCount in
      dropLoop env total rest processedCount
        {| app := app'; uploadProgress := Some (processedCount, total) |}
  end.

Definition handleFilesDropped (env : DropEnv) (newFiles : list File)
    (st : UploadState) : UploadState :=
  dropLoop env (List.length newFiles) newFiles 0
    {| app := app st; uploadProgress := Some (0%nat, List.length newFiles) |}.

(** Does a dropped file yield an item?  Only a HEIC file whose conversion
    fails does not. *)
Definition yieldsItem (env : DropEnv) (file : File) : bool :=
  if drop_isHeic env file then
    match drop_convertHeicToJpeg env file with
    | Returned _ => true
    | Threw _ => false
    end
  else true.

(** How an item of the collection stems from a dropped file. *)
Definition droppedFrom (env : DropEnv) (dropped : File) (f : ImageItem) : Prop :=
  originalSize f = Number.of_Z (file_size dropped) /\
  previewUrl f = drop_createObjectURL env (file f) /\
  (if drop_isHeic env dropped
   then drop_convertHeicToJpeg env dropped = Returned (file f)
   else file f = dropped) /\
  match drop_loadImage env (previewUrl f) with
  | Returned img =>
      originalWidth f = Number.of_Z (naturalWidth img) /\
      originalHeight f = Number.of_Z (naturalHeight img)
  | Threw _ =>
      originalWidth f = Number.of_Z 0 /\ originalHeight f = Number.of_Z 0
  end.

(** The items dropped in while a run is under way, as they were dropped. *)
Definition eventItems (ev : Event) : list ImageItem :=
  match ev with
  | FileDropped newItem => [newItem]
  | _ => []
  end.

Definition droppedItems (schedule : list (list Event)) : list ImageItem :=
  flat_map (flat_map eventItems) schedule.

(** ** The figures of the header ([stats], lines 223-232) *)

(** [x + y] and [x - y]. *)
Definition number_add (x y : number) : number := SFadd Number.prec Number.emax x y.
Definition number_sub (x y : number) : number := SFsub Number.prec Number.emax x y.

(** Truthiness of a number: [0], [-0] and [NaN] are falsy. *)
Definition truthyNumber (x : number) : bool :=
  match x with
  | S754_zero _ | S754_nan => false
  | _ => true
  end.

Record Stats := { total : nat; completed : nat; savedBytes : number }.

Definition stats (files : list ImageItem) : Stats :=
  {| total := List.length files;
     completed :=
       List.length (filter (fun f => match status f with
                                     | Completed => true
                                     | _ => false
                                     end) files);
     savedBytes :=
       fold_left (fun acc curr =>
                    match status curr, processedSize curr with
                    | Completed, Some size =>
                        if truthyNumber size
                        then number_add acc (number_sub (originalSize curr) size)
                        else acc
                    | _, _ => acc
                    end) files (Number.of_Z 0) |}.

(** The bytes saved, counted exactly, for items whose original and processed
    sizes are the integers [sizes] lists, in the order of the collection (a
    processed size of 0 stands for none as well): the completed items with a
    processed size other than 0 count. *)
Fixpoint savedExact (files : list ImageItem) (sizes : list (Z * Z)) : Z :=
  match files, sizes with
  | f :: files, (o, p) :: sizes =>
      (match status f with
       | Completed => if p =? 0 then 0 else o - p
       | _ => 0
       end) + savedExact files sizes
  | _, _ => 0
  end.

Definition sumZ (l : list Z) : Z := fold_right Z.add 0 l.

(** An item's sizes are the integers [o] and [p]. *)
Definition hasSizes (f : ImageItem) (op : Z * Z) : Prop :=
  0 <= fst op /\ 0 <= snd op /\
  originalSize f = Number.of_Z (fst op) /\
  (processedSize f = Some (Number.of_Z (snd op)) \/
   (processedSize f = None /\ snd op = 0)).

(** ** Sample inputs *)

Definition sampleFile : File :=
  {| file_name := "photo.png"; file_type := "image/png"; file_size := 2048 |}.

Definition sampleOptions : ProcessingOptions :=
  {| format := image_webp;
     quality := Number.div (Number.of_Z 8) (Number.of_Z 10);
     resizeMode := fixed_width; resizeValue := Number.of_Z 500;
     maintainAspectRatio := true |}.

(** A browser in which every url decodes to a 1000x500 image, except
    ["blob:corrupt"], and encoding yields [blob]. *)
Definition sampleEnv (blob : option Blob) : Env :=
  {| env_loadImage := fun url =>
       if String.eqb url "blob:corrupt"
       then Threw (JsError "Failed to load image")
       else Returned {| naturalWidth := 1000; naturalHeight := 500 |};
     env_getContext := fun _ _ => Returned true;
     env_drawImage := fun _ _ _ => Returned tt;
     env_toBlob := fun _ _ _ _ _ => Returned blob;
     env_createObjectURL := fun b => "blob:out"%string |}.

Definition someBlob : Blob := {| blob_size := 1234; blob_type := "image/webp" |}.
Definition emptyBlob : Blob := {| blob_size := 0; blob_type := "image/webp" |}.

Definition sampleItem (i url : string) : ImageItem :=
  newItem i sampleFile url 2048 1000 500.

Definition withStatus (s : ProcessStatus) (f : ImageItem) : ImageItem :=
  spread f {| p_id := None; p_file := None; p_previewUrl := None;
              p_originalSize := None; p_originalWidth := None;
              p_originalHeight := None; p_status := Some s;
              p_processedUrl := None; p_processedFormat := None;
              p_processedSize := None; p_processedWidth := None;
              p_processedHeight := None; p_error := None |}.

Definition initialState (fs : list ImageItem) : AppState :=
  {| files := fs; isProcessing := false; revoked := [] |}.

(** A completed item: what a run over one fresh item leaves. *)
Definition completedItem : ImageItem :=
  Eval vm_compute in
  match handleProcessAll (sampleEnv (Some someBlob)) sampleOptions []
          (initialState [sampleItem "a" "blob:a"]) with
  | Returned st => hd (sampleItem "a" "blob:a") (files st)
  | Threw _ => sampleItem "a" "blob:a"
  end.

Definition threeItems : list ImageItem :=
  [sampleItem "a" "blob:a"; sampleItem "b" "blob:corrupt"; sampleItem "c" "blob:c"].

(** An idle, a completed and a failed item, and what a run over them
    leaves. *)
Definition mixedItems : list ImageItem :=
  [sampleItem "a" "blob:a";
   withStatus Completed (sampleItem "b" "blob:b");
   withStatus Error (sampleItem "c" "blob:c")].

Definition afterMixedItems : AppState :=
  Eval vm_compute in
  match handleProcessAll (sampleEnv (Some someBlob)) sampleOptions []
          (initialState mixedItems) with
  | Returned st => st
  | Threw _ => initialState []
  end.

(** What a second run over [completedItem] leaves when encoding fails and
    some other item is removed meanwhile. *)
Definition afterFailedRerun : AppState :=
  Eval vm_compute in
  match handleProcessAll (sampleEnv None) sampleOptions [[RemoveFile "z"]]
          (initialState [completedItem]) with
  | Returned st => st
  | Threw _ => initialState []
  end.

(** What a run over [threeItems] leaves. *)
Definition afterThreeItems : AppState :=
  Eval vm_compute in
  match handleProcessAll (sampleEnv (Some someBlob)) sampleOptions []
          (initialState threeItems) with
  | Returned st => st
  | Threw _ => initialState []
  end.



(** A network in which every object URL can be fetched, except
    ["blob:gone"]. *)
Definition sampleFetch (url : string) : Completion Blob :=
  if String.eqb url "blob:gone" then Threw (JsError "Failed to fetch")
  else Returned someBlob.

(** A completed item of the given id, file name and output URL. *)
Definition completedNamed (i name url : string) : ImageItem :=
  {| id := i;
     file := {| file_name := name; file_type := "image/png"; file_size := 2048 |};
     previewUrl := "blob:preview";
     originalSize := Number.of_Z 2048;
     originalWidth := Number.of_Z 1000;
     originalHeight := Number.of_Z 500;
     status := Completed;
     processedUrl := Some url;
     processedFormat := Some image_webp;
     processedSize := Some (Number.of_Z 1234);
     processedWidth := Some (Number.of_Z 500);
     processedHeight := Some (Number.of_Z 250);
     error := None |}.

(** A page on which files of type image/heic are converted, the conversion
    of ["broken.heic"] fails, and the object URL of a file is ["blob:"]
    followed by its name. *)
Definition sampleDropEnv : DropEnv :=
  {| drop_isHeic := fun f => String.eqb (file_type f) "image/heic";
     drop_convertHeicToJpeg := fun f =>
       if String.eqb (file_name f) "broken.heic"
       then Threw (JsError "ERR_LIBHEIF format not supported")
       else Returned {| file_name := "converted.jpg"; file_type := "image/jpeg";
                        file_size := 900 |};
     drop_createObjectURL := fun f => ("blob:" ++ file_name f)%string;
     drop_loadImage := env_loadImage (sampleEnv None);
     drop_generateId := fun k => ("id" ++ decimal k)%string |}.

Definition sampleDrop : list File :=
  [sampleFile;
   {| file_name := "broken.heic"; file_type := "image/heic"; file_size := 4096 |};
   {| file_name := "holiday.heic"; file_type := "image/heic"; file_size := 5000 |};
   {| file_name := "corrupt"; file_type := "image/png"; file_size := 10 |}].

(** Two photos of the same base name with a scan and an idle item between
    them. *)
Definition mixedArchive : list ImageItem :=
  [completedNamed "a" "photo.png" "blob:1";
   completedNamed "s" "scan.png" "blob:2";
   sampleItem "i" "blob:i";
   completedNamed "b" "photo.jpg" "blob:3"].

(** A completed item, an idle one, a completed one whose output is larger
    than its original, a failed one that kept the output of an earlier run,
    and a completed one whose output has no bytes. *)
Definition statsItems : list ImageItem :=
  [completedNamed "a" "photo.png" "blob:1";
   sampleItem "i" "blob:i";
   {| id := "g"; file := sampleFile; previewUrl := "blob:g";
      originalSize := Number.of_Z 1000;
      originalWidth := Number.of_Z 10; originalHeight := Number.of_Z 10;
      status := Completed;
      processedUrl := Some "blob:3"%string;
      processedFormat := Some image_png;
      processedSize := Some (Number.of_Z 3000);
      processedWidth := Some (Number.of_Z 10);
      processedHeight := Some (Number.of_Z 10);
      error := None |};
   withStatus Error (completedNamed "e" "photo.png" "blob:4");
   {| id := "z"; file := sampleFile; previewUrl := "blob:z";
      originalSize := Number.of_Z 5000;
      originalWidth := Number.of_Z 10; originalHeight := Number.of_Z 10;
      status := Completed;
      processedUrl := Some "blob:5"%string;
      processedFormat := Some image_webp;
      processedSize := Some (Number.of_Z 0);
      processedWidth := Some (Number.of_Z 10);
      processedHeight := Some (Number.of_Z 10);
      error := None |}].

(** What a run over one fresh item leaves when another file is dropped in
    while the item is processed. *)
Definition afterDropDuringRun : AppState :=
  Eval vm_compute in
  match handleProcessAll (sampleEnv (Some someBlob)) sampleOptions
          [[FileDropped (sampleItem "n" "blob:n")]]
          (initialState [sampleItem "a" "blob:a"]) with
  | Returned st => st
  | Threw _ => initialState []
  end.

(** * Floating-point arithmetic: what the operations compute *)

Section Bpow.
Local Open Scope R_scope.

Lemma bpow_add (a b : Z) : bpow (a + b) = bpow a * bpow b.
Proof. unfold bpow. apply powerRZ_add. lra. Qed.

Lemma bpow_pos (e : Z) : 0 < bpow e.
Proof. unfold bpow. apply powerRZ_lt. lra. Qed.

Lemma bpow_IZR (e : Z) : (0 <= e)%Z -> bpow e = IZR (2 ^ e).
Proof.
  intros He. unfold bpow. rewrite <- (Z2Nat.id e He).
  rewrite <- pow_powerRZ. apply pow_IZR.
Qed.

Lemma bpow_0 : bpow 0 = 1.
Proof. reflexivity. Qed.

Lemma bpow_1 : bpow 1 = 2.
Proof. unfold bpow. simpl. lra. Qed.

Lemma bpow_m1 : bpow (-1) = / 2.
Proof. unfold bpow. simpl. f_equal. lra. Qed.

Lemma bpow_opp (e : Z) : bpow (- e) = / bpow e.
Proof. unfold bpow. apply powerRZ_neg'. Qed.

Lemma bpow_le (a b : Z) : (a <= b)%Z -> bpow a <= bpow b.
Proof.
  intros H. replace b with (a + (b - a))%Z by lia.
  rewrite bpow_add, (bpow_IZR (b - a)) by lia.
  assert (1 <= IZR (2 ^ (b - a))).
  { apply IZR_le. assert (0 < 2 ^ (b - a))%Z by (apply Z.pow_pos_nonneg; lia). lia. }
  pose proof (bpow_pos a). nra.
Qed.

Lemma bpow_lt (a b : Z) : (a < b)%Z -> bpow a < bpow b.
Proof.
  intros H. replace b with (a + (b - a))%Z by lia.
  rewrite bpow_add, (bpow_IZR (b - a)) by lia.
  assert (2 <= IZR (2 ^ (b - a))).
  { apply IZR_le. replace (b - a)%Z with (Z.succ (b - a - 1)) by lia.
    rewrite Z.pow_succ_r by lia.
    assert (0 < 2 ^ (b - a - 1))%Z by (apply Z.pow_pos_nonneg; lia). lia. }
  pose proof (bpow_pos a). nra.
Qed.

End Bpow.

(** ** Number of binary digits *)

Lemma digits2_size (p : positive) : digits2_pos p = Pos.size p.
Proof. induction p; simpl; congruence. Qed.

Lemma digits_bounds (p : positive) :
  2 ^ (Zpos (digits2_pos p) - 1) <= Zpos p < 2 ^ Zpos (digits2_pos p).
Proof.
  rewrite digits2_size.
  pose proof (Pos.size_gt p) as Hgt. pose proof (Pos.size_le p) as Hle.
  apply Pos2Z.pos_lt_pos in Hgt. apply Pos2Z.pos_le_pos in Hle.
  rewrite Pos2Z.inj_pow in Hgt, Hle.
  split; [|assumption].
  replace (Zpos (Pos.size p)) with (Z.succ (Zpos (Pos.size p) - 1)) in Hle by lia.
  rewrite Z.pow_succ_r in Hle by lia. lia.
Qed.

Lemma digits_unique (m : positive) (k : Z) :
  2 ^ (k - 1) <= Zpos m < 2 ^ k -> Zpos (digits2_pos m) = k.
Proof.
  intros [Hlo Hhi]. pose proof (digits_bounds m) as [Dlo Dhi].
  assert (0 < k).
  { destruct (Z_lt_le_dec 0 k); [assumption|].
    destruct (Z.eq_dec k 0) as [->|]; [simpl in Hhi; lia|].
    rewrite Z.pow_neg_r in Hhi by lia. lia. }
  destruct (Z.lt_trichotomy (Zpos (digits2_pos m)) k) as [C|[C|C]]; [|assumption|].
  - assert (2 ^ Zpos (digits2_pos m) <= 2 ^ (k - 1)) by (apply Z.pow_le_mono_r; lia).
    lia.
  - assert (2 ^ k <= 2 ^ (Zpos (digits2_pos m) - 1)) by (apply Z.pow_le_mono_r; lia).
    lia.
Qed.

(** ** Shifting right keeps track of where the exact value lies *)

Lemma IZR_xO (p : positive) :
  IZR (Zpos p~0) = (IZR (Zpos p) + IZR (Zpos p))%R.
Proof. rewrite <- plus_IZR. f_equal. lia. Qed.

Lemma IZR_xI (p : positive) :
  IZR (Zpos p~1) = (IZR (Zpos p) + IZR (Zpos p) + 1)%R.
Proof. rewrite <- !plus_IZR. f_equal. lia. Qed.

Lemma shr_1_inv (x : R) (mrs : shr_record) :
  locInv x mrs -> locInv (x / 2) (shr_1 mrs).
Proof.
  destruct mrs as [m r s]. unfold locInv. cbn [shr_m shr_r shr_s].
  intros [Hm H].
  destruct m as [|p|p]; [| |exfalso; now apply Hm].
  - unfold shr_1. destruct r, s; cbn [orb shr_m shr_r shr_s] in *;
      (split; [apply Z.le_refl|]); lra.
  - destruct p as [p|p|]; unfold shr_1;
      try rewrite IZR_xO in H; try rewrite IZR_xI in H;
      destruct r, s; cbn [orb shr_m shr_r shr_s] in *;
      (split; [try apply Pos2Z.is_nonneg; try apply Z.le_refl|]); lra.
Qed.

Lemma iter_shr_1_inv (p : positive) :
  forall (x : R) (mrs : shr_record),
    locInv x mrs -> locInv (x * bpow (- Zpos p)) (SpecFloat.iter_pos shr_1 p mrs).
Proof.
  induction p as [p IH|p IH|]; intros x mrs H; cbn [SpecFloat.iter_pos].
  - replace (x * bpow (- Zpos p~1))%R
      with (x / 2 * bpow (- Zpos p) * bpow (- Zpos p))%R.
    + apply IH, IH. now apply shr_1_inv.
    + replace (- Zpos p~1) with (-1 + (- Zpos p + - Zpos p)) by lia.
      rewrite !bpow_add, bpow_m1. lra.
  - replace (x * bpow (- Zpos p~0))%R
      with (x * bpow (- Zpos p) * bpow (- Zpos p))%R.
    + now apply IH, IH.
    + replace (- Zpos p~0) with (- Zpos p + - Zpos p) by lia.
      rewrite !bpow_add. lra.
  - replace (x * bpow (- Z.pos 1))%R with (x / 2)%R
      by (change (- Z.pos 1) with (-1); rewrite bpow_m1; lra).
    now apply shr_1_inv.
Qed.

Lemma locInv_bounds (x : R) (mrs : shr_record) :
  locInv x mrs -> (IZR (shr_m mrs) <= x < IZR (shr_m mrs) + 1)%R.
Proof.
  unfold locInv. intros [_ H]. destruct (shr_r mrs), (shr_s mrs); lra.
Qed.

Lemma shr_inv (x : R) (mrs : shr_record) (e n : Z) :
  0 <= n -> locInv x mrs ->
  exists mrs1, shr mrs e n = (mrs1, e + n) /\ locInv (x * bpow (- n)) mrs1.
Proof.
  intros Hn H. destruct n as [|p|p]; [| |lia].
  - exists mrs. split; [simpl; f_equal; lia|].
    change (- 0) with 0. rewrite bpow_0, Rmult_1_r. assumption.
  - exists (SpecFloat.iter_pos shr_1 p mrs). split; [reflexivity|].
    now apply iter_shr_1_inv.
Qed.

Lemma fexp_eq (e : Z) : fexp 53 1024 e = Z.max (e - 53) (-1074).
Proof. reflexivity. Qed.

Lemma round_nearest_even_spec (x : R) (mrs : shr_record) :
  locInv x mrs ->
  let r := round_nearest_even (shr_m mrs) (loc_of_shr_record mrs) in
  shr_m mrs <= r <= shr_m mrs + 1 /\ (Rabs (IZR r - x) <= / 2)%R.
Proof.
  destruct mrs as [m r s]. unfold locInv. cbn [shr_m shr_r shr_s].
  intros [Hm H]. unfold loc_of_shr_record, round_nearest_even.
  destruct r, s; cbn zeta.
  - split; [lia|]. rewrite plus_IZR. apply Rabs_le. lra.
  - destruct (Z.even m); (split; [lia|]); rewrite ?plus_IZR; apply Rabs_le; lra.
  - split; [lia|]. apply Rabs_le. lra.
  - split; [lia|]. apply Rabs_le. lra.
Qed.

Lemma shr_record_of_loc_m (m : Z) (l : location) :
  shr_m (shr_record_of_loc m l) = m.
Proof. destruct l as [|[| |]]; reflexivity. Qed.

Lemma shr_fexp_exact_small (r : positive) (e1 : Z) :
  2 ^ 52 <= Zpos r < 2 ^ 53 -> -1021 <= 53 + e1 ->
  shr_fexp 53 1024 (Zpos r) e1 loc_Exact =
  ({| shr_m := Zpos r; shr_r := false; shr_s := false |}, e1).
Proof.
  intros Hr He. unfold shr_fexp. cbn [Zdigits2].
  rewrite (digits_unique r 53) by exact Hr.
  rewrite fexp_eq. replace (Z.max (53 + e1 - 53) (-1074) - e1) with 0 by lia.
  reflexivity.
Qed.

Lemma shr_fexp_exact_carry (e1 : Z) :
  -1021 <= 54 + e1 ->
  shr_fexp 53 1024 (2 ^ 53) e1 loc_Exact =
  ({| shr_m := 2 ^ 52; shr_r := false; shr_s := false |}, e1 + 1).
Proof.
  intros He. unfold shr_fexp.
  replace (Zdigits2 (2 ^ 53)) with 54 by reflexivity.
  rewrite fexp_eq. replace (Z.max (54 + e1 - 53) (-1074) - e1) with 1 by lia.
  reflexivity.
Qed.

Lemma IZR_pow2 (k : Z) : 0 <= k -> IZR (2 ^ k) = bpow k.
Proof. intros H. now rewrite bpow_IZR. Qed.

(** The rounding step of every operation: a mantissa of at least 53 digits,
    with the place of the exact value, becomes a normal number within half
    a unit in the last place of the exact value. *)
Lemma binary_round_aux_correct (m : positive) (e : Z) (l : location) (x : R) :
  let d := Zpos (digits2_pos m) in
  53 <= d -> -1021 <= d + e <= 1000 ->
  locInv x (shr_record_of_loc (Zpos m) l) ->
  exists m' e',
    binary_round_aux 53 1024 false (Zpos m) e l = S754_finite false m' e' /\
    2 ^ 52 <= Zpos m' < 2 ^ 53 /\
    d + e - 53 <= e' <= d + e - 52 /\
    (Rabs (IZR (Zpos m') * bpow e' - x * bpow e) <= bpow (d + e - 54))%R.
Proof.
  intros d Hd He Hx.
  pose proof (digits_bounds m) as [Dlo Dhi]. fold d in Dlo, Dhi.
  pose proof (locInv_bounds _ _ Hx) as Hxb. rewrite shr_record_of_loc_m in Hxb.
  destruct (shr_inv x _ e (d - 53) ltac:(lia) Hx) as (mrs1 & Hshr & Hinv).
  assert (shr_fexp 53 1024 (Zpos m) e l = (mrs1, e + (d - 53))) as Hshr1.
  { unfold shr_fexp. cbn [Zdigits2]. fold d. rewrite fexp_eq.
    replace (Z.max (d + e - 53) (-1074) - e) with (d - 53) by lia. exact Hshr. }
  set (x1 := (x * bpow (- (d - 53)))%R) in *.
  assert (bpow 52 <= x1 < bpow 53)%R as Hx1.
  { unfold x1. pose proof (bpow_pos (- (d - 53))) as Hp.
    assert (bpow (d - 1) <= x)%R.
    { rewrite <- IZR_pow2 by lia. apply IZR_le in Dlo. lra. }
    assert (x < bpow d)%R.
    { rewrite <- IZR_pow2 by lia.
      assert (Zpos m + 1 <= 2 ^ d) as Hle by lia. apply IZR_le in Hle.
      rewrite plus_IZR in Hle. lra. }
    assert (bpow 52 = bpow (d - 1) * bpow (- (d - 53)))%R as ->
      by (rewrite <- bpow_add; f_equal; lia).
    assert (bpow 53 = bpow d * bpow (- (d - 53)))%R as ->
      by (rewrite <- bpow_add; f_equal; lia).
    split; [apply Rmult_le_compat_r | apply Rmult_lt_compat_r]; lra. }
  pose proof (locInv_bounds _ _ Hinv) as Hm1.
  destruct Hinv as [Hm1pos Hloc].
  assert (2 ^ 52 <= shr_m mrs1 < 2 ^ 53) as Hm1b.
  { rewrite <- !IZR_pow2 in Hx1 by lia. split.
    - assert (2 ^ 52 < shr_m mrs1 + 1); [|lia].
      apply lt_IZR. rewrite plus_IZR. lra.
    - apply lt_IZR. lra. }
  pose proof (round_nearest_even_spec x1 mrs1 (conj Hm1pos Hloc)) as [Hr Herr].
  set (r := round_nearest_even (shr_m mrs1) (loc_of_shr_record mrs1)) in *.
  assert (x * bpow e = x1 * bpow (e + (d - 53)))%R as Hxe.
  { unfold x1. rewrite Rmult_assoc, <- bpow_add. f_equal. f_equal. lia. }
  unfold binary_round_aux. rewrite Hshr1. fold r.
  destruct (Z.eq_dec r (2 ^ 53)) as [Er|Er].
  - rewrite Er, shr_fexp_exact_carry by lia. cbn [shr_m].
    change (2 ^ 52) with (Zpos (2 ^ 52)).
    assert ((e + (d - 53) + 1 <=? 1024 - 53) = true) as -> by (apply Z.leb_le; lia).
    exists (2 ^ 52)%positive, (e + (d - 53) + 1).
    split; [reflexivity|]. split; [lia|]. split; [lia|].
    rewrite Hxe, bpow_add, bpow_1.
    assert (IZR (Zpos (2 ^ 52)) * 2 = IZR r)%R as Hcarry
      by (rewrite Er, <- mult_IZR; reflexivity).
    replace (IZR (Zpos (2 ^ 52)) * (bpow (e + (d - 53)) * 2))%R
      with (IZR r * bpow (e + (d - 53)))%R by (rewrite <- Hcarry; ring).
    rewrite <- Rmult_minus_distr_r, Rabs_mult, (Rabs_pos_eq (bpow _))
      by (left; apply bpow_pos).
    replace (d + e - 54) with (-1 + (e + (d - 53))) by lia.
    rewrite (bpow_add (-1)), bpow_m1.
    apply Rmult_le_compat_r; [left; apply bpow_pos | exact Herr].
  - destruct r as [|rp|rp] eqn:Hrp; try lia.
    rewrite shr_fexp_exact_small by lia. cbn [shr_m].
    assert ((e + (d - 53) <=? 1024 - 53) = true) as -> by (apply Z.leb_le; lia).
    exists rp, (e + (d - 53)).
    split; [reflexivity|]. split; [lia|]. split; [lia|].
    rewrite Hxe.
    rewrite <- Rmult_minus_distr_r, Rabs_mult, (Rabs_pos_eq (bpow _))
      by (left; apply bpow_pos).
    replace (d + e - 54) with (-1 + (e + (d - 53))) by lia.
    rewrite (bpow_add (-1)), bpow_m1.
    apply Rmult_le_compat_r; [left; apply bpow_pos | exact Herr].
Qed.

Lemma digits_range (m : positive) (lo hi : Z) :
  0 <= lo -> 2 ^ lo <= Zpos m < 2 ^ hi ->
  lo < Zpos (digits2_pos m) <= hi.
Proof.
  intros Hlo [H1 H2]. pose proof (digits_bounds m) as [Dlo Dhi].
  set (d := Zpos (digits2_pos m)) in *. split.
  - destruct (Z_lt_le_dec lo d); [assumption|].
    assert (2 ^ d <= 2 ^ lo) by (apply Z.pow_le_mono_r; lia). lia.
  - destruct (Z_le_gt_dec d hi); [assumption|].
    assert (0 <= hi).
    { destruct (Z_le_gt_dec 0 hi); [assumption|].
      rewrite Z.pow_neg_r in H2 by lia. lia. }
    assert (2 ^ hi <= 2 ^ (d - 1)) by (apply Z.pow_le_mono_r; lia). lia.
Qed.

(** The same, with the error relative to the exact value. *)
Lemma binary_round_aux_rel (m : positive) (e : Z) (l : location) (x : R) :
  let d := Zpos (digits2_pos m) in
  53 <= d -> -1021 <= d + e <= 1000 ->
  locInv x (shr_record_of_loc (Zpos m) l) ->
  exists m' e',
    binary_round_aux 53 1024 false (Zpos m) e l = S754_finite false m' e' /\
    2 ^ 52 <= Zpos m' < 2 ^ 53 /\
    d + e - 53 <= e' <= d + e - 52 /\
    (Rabs (IZR (Zpos m') * bpow e' - x * bpow e) <= bpow (-53) * (x * bpow e))%R.
Proof.
  intros d Hd He Hx.
  destruct (binary_round_aux_correct m e l x Hd He Hx) as (m' & e' & H1 & H2 & H3 & H4).
  exists m', e'. repeat (split; [assumption|]).
  eapply Rle_trans; [exact H4|].
  pose proof (digits_bounds m) as [Dlo _]. fold d in Dlo.
  pose proof (locInv_bounds _ _ Hx) as Hxb. rewrite shr_record_of_loc_m in Hxb.
  assert (bpow (d - 1) <= x)%R.
  { rewrite <- IZR_pow2 by lia. apply IZR_le in Dlo. lra. }
  fold d. replace (d + e - 54) with (-53 + ((d - 1) + e)) by lia.
  rewrite (bpow_add (-53)), (bpow_add (d - 1)). pose proof (bpow_pos (-53)). pose proof (bpow_pos e).
  apply Rmult_le_compat_l; [lra|]. apply Rmult_le_compat_r; lra.
Qed.

Lemma binary_round_aux_canonical (m : positive) (e : Z) :
  2 ^ 52 <= Zpos m < 2 ^ 53 -> -1074 <= e <= 971 ->
  binary_round_aux 53 1024 false (Zpos m) e loc_Exact = S754_finite false m e.
Proof.
  intros Hm He. unfold binary_round_aux.
  rewrite shr_fexp_exact_small by lia. cbn [shr_m loc_of_shr_record round_nearest_even].
  rewrite shr_fexp_exact_small by lia. cbn [shr_m].
  assert ((e <=? 1024 - 53) = true) as -> by (apply Z.leb_le; lia).
  reflexivity.
Qed.

Lemma iter_xO (p k : positive) : Zpos (Pos.iter xO p k) = Zpos p * 2 ^ Zpos k.
Proof.
  induction k as [|k IH] using Pos.peano_ind.
  - simpl. lia.
  - rewrite Pos.iter_succ, Pos2Z.inj_xO, IH, Pos2Z.inj_succ, Z.pow_succ_r by lia.
    ring.
Qed.

(** Integer to number, below [2^53]: exact. *)
Lemma of_Z_normal (n : Z) :
  0 < n < 2 ^ 53 ->
  exists m e,
    binary_normalize 53 1024 n 0 false = S754_finite false m e /\
    2 ^ 52 <= Zpos m < 2 ^ 53 /\ -52 <= e <= 0 /\
    Zpos m = n * 2 ^ (- e).
Proof.
  intros Hn. destruct n as [|p|p]; try lia.
  unfold binary_normalize, binary_round.
  pose proof (digits_bounds p) as [Dlo Dhi].
  assert (0 < Zpos (digits2_pos p) <= 53) as Hd.
  { split; [lia|]. apply (digits_range p 0 53); lia. }
  set (d := Zpos (digits2_pos p)) in *.
  rewrite fexp_eq. replace (Z.max (d + 0 - 53) (-1074)) with (d - 53) by lia.
  unfold shl_align.
  destruct (d - 53 - 0) as [|k|k] eqn:Ek; try lia.
  - exists p, 0. rewrite binary_round_aux_canonical by (replace d with 53 in * by lia; lia).
    split; [reflexivity|]. replace d with 53 in * by lia. repeat split; lia.
  - assert (2 ^ Zpos k * 2 ^ (d - 1) = 2 ^ 52) as E1
      by (rewrite <- Z.pow_add_r by lia; f_equal; lia).
    assert (2 ^ Zpos k * 2 ^ d = 2 ^ 53) as E2
      by (rewrite <- Z.pow_add_r by lia; f_equal; lia).
    assert (0 < 2 ^ Zpos k) by (apply Z.pow_pos_nonneg; lia).
    assert (2 ^ 52 <= Zpos (Pos.iter xO p k) < 2 ^ 53) as Hm.
    { rewrite iter_xO. rewrite <- E1, <- E2. nia. }
    exists (Pos.iter xO p k), (d - 53).
    rewrite binary_round_aux_canonical by lia.
    split; [reflexivity|]. split; [exact Hm|]. split; [lia|].
    rewrite iter_xO. f_equal. f_equal. lia.
Qed.

(** ** Multiplication *)

Lemma SFmul_correct (mx my : positive) (ex ey : Z) :
  2 ^ 52 <= Zpos mx < 2 ^ 53 -> 2 ^ 52 <= Zpos my < 2 ^ 53 ->
  -1000 <= ex + ey <= 800 ->
  exists m' e',
    SFmul 53 1024 (S754_finite false mx ex) (S754_finite false my ey)
      = S754_finite false m' e' /\
    2 ^ 52 <= Zpos m' < 2 ^ 53 /\
    ex + ey + 52 <= e' <= ex + ey + 54 /\
    (Rabs (IZR (Zpos m') * bpow e' -
           IZR (Zpos mx) * bpow ex * (IZR (Zpos my) * bpow ey))
     <= bpow (-53) * (IZR (Zpos mx) * bpow ex * (IZR (Zpos my) * bpow ey)))%R.
Proof.
  intros Hx Hy He. cbn [SFmul xorb].
  assert (2 ^ 104 <= Zpos (mx * my) < 2 ^ 106) as Hm.
  { rewrite Pos2Z.inj_mul.
    change (2 ^ 104) with (2 ^ 52 * 2 ^ 52). change (2 ^ 106) with (2 ^ 53 * 2 ^ 53).
    nia. }
  pose proof (digits_range (mx * my) 104 106 ltac:(lia) Hm) as Hd.
  destruct (binary_round_aux_rel (mx * my) (ex + ey) loc_Exact (IZR (Zpos (mx * my))))
    as (m' & e' & H1 & H2 & H3 & H4); [lia | lia | split; [apply Pos2Z.is_nonneg | reflexivity] |].
  exists m', e'. split; [exact H1|]. split; [exact H2|]. split; [lia|].
  replace (IZR (Zpos mx) * bpow ex * (IZR (Zpos my) * bpow ey))%R
    with (IZR (Zpos (mx * my)) * bpow (ex + ey))%R; [exact H4|].
  rewrite Pos2Z.inj_mul, mult_IZR, bpow_add. ring.
Qed.

(** ** Division *)

Lemma new_location_inv (q m2 r : Z) (x : R) :
  0 <= q -> 0 <= r < m2 ->
  ((x - IZR q) * IZR m2 = IZR r)%R ->
  locInv x (shr_record_of_loc q (new_location m2 r)).
Proof.
  intros Hq Hr Hx.
  assert (0 < IZR m2)%R as Hm2 by (apply IZR_lt; lia).
  assert (forall a b : R, a * IZR m2 < b * IZR m2 -> a < b)%R as Hlt
    by (intros a b; apply Rmult_lt_reg_r; exact Hm2).
  assert (forall k : Z, (2 * IZR r < IZR k)%R <-> 2 * r < k) as Hk.
  { intros k. rewrite <- mult_IZR. split; [apply lt_IZR | apply IZR_lt]. }
  assert (r <> 0 -> (IZR q < x)%R) as Hpos.
  { intros Hr0. apply Hlt. assert (0 < IZR r)%R by (apply IZR_lt; lia). lra. }
  assert (2 * r < m2 -> (x < IZR q + / 2)%R) as Hlo.
  { intros H. apply Hk in H. apply Hlt. lra. }
  assert (m2 < 2 * r -> (IZR q + / 2 < x)%R) as Hhi.
  { intros H. apply Hlt. assert (IZR m2 < 2 * IZR r)%R.
    { rewrite <- mult_IZR. apply IZR_lt. lia. } lra. }
  assert (x < IZR q + 1)%R as Hup.
  { apply Hlt. assert (IZR r < IZR m2)%R by (apply IZR_lt; lia). lra. }
  assert (0 <= shr_m (shr_record_of_loc q (new_location m2 r))) as Hnn
    by (rewrite shr_record_of_loc_m; exact Hq).
  split; [exact Hnn|]. clear Hnn.
  unfold new_location.
  destruct (Z.eq_dec r 0) as [->|Hr0].
  - assert (x = IZR q) as ->.
    { apply Rplus_eq_reg_r with (- IZR q)%R.
      apply Rmult_eq_reg_r with (IZR m2); [|lra]. unfold Rminus in Hx. lra. }
    destruct (Z.even m2); reflexivity.
  - specialize (Hpos Hr0).
    destruct (Z.even m2) eqn:Ev.
    + unfold new_location_even. rewrite (proj2 (Z.eqb_neq r 0) Hr0).
      destruct (Z.compare_spec (2 * r) m2) as [E|L|G]; cbn.
      * apply Rmult_eq_reg_r with (IZR m2); [|lra].
        assert (2 * IZR r = IZR m2)%R by (rewrite <- mult_IZR; now f_equal). lra.
      * split; [assumption | now apply Hlo].
      * split; [now apply Hhi | assumption].
    + unfold new_location_odd. rewrite (proj2 (Z.eqb_neq r 0) Hr0).
      destruct (Z.compare_spec (2 * r + 1) m2) as [E|L|G]; cbn.
      * split; [assumption | apply Hlo; lia].
      * split; [assumption | apply Hlo; lia].
      * split; [apply Hhi | assumption].
        assert (m2 <> 2 * r); [|lia].
        intros ->. rewrite Z.even_mul in Ev. discriminate.
Qed.

Lemma SFdiv_correct (mx my : positive) (ex ey : Z) :
  2 ^ 52 <= Zpos mx < 2 ^ 53 -> 2 ^ 52 <= Zpos my < 2 ^ 53 ->
  -900 <= ex - ey <= 900 ->
  exists m' e',
    SFdiv 53 1024 (S754_finite false mx ex) (S754_finite false my ey)
      = S754_finite false m' e' /\
    2 ^ 52 <= Zpos m' < 2 ^ 53 /\
    ex - ey - 53 <= e' <= ex - ey - 51 /\
    (Rabs (IZR (Zpos m') * bpow e' -
           IZR (Zpos mx) * bpow ex / (IZR (Zpos my) * bpow ey))
     <= bpow (-53) * (IZR (Zpos mx) * bpow ex / (IZR (Zpos my) * bpow ey)))%R.
Proof.
  intros Hx Hy He. cbn [SFdiv xorb]. unfold SFdiv_core_binary. cbn [Zdigits2].
  rewrite (digits_unique mx 53), (digits_unique my 53) by assumption.
  rewrite fexp_eq.
  replace (Z.min (Z.max (53 + ex - (53 + ey) - 53) (-1074)) (ex - ey))
    with (ex - ey - 53) by lia.
  replace (ex - ey - (ex - ey - 53)) with 53 by lia.
  change (match 53 with Z0 => Zpos mx | Zpos _ => Z.shiftl (Zpos mx) 53 | Zneg _ => 0 end)
    with (Z.shiftl (Zpos mx) 53).
  rewrite Z.shiftl_mul_pow2 by lia.
  pose proof (Z_div_mod (Zpos mx * 2 ^ 53) (Zpos my) ltac:(lia)) as Hdm.
  destruct (Z.div_eucl (Zpos mx * 2 ^ 53) (Zpos my)) as [q r].
  destruct Hdm as [Hq Hr].
  assert (2 ^ 52 <= q < 2 ^ 54) as Hqb.
  { change (2 ^ 54) with (2 * 2 ^ 53). nia. }
  destruct q as [|qp|qp]; try lia.
  pose proof (digits_range qp 52 54 ltac:(lia) Hqb) as Hd.
  assert (0 < IZR (Zpos my))%R as Hmy by (apply IZR_lt; lia).
  set (x := (IZR (Zpos mx * 2 ^ 53) / IZR (Zpos my))%R).
  assert ((x - IZR (Zpos qp)) * IZR (Zpos my) = IZR r)%R as Hxq.
  { unfold x. rewrite Hq, plus_IZR, mult_IZR. field. lra. }
  destruct (binary_round_aux_rel qp (ex - ey - 53) (new_location (Zpos my) r) x)
    as (m' & e' & H1 & H2 & H3 & H4); [lia | lia | |].
  { apply new_location_inv; [lia | lia | exact Hxq]. }
  exists m', e'. split; [exact H1|]. split; [exact H2|]. split; [lia|].
  replace (IZR (Zpos mx) * bpow ex / (IZR (Zpos my) * bpow ey))%R
    with (x * bpow (ex - ey - 53))%R; [exact H4|].
  unfold x. rewrite mult_IZR, IZR_pow2 by lia.
  replace (ex - ey - 53) with (ex + (- ey + -53)) by lia.
  rewrite !bpow_add, !bpow_opp.
  change (-53) with (Z.opp 53). rewrite (bpow_opp 53).
  pose proof (bpow_pos ey). pose proof (bpow_pos 53).
  field. lra.
Qed.

Lemma of_Z_value (n : Z) (m : positive) (e : Z) :
  -52 <= e <= 0 -> Zpos m = n * 2 ^ (- e) ->
  (IZR (Zpos m) * bpow e)%R = IZR n.
Proof.
  intros He ->. rewrite mult_IZR, IZR_pow2, Rmult_assoc, <- bpow_add by lia.
  replace (- e + e) with 0 by lia. rewrite bpow_0. ring.
Qed.

Lemma round_normal (m : positive) (e : Z) :
  e < 0 ->
  Number.round (S754_finite false m e) =
  Number.of_Z ((2 * Zpos m + 2 ^ (- e)) / 2 ^ (1 - e)).
Proof.
  intros He. unfold Number.round.
  destruct (Z.leb_spec 0 e); [lia|]. cbn [cond_Zopp].
  destruct (Z.eqb_spec ((2 * Zpos m + 2 ^ (- e)) / 2 ^ (1 - e)) 0) as [->|]; reflexivity.
Qed.

(** [Math.round] is the floor of [x + 1/2]. *)
Lemma round_floor (m : positive) (e N : Z) :
  e < 0 ->
  (IZR N - / 2 <= IZR (Zpos m) * bpow e < IZR N + / 2)%R ->
  (2 * Zpos m + 2 ^ (- e)) / 2 ^ (1 - e) = N.
Proof.
  intros He [Hlo Hhi]. symmetry.
  assert (0 < 2 ^ (- e)) as Hp by (apply Z.pow_pos_nonneg; lia).
  assert (2 ^ (1 - e) = 2 * 2 ^ (- e)) as ->.
  { replace (1 - e) with (Z.succ (- e)) by lia. apply Z.pow_succ_r. lia. }
  assert (IZR (Zpos m) = IZR (Zpos m) * bpow e * IZR (2 ^ (- e)))%R as Hm.
  { rewrite IZR_pow2, Rmult_assoc, <- bpow_add by lia.
    replace (e + - e) with 0 by lia. rewrite bpow_0. ring. }
  assert (0 < IZR (2 ^ (- e)))%R as Hpr by (apply IZR_lt; lia).
  apply Z.div_unique with (2 * Zpos m + 2 ^ (- e) - 2 * 2 ^ (- e) * N); [|ring].
  left. split.
  - assert (2 * 2 ^ (- e) * N <= 2 * Zpos m + 2 ^ (- e)); [|lia].
    apply le_IZR. rewrite plus_IZR, !mult_IZR. rewrite Hm. nra.
  - assert (2 * Zpos m + 2 ^ (- e) < 2 * 2 ^ (- e) * N + 2 * 2 ^ (- e)); [|lia].
    apply lt_IZR. rewrite !plus_IZR, !mult_IZR. rewrite Hm. nra.
Qed.

Lemma one_leb_normal (m : positive) (e : Z) :
  2 ^ 52 <= Zpos m < 2 ^ 53 -> -52 <= e ->
  Number.leb (Number.of_Z 1) (S754_finite false m e) = true.
Proof.
  intros Hm He.
  change (Number.of_Z 1) with (S754_finite false (2 ^ 52) (-52)).
  unfold Number.leb, SFleb, SFcompare.
  destruct (Z.compare_spec (-52) e) as [E|L|G]; try reflexivity; [|lia].
  change (Pos.compare_cont Eq (2 ^ 52) m) with (Pos.compare (2 ^ 52) m).
  rewrite Pos2Z.inj_compare.
  destruct (Z.compare_spec (Zpos (2 ^ 52)) (Zpos m)) as [E'|L'|G']; try reflexivity.
  change (Zpos (2 ^ 52)) with (2 ^ 52) in G'. lia.
Qed.

Lemma one_leb_of_Z (n : Z) :
  1 <= n < 2 ^ 53 -> Number.leb (Number.of_Z 1) (Number.of_Z n) = true.
Proof.
  intros Hn. destruct (of_Z_normal n ltac:(lia)) as (m & e & E & Hm & He & _).
  unfold Number.of_Z, Number.prec, Number.emax. rewrite E.
  apply one_leb_normal; [assumption | lia].
Qed.

Lemma Rabs_le_inv (x a : R) : (Rabs x <= a)%R -> (- a <= x <= a)%R.
Proof. unfold Rabs. destruct (Rcase_abs x); lra. Qed.

Lemma bpow_m53 : bpow (-53) = (/ 9007199254740992)%R.
Proof.
  change (-53) with (Z.opp 53). rewrite bpow_opp, <- IZR_pow2 by lia.
  reflexivity.
Qed.

(** [Math.round(a * (b / c))] on integers: the exactly rounded quotient,
    unless [a*b/c] lies exactly halfway between two integers, where it may
    be the integer below. *)
Lemma scaled_round (a b c : Z) :
  0 < a < 2 ^ 53 -> 0 < b < 2 ^ 53 -> 0 < c < 2 ^ 53 -> a * b < 2 ^ 50 ->
  let N := (2 * (a * b) + c) / (2 * c) in
  exists n,
    Number.round (Number.mul (Number.of_Z a)
                    (Number.div (Number.of_Z b) (Number.of_Z c))) = Number.of_Z n /\
    0 <= n /\ N - 1 <= n <= N /\
    ((2 * (a * b)) mod (2 * c) <> c -> n = N).
Proof.
  intros Ha Hb Hc Hab N.
  destruct (of_Z_normal a Ha) as (ma & ea & Ea & Hma & Hea & Va).
  destruct (of_Z_normal b Hb) as (mb & eb & Eb & Hmb & Heb & Vb).
  destruct (of_Z_normal c Hc) as (mc & ec & Ec & Hmc & Hec & Vc).
  apply of_Z_value in Va, Vb, Vc; try assumption.
  unfold Number.mul, Number.div, Number.of_Z at 1 2 3, Number.prec, Number.emax.
  rewrite Ea, Eb, Ec.
  destruct (SFdiv_correct mb mc eb ec Hmb Hmc ltac:(lia))
    as (mr & er & Er & Hmr & Her & Herr).
  rewrite Er. rewrite Vb, Vc in Herr.
  destruct (SFmul_correct ma mr ea er Hma Hmr ltac:(lia))
    as (mp & ep & Ep & Hmp & Hep & Herrp).
  rewrite Ep. rewrite Va in Herrp.
  set (P := (IZR (Zpos mp) * bpow ep)%R) in *.
  set (Q := (IZR (Zpos mr) * bpow er)%R) in *.
  apply Rabs_le_inv in Herr, Herrp. rewrite bpow_m53 in Herr, Herrp.
  assert (1 <= IZR a)%R as Ha1 by (apply IZR_le; lia).
  assert (1 <= IZR b)%R as Hb1 by (apply IZR_le; lia).
  assert (1 <= IZR c)%R as Hc1 by (apply IZR_le; lia).
  assert (IZR a * IZR b <= 1125899906842623)%R as Hab1.
  { rewrite <- mult_IZR. apply IZR_le. change (2 ^ 50) with 1125899906842624 in Hab. lia. }
  set (B := (IZR b / IZR c)%R) in *.
  assert (B * IZR c = IZR b)%R as HB by (unfold B; field; lra).
  assert (0 < B)%R as HB0 by (unfold B; apply Rdiv_lt_0_compat; lra).
  (* the product is within 1/2 of a*b once scaled by c *)
  assert (- / 2 < P * IZR c - IZR a * IZR b < / 2)%R as Hclose.
  { assert (IZR a * B * IZR c = IZR a * IZR b)%R as HX by (rewrite <- HB; ring).
    assert (0 < Q)%R by nra.
    assert (Q * IZR c <= (1 + / 9007199254740992) * IZR b)%R by nra.
    assert ((1 - / 9007199254740992) * IZR b <= Q * IZR c)%R by nra.
    assert (P * IZR c <= (1 + / 9007199254740992) * (IZR a * (Q * IZR c)))%R by nra.
    assert ((1 - / 9007199254740992) * (IZR a * (Q * IZR c)) <= P * IZR c)%R by nra.
    split; nra. }
  (* the exactly rounded quotient *)
  assert (2 * c * N <= 2 * (a * b) + c < 2 * c * N + 2 * c) as HN.
  { unfold N. pose proof (Z.mul_div_le (2 * (a * b) + c) (2 * c) ltac:(lia)).
    pose proof (Z.mul_succ_div_gt (2 * (a * b) + c) (2 * c) ltac:(lia)). lia. }
  assert (forall k : Z, k <= 2 * (a * b) -> (IZR k <= 2 * (IZR a * IZR b))%R) as Hle.
  { intros k Hk. apply IZR_le in Hk. rewrite !mult_IZR in Hk. exact Hk. }
  assert (forall k : Z, 2 * (a * b) <= k -> (2 * (IZR a * IZR b) <= IZR k)%R) as Hge.
  { intros k Hk. apply IZR_le in Hk. rewrite !mult_IZR in Hk. exact Hk. }
  assert (forall u v : R, u * IZR c < v * IZR c -> u < v)%R as Hreg
    by (intros u v; apply Rmult_lt_reg_r; lra).
  assert (P < IZR N + / 2)%R as Hup.
  { apply Hreg. pose proof (Hge (2 * c * N + c - 1) ltac:(lia)) as H.
    rewrite minus_IZR, plus_IZR, !mult_IZR in H. lra. }
  assert (IZR N - 1 < P)%R as Hlow.
  { apply Hreg. pose proof (Hle (2 * c * N - c) ltac:(lia)) as H.
    rewrite minus_IZR, !mult_IZR in H. lra. }
  assert (ep < 0) as Hep0.
  { destruct (Z_lt_le_dec ep 0) as [|Hge0]; [assumption|exfalso].
    assert (1 <= bpow ep)%R by (rewrite <- bpow_0; now apply bpow_le).
    assert (IZR (2 ^ 52) <= IZR (Zpos mp))%R as Hmpr by (apply IZR_le; lia).
    change (IZR (2 ^ 52)) with 4503599627370496%R in Hmpr.
    assert (4503599627370496 <= P)%R by (unfold P; nra).
    assert (P <= P * IZR c)%R by nra. lra. }
  rewrite round_normal by assumption.
  destruct (Rle_lt_dec (IZR N - / 2) P) as [Hmid|Hmid].
  - exists N. split; [|split; [|split; [lia | reflexivity]]].
    + f_equal. apply round_floor; [assumption|]. fold P. lra.
    + unfold N. apply Z.div_pos; nia.
  - assert (0 < P)%R as HP0.
    { unfold P. apply Rmult_lt_0_compat; [apply IZR_lt; lia | apply bpow_pos]. }
    assert (0 < N) as HN0 by (apply lt_IZR; lra).
    exists (N - 1). split; [|split; [lia|split; [lia|]]].
    + f_equal. apply round_floor; [assumption|]. fold P.
      rewrite minus_IZR. lra.
    + intros Hnt. exfalso.
      assert (2 * (a * b) <> 2 * c * N - c) as Hne.
      { intros E. apply Hnt. rewrite E.
        replace (2 * c * N - c) with (c + (N - 1) * (2 * c)) by ring.
        rewrite Z.mod_add by lia. apply Z.mod_small. lia. }
      pose proof (Hle (2 * c * N - c + 1) ltac:(lia)) as H.
      rewrite plus_IZR, minus_IZR, !mult_IZR in H.
      assert (P * IZR c < (IZR N - / 2) * IZR c)%R by (apply Rmult_lt_compat_r; lra).
      lra.
Qed.

(** The same when the scale is zero: the result is zero. *)
Lemma scaled_round_nonneg (a b c : Z) :
  0 <= a < 2 ^ 53 -> 0 <= b < 2 ^ 53 -> 0 < c < 2 ^ 53 -> a * b < 2 ^ 50 ->
  let N := (2 * (a * b) + c) / (2 * c) in
  exists n,
    Number.round (Number.mul (Number.of_Z a)
                    (Number.div (Number.of_Z b) (Number.of_Z c))) = Number.of_Z n /\
    0 <= n /\ N - 1 <= n <= N /\
    ((2 * (a * b)) mod (2 * c) <> c -> n = N).
Proof.
  intros Ha Hb Hc Hab N.
  destruct (Z.eq_dec a 0) as [->|Ha0]; [|destruct (Z.eq_dec b 0) as [->|Hb0]].
  - assert (N = 0) as HN.
    { unfold N. replace (2 * (0 * b) + c) with c by ring. apply Z.div_small. lia. }
    exists 0. rewrite HN. split; [|lia].
    destruct (of_Z_normal c Hc) as (mc & ec & Ec & Hmc & Hec & _).
    unfold Number.div, Number.of_Z at 2 3, Number.prec, Number.emax. rewrite Ec.
    destruct (Z.eq_dec b 0) as [->|Hb0]; [reflexivity|].
    destruct (of_Z_normal b ltac:(lia)) as (mb & eb & Eb & Hmb & Heb & _).
    rewrite Eb.
    destruct (SFdiv_correct mb mc eb ec Hmb Hmc ltac:(lia)) as (mr & er & -> & _).
    reflexivity.
  - assert (N = 0) as HN.
    { unfold N. replace (2 * (a * 0) + c) with c by ring. apply Z.div_small. lia. }
    exists 0. rewrite HN. split; [|lia].
    destruct (of_Z_normal a ltac:(lia)) as (ma & ea & Ea & _).
    destruct (of_Z_normal c Hc) as (mc & ec & Ec & _).
    unfold Number.mul, Number.div, Number.of_Z at 1 3, Number.prec, Number.emax.
    rewrite Ea, Ec. reflexivity.
  - apply scaled_round; lia.
Qed.

Lemma roundHalfAway_nonneg (n d : Z) :
  0 <= n -> 0 < d -> roundHalfAway n d = (2 * n + d) / (2 * d).
Proof.
  intros Hn Hd. unfold roundHalfAway.
  destruct (Z.eq_dec n 0) as [->|Hn0].
  - change (Z.sgn 0) with 0. rewrite Z.mul_0_l. symmetry. apply Z.div_small. lia.
  - rewrite Z.sgn_pos, Z.abs_eq by lia. ring.
Qed.

(** The rounded quotient is at least one as soon as twice the numerator
    exceeds the denominator, also when the tie falls to the integer below. *)
Lemma rounded_ge_one (n d k : Z) :
  0 <= n -> 0 < d -> d < 2 * n ->
  roundHalfAway n d - 1 <= k <= roundHalfAway n d ->
  (~ halfway n d -> k = roundHalfAway n d) ->
  1 <= k <= n.
Proof.
  intros Hn Hd Hlt Hk Hnt. rewrite roundHalfAway_nonneg in * by assumption.
  pose proof (Z.mul_div_le (2 * n + d) (2 * d) ltac:(lia)) as Hlo.
  pose proof (Z.mul_succ_div_gt (2 * n + d) (2 * d) ltac:(lia)) as Hhi.
  set (N := (2 * n + d) / (2 * d)) in *.
  assert (1 <= N) by nia. assert (N <= n) by nia.
  split; [|lia].
  destruct (Z.eq_dec k N) as [->|Hne]; [assumption|].
  assert (halfway n d) as Hh.
  { destruct (Z.eq_dec ((2 * n) mod (2 * d)) d) as [E|E]; [exact E|].
    elim Hne. now apply Hnt. }
  unfold halfway in Hh.
  pose proof (Z.div_mod (2 * n) (2 * d) ltac:(lia)) as Hdm. rewrite Hh in Hdm.
  assert (1 <= 2 * n / (2 * d)) by nia.
  assert (N = 2 * n / (2 * d) + 1); [|lia].
  unfold N. rewrite Hdm at 1.
  replace (2 * d * (2 * n / (2 * d)) + d + d) with ((2 * n / (2 * d) + 1) * (2 * d))
    by ring.
  apply Z.div_mul. lia.
Qed.

(** [Math.round(a * (b / c))] against the exactly rounded [a*b/c]. *)
Lemma round_scaled (a b c : Z) :
  0 <= a < 2 ^ 53 -> 0 <= b < 2 ^ 53 -> 0 < c < 2 ^ 53 -> a * b < 2 ^ 50 ->
  exists n,
    Number.round (Number.mul (Number.of_Z a)
                    (Number.div (Number.of_Z b) (Number.of_Z c))) = Number.of_Z n /\
    0 <= n /\
    roundHalfAway (a * b) c - 1 <= n <= roundHalfAway (a * b) c /\
    (~ halfway (a * b) c -> n = roundHalfAway (a * b) c).
Proof.
  intros Ha Hb Hc Hab.
  rewrite roundHalfAway_nonneg by nia.
  exact (scaled_round_nonneg a b c Ha Hb Hc Hab).
Qed.

Lemma atLeastOnePixel_of_Z (w h : Z) :
  1 <= w < 2 ^ 53 -> 1 <= h < 2 ^ 53 ->
  atLeastOnePixel (Number.of_Z w, Number.of_Z h).
Proof.
  intros Hw Hh. split; apply one_leb_of_Z; assumption.
Qed.

(** * The pipeline and the controller *)

(** ** The pipeline always hands back a result *)

Section Pipeline.

Variable env : Env.
Variable item : ImageItem.
Variable options : ProcessingOptions.

Lemma or_else_nonempty (s : string) :
  or_else s "Processing failed" <> ""%string.
Proof.
  unfold or_else, truthy.
  destruct (String.eqb s "") eqn:E; simpl.
  - discriminate.
  - intros ->. rewrite String.eqb_refl in E. discriminate.
Qed.

Lemma processFile_catch_result (err : Thrown) :
  exists r, processFile_catch err = Returned r /\ pipelineResult r.
Proof.
  eexists; split; [reflexivity|].
  right. eexists; split; [apply or_else_nonempty | reflexivity].
Qed.

Lemma processFile_try_result (r : PartialItem) :
  processFile_try env item options = Returned r ->
  exists url fmt size w h, r = completedResult url fmt size w h.
Proof.
  unfold processFile_try, bind.
  destruct (env_loadImage env (previewUrl item)) as [img|]; [|discriminate].
  destruct (targetDimensions img options) as [w h].
  destruct (env_getContext env w h) as [[|]|]; simpl; try discriminate.
  destruct (env_drawImage env img w h); [|discriminate].
  destruct (env_toBlob env img w h (format options) (quality options))
    as [[blob|]|]; try discriminate.
  intros [= <-]. now repeat eexists.
Qed.

Lemma processFile_returns :
  exists r, processFile env item options = Returned r /\ pipelineResult r.
Proof.
  unfold processFile.
  destruct (processFile_try env item options) as [r|err] eqn:E; simpl.
  - exists r; split; [reflexivity|]. left. now apply processFile_try_result.
  - apply processFile_catch_result.
Qed.

Lemma awaitProcessFile_returns :
  exists r, awaitProcessFile env item options = Returned r /\ pipelineResult r.
Proof.
  unfold awaitProcessFile.
  destruct processFile_returns as (r & -> & Hr). now exists r.
Qed.

Lemma awaitProcessFile_processFile :
  awaitProcessFile env item options = processFile env item options.
Proof.
  unfold awaitProcessFile.
  now destruct processFile_returns as (r & -> & _).
Qed.

End Pipeline.

(** One turn of the loop: name the result the awaited [processFile] hands
    back. *)
Ltac await_result env item options r Hr :=
  destruct (awaitProcessFile_returns env item options) as (r & -> & Hr); simpl.

(** ** The collection under the controller's updaters *)

Lemma files_revokeIfSet (u : option string) (st : AppState) :
  files (revokeIfSet u st) = files st.
Proof.
  destruct u as [u|]; simpl; [|reflexivity]. now destruct (truthy u).
Qed.

Lemma files_revokeItem (f : ImageItem) (st : AppState) :
  files (revokeItem f st) = files st.
Proof. unfold revokeItem. now rewrite files_revokeIfSet. Qed.

Lemma files_fold_revoke {A} (g : AppState -> A -> AppState) (l : list A) :
  (forall s a, files (g s a) = files s) ->
  forall st, files (fold_left g l st) = files st.
Proof.
  intros Hg. induction l as [|a l IH]; intros st; simpl; [reflexivity|].
  now rewrite IH, Hg.
Qed.

Lemma files_handleRemoveFile (i : string) (st : AppState) :
  files (handleRemoveFile i st) =
  filter (fun f => negb (String.eqb (id f) i)) (files st).
Proof.
  unfold handleRemoveFile. simpl.
  destruct (find _ (files st)); [now rewrite files_revokeItem | reflexivity].
Qed.

Lemma files_mergeResult (item : ImageItem) (result : PartialItem) (st : AppState) :
  files (mergeResult item result st) =
  if existsb (fun f => String.eqb (id f) (id item)) (files st)
  then map (fun f => if String.eqb (id f) (id item) then spread f result else f)
           (files st)
  else files st.
Proof.
  unfold mergeResult.
  destruct (existsb _ (files st)); simpl.
  - f_equal. apply files_fold_revoke. intros s a.
    destruct (String.eqb (id a) (id item)); [|reflexivity].
    destruct (processedUrl a) as [u|]; [|reflexivity].
    now destruct (truthy u && _).
  - apply files_revokeIfSet.
Qed.

Lemma existsb_id_false (i : string) (l : list ImageItem) :
  existsb (fun f => String.eqb (id f) i) l = false <->
  forall f, In f l -> id f <> i.
Proof.
  split.
  - intros H f Hf E.
    assert (existsb (fun f => String.eqb (id f) i) l = true) as C.
    { apply existsb_exists. exists f. split; [assumption|]. now apply String.eqb_eq. }
    congruence.
  - intros H. destruct (existsb _ l) eqn:E; [|reflexivity].
    apply existsb_exists in E as (f & Hf & E). apply String.eqb_eq in E.
    now elim (H f Hf).
Qed.

(** ** The invariant on items *)

Lemma consistent_toProcessing (f : ImageItem) : consistent (toProcessing f).
Proof. reflexivity. Qed.

Lemma consistent_spread (f : ImageItem) (r : PartialItem) :
  pipelineResult r -> consistent (spread f r).
Proof.
  intros [(url & fmt & size & w & h & ->) | (msg & Hmsg & ->)];
    unfold consistent; simpl.
  - repeat split; discriminate.
  - now exists msg.
Qed.

Lemma consistent_newItem i f url size w h : consistent (newItem i f url size w h).
Proof. unfold consistent; simpl. now repeat split. Qed.

Lemma Forall_consistent_markProcessing (item : ImageItem) (l : list ImageItem) :
  Forall consistent l -> Forall consistent (markProcessing item l).
Proof.
  unfold markProcessing. induction 1 as [|a l Ha Hl IH]; simpl; constructor; auto.
  destruct (String.eqb (id a) (id item)); [apply consistent_toProcessing | assumption].
Qed.

Lemma Forall_consistent_applyEvent (ev : Event) (st : AppState) :
  eventOk ev -> Forall consistent (files st) ->
  Forall consistent (files (applyEvent st ev)).
Proof.
  destruct ev as [i|snapshot|it]; intros Hev H; cbn [applyEvent]; simpl in Hev.
  - rewrite files_handleRemoveFile.
    apply Forall_forall. intros f Hf. apply filter_In in Hf as [Hf _].
    revert f Hf. now apply Forall_forall.
  - simpl. constructor.
  - simpl. apply Forall_app. split; [assumption|]. now constructor.
Qed.

Lemma Forall_consistent_events (evs : list Event) :
  Forall eventOk evs ->
  forall st, Forall consistent (files st) ->
  Forall consistent (files (fold_left applyEvent evs st)).
Proof.
  induction 1 as [|ev evs Hev _ IH]; intros st H; simpl; [assumption|].
  apply IH. now apply Forall_consistent_applyEvent.
Qed.

Lemma Forall_consistent_mergeResult (item : ImageItem) (r : PartialItem)
    (st : AppState) :
  pipelineResult r -> Forall consistent (files st) ->
  Forall consistent (files (mergeResult item r st)).
Proof.
  intros Hr H. rewrite files_mergeResult.
  destruct (existsb _ (files st)); [|assumption].
  induction H as [|a l Ha Hl IH]; simpl; constructor; auto.
  destruct (String.eqb (id a) (id item)); [now apply consistent_spread | assumption].
Qed.

Lemma processLoop_returns (env : Env) (options : ProcessingOptions)
    (items : list ImageItem) :
  forall schedule st, exists st', processLoop env options items schedule st = Returned st'.
Proof.
  induction items as [|item rest IH]; intros schedule st; simpl.
  - now exists st.
  - await_result env item options r Hr.
    apply IH.
Qed.

Lemma processLoop_consistent (env : Env) (options : ProcessingOptions)
    (items : list ImageItem) :
  forall schedule st st',
    Forall (Forall eventOk) schedule ->
    Forall consistent (files st) ->
    processLoop env options items schedule st = Returned st' ->
    Forall consistent (files st').
Proof.
  induction items as [|item rest IH]; intros schedule st st' Hs H; simpl.
  - now intros [= <-].
  - await_result env item options r Hr.
    apply IH.
    + destruct Hs; simpl; [constructor | assumption].
    + apply Forall_consistent_mergeResult; [assumption|].
      apply Forall_consistent_events.
      * destruct Hs; simpl; [constructor | assumption].
      * simpl. now apply Forall_consistent_markProcessing.
Qed.

(** ** Entries the loop does not touch *)

Lemma spread_id (f : ImageItem) (r : PartialItem) :
  pipelineResult r -> id (spread f r) = id f.
Proof.
  now intros [(url & fmt & size & w & h & ->) | (msg & _ & ->)].
Qed.

Lemma spread_terminal (f : ImageItem) (r : PartialItem) :
  pipelineResult r -> terminal (status (spread f r)).
Proof.
  intros [(url & fmt & size & w & h & ->) | (msg & _ & ->)]; [left | right];
    reflexivity.
Qed.

Lemma spread_failure_sameOriginal (f : ImageItem) (msg : string) :
  sameOriginal f (spread f (failureResult msg)).
Proof. now repeat split. Qed.

Lemma nth_error_map_if (i : string) (g : ImageItem -> ImageItem)
    (l : list ImageItem) (n : nat) (f : ImageItem) :
  nth_error l n = Some f -> id f <> i ->
  nth_error (map (fun f => if String.eqb (id f) i then g f else f) l) n = Some f.
Proof.
  intros Hn Hi. rewrite nth_error_map, Hn. simpl.
  destruct (String.eqb (id f) i) eqn:E; [|reflexivity].
  apply String.eqb_eq in E. contradiction.
Qed.

Lemma nth_error_mergeResult (item : ImageItem) (r : PartialItem) (st : AppState)
    (n : nat) (f : ImageItem) :
  nth_error (files st) n = Some f -> id f <> id item ->
  nth_error (files (mergeResult item r st)) n = Some f.
Proof.
  intros Hn Hi. rewrite files_mergeResult.
  destruct (existsb _ (files st)); [now apply nth_error_map_if | assumption].
Qed.

Lemma processLoop_frame (env : Env) (options : ProcessingOptions)
    (items : list ImageItem) :
  forall st st' n f,
    processLoop env options items [] st = Returned st' ->
    nth_error (files st) n = Some f ->
    ~ In (id f) (map id items) ->
    nth_error (files st') n = Some f.
Proof.
  induction items as [|item rest IH]; intros st st' n f; simpl.
  - now intros [= <-].
  - await_result env item options r Hr.
    intros Hloop Hn Hid. eapply IH; [exact Hloop| |tauto].
    apply nth_error_mergeResult; [|intros E; apply Hid; now left].
    simpl. apply nth_error_map_if; [assumption|].
    intros E; apply Hid; now left.
Qed.

Lemma NoDup_id_inj (l : list ImageItem) :
  NoDup (map id l) ->
  forall f g, In f l -> In g l -> id f = id g -> f = g.
Proof.
  induction l as [|a l IH]; simpl; [contradiction|].
  intros Hnd f g Hf Hg E. inversion Hnd as [|? ? Ha Hl]; subst.
  destruct Hf as [<-|Hf], Hg as [<-|Hg]; auto.
  - elim Ha. rewrite E. now apply in_map.
  - elim Ha. rewrite <- E. now apply in_map.
Qed.

Lemma itemsToProcess_incl (fs : list ImageItem) (f : ImageItem) :
  In f (itemsToProcess fs) -> In f fs.
Proof.
  unfold itemsToProcess.
  destruct ((List.length (filter isCandidate fs) =? 0)%nat && _); [auto|].
  intros H. now apply filter_In in H.
Qed.

Lemma isCandidate_spec (f : ImageItem) :
  isCandidate f = true <-> status f = Idle \/ status f = Error.
Proof.
  unfold isCandidate. destruct (status f); split; auto; try discriminate;
    intros [H|H]; discriminate.
Qed.

Lemma in_files_mergeResult (item : ImageItem) (r : PartialItem) (st : AppState)
    (f' : ImageItem) :
  In f' (files (mergeResult item r st)) ->
  (exists g, In g (files st) /\ id g = id item /\ f' = spread g r) \/
  (In f' (files st) /\ id f' <> id item).
Proof.
  rewrite files_mergeResult.
  destruct (existsb _ (files st)) eqn:E.
  - intros H. apply in_map_iff in H as (g & <- & Hg).
    destruct (String.eqb (id g) (id item)) eqn:Eg.
    + left. exists g. apply String.eqb_eq in Eg. auto.
    + right. split; [assumption|]. now apply String.eqb_neq.
  - intros H. right. split; [assumption|].
    now apply (proj1 (existsb_id_false _ _) E).
Qed.

Lemma in_markProcessing (item : ImageItem) (l : list ImageItem) (f' : ImageItem) :
  In f' (markProcessing item l) ->
  id f' = id item \/ In f' l.
Proof.
  unfold markProcessing. intros H. apply in_map_iff in H as (g & <- & Hg).
  destruct (String.eqb (id g) (id item)) eqn:Eg; [|now right].
  left. now apply String.eqb_eq in Eg.
Qed.

Lemma processLoop_terminal (env : Env) (options : ProcessingOptions)
    (items : list ImageItem) :
  forall st st' f',
    processLoop env options items [] st = Returned st' ->
    In f' (files st') ->
    (In (id f') (map id items) -> terminal (status f')) /\
    (~ In (id f') (map id items) -> In f' (files st)).
Proof.
  induction items as [|item rest IH]; intros st st' f'; simpl.
  - intros [= <-] H. tauto.
  - await_result env item options r Hr.
    intros Hloop Hin. destruct (IH _ _ _ Hloop Hin) as [Ht Hf].
    destruct (in_dec string_dec (id f') (map id rest)) as [Hrest|Hrest].
    { split; [auto | tauto]. }
    specialize (Hf Hrest).
    apply in_files_mergeResult in Hf as [(g & Hg & Eg & ->) | [Hf Hne]].
    + split; [intros _; now apply spread_terminal|].
      intros C. elim C. left. now rewrite spread_id.
    + split; [intros [E|C]; [now elim Hne | contradiction]|].
      intros _. simpl in Hf. apply in_markProcessing in Hf as [E|Hf];
        [now elim Hne | assumption].
Qed.

(** The sizes at hand, next to what a double holds exactly. *)
Ltac size_bounds :=
  assert (2 ^ 32 < 2 ^ 53) by reflexivity;
  assert (2 ^ 18 < 2 ^ 53) by reflexivity;
  assert (2 ^ 32 * 2 ^ 18 = 2 ^ 50) by reflexivity;
  assert (2 ^ 50 < 2 ^ 53) by reflexivity.

(** ** C1: no dimension below one pixel? *)

(** C1, refuted as stated: nothing clamps.  A 4x4 image at 10 percent (a
    value the settings offer) resolves to 0x0, and a fixed width of 0
    resolves to a width of 0. *)
Lemma C1_counterexample :
  targetDimensions {| naturalWidth := 4; naturalHeight := 4 |}
    (mkOptions percentage (Number.of_Z 10) true) = (Number.of_Z 0, Number.of_Z 0) /\
  ~ atLeastOnePixel
      (targetDimensions {| naturalWidth := 4; naturalHeight := 4 |}
         (mkOptions percentage (Number.of_Z 10) true)) /\
  ~ atLeastOnePixel
      (targetDimensions {| naturalWidth := 1000; naturalHeight := 500 |}
         (mkOptions fixed_width (Number.of_Z 0) false)).
Proof.
  split; [reflexivity|].
  split; intros [H _]; vm_compute in H; discriminate.
Qed.

(** C1, amended.  For a decoded image of W x H pixels (W, H at least 1, and
    below 2^32 as DOM unsigned integers are) and an integer resizeValue
    v >= 1 (below 2^18), both target dimensions are at least one pixel
    whenever the scaled axis does not round to zero: always under
    'original' and under the fixed modes without aspect ratio; under
    'percentage' when W*v > 50 and H*v > 50; under 'fixed-width' with aspect
    ratio when 2*v*H > W; under 'fixed-height' with aspect ratio when
    2*v*W > H. *)
Theorem C1_dimensions_at_least_one (W H v : Z) (options : ProcessingOptions) :
  0 < W < 2 ^ 32 -> 0 < H < 2 ^ 32 -> 1 <= v < 2 ^ 18 ->
  resizeValue options = Number.of_Z v ->
  match resizeMode options with
  | original => True
  | percentage => 50 < W * v /\ 50 < H * v
  | fixed_width => maintainAspectRatio options = true -> W < 2 * (v * H)
  | fixed_height => maintainAspectRatio options = true -> H < 2 * (v * W)
  end ->
  atLeastOnePixel
    (targetDimensions {| naturalWidth := W; naturalHeight := H |} options).
Proof.
  intros HW HH Hv Ev Hmode.
  size_bounds.
  unfold targetDimensions. cbn [naturalWidth naturalHeight]. rewrite Ev.
  destruct (resizeMode options).
  - apply atLeastOnePixel_of_Z; lia.
  - destruct Hmode as [Hw Hh].
    destruct (round_scaled W v 100) as (w & -> & _ & Hwb & Hwt); try lia; [nia|].
    destruct (round_scaled H v 100) as (h & -> & _ & Hhb & Hht); try lia; [nia|].
    pose proof (rounded_ge_one (W * v) 100 w ltac:(nia) ltac:(lia) ltac:(lia) Hwb Hwt).
    pose proof (rounded_ge_one (H * v) 100 h ltac:(nia) ltac:(lia) ltac:(lia) Hhb Hht).
    apply atLeastOnePixel_of_Z; nia.
  - destruct (maintainAspectRatio options).
    + destruct (round_scaled v H W) as (h & -> & _ & Hhb & Hht); try lia; [nia|].
      pose proof (rounded_ge_one (v * H) W h ltac:(nia) ltac:(lia)
                    (Hmode eq_refl) Hhb Hht).
      apply atLeastOnePixel_of_Z; nia.
    + apply atLeastOnePixel_of_Z; lia.
  - destruct (maintainAspectRatio options).
    + destruct (round_scaled v W H) as (w & -> & _ & Hwb & Hwt); try lia; [nia|].
      pose proof (rounded_ge_one (v * W) H w ltac:(nia) ltac:(lia)
                    (Hmode eq_refl) Hwb Hwt).
      apply atLeastOnePixel_of_Z; nia.
    + apply atLeastOnePixel_of_Z; lia.
Qed.

Lemma C1_dimensions_at_least_one_witness :
  atLeastOnePixel
    (targetDimensions {| naturalWidth := 1000; naturalHeight := 500 |}
       (mkOptions percentage (Number.of_Z 10) true)).
Proof.
  apply (C1_dimensions_at_least_one 1000 500 10
           (mkOptions percentage (Number.of_Z 10) true));
    [split; reflexivity | split; reflexivity | split; [lia | reflexivity]
    | reflexivity | split; reflexivity].
Defined.

(** ** C6: percentage *)

(** C6, refuted as stated: 90 pixels at 35 percent are 31.5 pixels exactly,
    which rounds to 32; the code computes [Math.round(90 * 0.35)], where
    [0.35] is the double below 35/100 and the product the double below
    31.5, and gets 31. *)
Lemma C6_counterexample :
  targetDimensions {| naturalWidth := 90; naturalHeight := 50 |}
    (mkOptions percentage (Number.of_Z 35) true) = (Number.of_Z 31, Number.of_Z 18) /\
  roundHalfAway (90 * 35) 100 = 32 /\
  fst (targetDimensions {| naturalWidth := 90; naturalHeight := 50 |}
         (mkOptions percentage (Number.of_Z 35) true))
    <> Number.of_Z (roundHalfAway (90 * 35) 100).
Proof.
  split; [reflexivity|]. split; [reflexivity|].
  vm_compute. discriminate.
Qed.

(** C6, amended.  Under 'percentage' with an integer resizeValue v (from 0
    to below 2^18; W and H from 1 to below 2^32) the resolved dimensions are
    [Math.round(W * r)] and [Math.round(H * r)] for the one double
    [r = v / 100], whatever maintainAspectRatio is.  Each is the exactly
    rounded W*v/100 (resp. H*v/100) unless that quotient lies exactly
    halfway between two integers, where it is that integer or the one
    below. *)
Theorem C6_percentage_scaling (W H v : Z) (options : ProcessingOptions) :
  0 < W < 2 ^ 32 -> 0 < H < 2 ^ 32 -> 0 <= v < 2 ^ 18 ->
  resizeMode options = percentage ->
  resizeValue options = Number.of_Z v ->
  let ratio := Number.div (Number.of_Z v) (Number.of_Z 100) in
  let dims := targetDimensions {| naturalWidth := W; naturalHeight := H |} options in
  dims = (Number.round (Number.mul (Number.of_Z W) ratio),
          Number.round (Number.mul (Number.of_Z H) ratio)) /\
  exists w h,
    dims = (Number.of_Z w, Number.of_Z h) /\
    roundHalfAway (W * v) 100 - 1 <= w <= roundHalfAway (W * v) 100 /\
    roundHalfAway (H * v) 100 - 1 <= h <= roundHalfAway (H * v) 100 /\
    (~ halfway (W * v) 100 -> w = roundHalfAway (W * v) 100) /\
    (~ halfway (H * v) 100 -> h = roundHalfAway (H * v) 100).
Proof.
  intros HW HH Hv Em Ev ratio dims.
  size_bounds.
  assert (dims = (Number.round (Number.mul (Number.of_Z W) ratio),
                  Number.round (Number.mul (Number.of_Z H) ratio))) as Hd.
  { unfold dims, targetDimensions. rewrite Em, Ev. reflexivity. }
  split; [exact Hd|]. rewrite Hd. unfold ratio.
  destruct (round_scaled W v 100) as (w & -> & _ & Hwb & Hwt); try lia; [nia|].
  destruct (round_scaled H v 100) as (h & -> & _ & Hhb & Hht); try lia; [nia|].
  exists w, h. auto.
Qed.

Lemma C6_percentage_scaling_witness :
  exists w h,
    targetDimensions {| naturalWidth := 1000; naturalHeight := 500 |}
      (mkOptions percentage (Number.of_Z 50) false) = (Number.of_Z w, Number.of_Z h) /\
    w = 500 /\ h = 250.
Proof.
  destruct (C6_percentage_scaling 1000 500 50
              (mkOptions percentage (Number.of_Z 50) false))
    as (_ & w & h & Hd & Hw & Hh & Hwt & Hht);
    [split; reflexivity | split; reflexivity | split; [lia | reflexivity]
    | reflexivity | reflexivity |].
  exists w, h. split; [exact Hd|]. split.
  - apply Hwt. unfold halfway. vm_compute. discriminate.
  - apply Hht. unfold halfway. vm_compute. discriminate.
Defined.

(** ** C7: fixed width *)

(** C7, refuted as stated: a 40x23 image at a fixed width of 100 has an
    exact height of 57.5, which rounds to 58; the code computes
    [Math.round(100 * (23 / 40))], where [23 / 40] is the double below 0.575
    and the product the double below 57.5, and gets 57. *)
Lemma C7_counterexample :
  targetDimensions {| naturalWidth := 40; naturalHeight := 23 |}
    (mkOptions fixed_width (Number.of_Z 100) true)
    = (Number.of_Z 100, Number.of_Z 57) /\
  roundHalfAway (100 * 23) 40 = 58 /\
  snd (targetDimensions {| naturalWidth := 40; naturalHeight := 23 |}
         (mkOptions fixed_width (Number.of_Z 100) true))
    <> Number.of_Z (roundHalfAway (100 * 23) 40).
Proof.
  split; [reflexivity|]. split; [reflexivity|].
  vm_compute. discriminate.
Qed.

(** C7, amended.  Under 'fixed-width' the resolved width is resizeValue as
    it is.  Without maintainAspectRatio the resolved height is H.  With it,
    and an integer resizeValue v (from 0 to below 2^18; W and H from 1 to
    below 2^32), the resolved height is [Math.round(v * (H / W))] in double
    arithmetic: the exactly rounded v*H/W unless that quotient lies exactly
    halfway between two integers, where it is that integer or the one
    below. *)
Theorem C7_fixed_width (W H v : Z) (options : ProcessingOptions) :
  0 < W < 2 ^ 32 -> 0 < H < 2 ^ 32 -> 0 <= v < 2 ^ 18 ->
  resizeMode options = fixed_width ->
  resizeValue options = Number.of_Z v ->
  let dims := targetDimensions {| naturalWidth := W; naturalHeight := H |} options in
  fst dims = resizeValue options /\
  (maintainAspectRatio options = false -> snd dims = Number.of_Z H) /\
  (maintainAspectRatio options = true ->
   snd dims = Number.round (Number.mul (Number.of_Z v)
                              (Number.div (Number.of_Z H) (Number.of_Z W))) /\
   exists h,
     snd dims = Number.of_Z h /\
     roundHalfAway (v * H) W - 1 <= h <= roundHalfAway (v * H) W /\
     (~ halfway (v * H) W -> h = roundHalfAway (v * H) W)).
Proof.
  intros HW HH Hv Em Ev dims.
  size_bounds.
  unfold dims, targetDimensions. rewrite Em. cbn [naturalWidth naturalHeight].
  split; [now destruct (maintainAspectRatio options)|].
  split; intros ->; cbn [fst snd]; [reflexivity|].
  rewrite Ev. split; [reflexivity|].
  destruct (round_scaled v H W) as (h & -> & _ & Hhb & Hht); try lia; [nia|].
  exists h. auto.
Qed.

Lemma C7_fixed_width_witness :
  let dims := targetDimensions {| naturalWidth := 1000; naturalHeight := 500 |}
                sampleOptions in
  fst dims = Number.of_Z 500 /\ exists h, snd dims = Number.of_Z h /\ h = 250.
Proof.
  destruct (C7_fixed_width 1000 500 500 sampleOptions)
    as (Hw & _ & Hh);
    [split; reflexivity | split; reflexivity | split; [lia | reflexivity]
    | reflexivity | reflexivity |].
  split; [exact Hw|].
  destruct (Hh eq_refl) as (_ & h & Eh & _ & Hnt).
  exists h. split; [exact Eh|]. apply Hnt. unfold halfway. vm_compute. discriminate.
Defined.

(** ** C2: the selection rule *)

Lemma in_itemsToProcess (fs : list ImageItem) (f : ImageItem) :
  In f fs -> isCandidate f = true -> In f (itemsToProcess fs).
Proof.
  intros Hf Hc. unfold itemsToProcess.
  destruct ((List.length (filter isCandidate fs) =? 0)%nat && _); [assumption|].
  now apply filter_In.
Qed.

Lemma itemsToProcess_some (fs : list ImageItem) :
  (exists g, In g fs /\ isCandidate g = true) ->
  itemsToProcess fs = filter isCandidate fs.
Proof.
  intros (g & Hg & Hc). unfold itemsToProcess.
  assert (In g (filter isCandidate fs)) as H by now apply filter_In.
  destruct (filter isCandidate fs); [contradiction | reflexivity].
Qed.

Lemma itemsToProcess_none (fs : list ImageItem) :
  (forall g, In g fs -> isCandidate g = false) ->
  itemsToProcess fs = fs.
Proof.
  intros H. unfold itemsToProcess.
  assert (filter isCandidate fs = []) as ->.
  { induction fs as [|a l IH]; simpl; [reflexivity|].
    rewrite (H a (or_introl eq_refl)). apply IH. intros g Hg. apply H. now right. }
  simpl. now destruct fs.
Qed.

Lemma processLoop_results (env : Env) (options : ProcessingOptions)
    (items : list ImageItem) :
  forall st st' n f,
    NoDup (map id items) ->
    processLoop env options items [] st = Returned st' ->
    nth_error (files st) n = Some f ->
    In (id f) (map id items) ->
    exists item r,
      In item items /\ id item = id f /\
      processFile env item options = Returned r /\
      nth_error (files st') n = Some (spread (toProcessing f) r).
Proof.
  induction items as [|item rest IH]; intros st st' n f Hnd; simpl; [tauto|].
  inversion Hnd as [|? ? Hnotin Hnd']; subst.
  destruct (awaitProcessFile_returns env item options) as (r & Hr & Hp).
  rewrite Hr. simpl. intros Hloop Hn Hin.
  destruct (String.eqb_spec (id f) (id item)) as [E|E].
  - exists item, r. split; [now left|]. split; [now symmetry|].
    split; [now rewrite <- awaitProcessFile_processFile|].
    eapply processLoop_frame; [exact Hloop| |].
    + rewrite files_mergeResult. simpl.
      assert (existsb (fun g => String.eqb (id g) (id item))
                (markProcessing item (files st)) = true) as ->.
      { apply existsb_exists. exists (toProcessing f). split.
        - unfold markProcessing. apply in_map_iff. exists f.
          rewrite (proj2 (String.eqb_eq _ _) E). split; [reflexivity|].
          eapply nth_error_In; eassumption.
        - simpl. now apply String.eqb_eq. }
      unfold markProcessing. rewrite !nth_error_map, Hn. simpl.
      rewrite (proj2 (String.eqb_eq _ _) E). simpl.
      now rewrite (proj2 (String.eqb_eq _ _) E).
    + rewrite spread_id by assumption. simpl. now rewrite E.
  - destruct Hin as [C|Hin]; [now elim E|].
    destruct (IH _ _ n f Hnd' Hloop) as (it & r' & Hit & Eit & Hr' & Hn');
      [|assumption|].
    + apply nth_error_mergeResult; [|assumption].
      simpl. now apply nth_error_map_if.
    + exists it, r'. auto.
Qed.






(** ** C3: the lifecycle invariant *)

(** C3, refuted as stated: an item that completed and is sent back to
    'processing' (all items completed, so the run takes them all) still
    carries the success fields of its earlier run. *)
Lemma C3_counterexample :
  status completedItem = Completed /\
  itemsToProcess [completedItem] = [completedItem] /\
  exists f, markProcessing completedItem [completedItem] = [f] /\
            status f = Processing /\
            processedUrl f = Some "blob:out"%string /\
            ~ exclusiveOutputs f.
Proof.
  split; [reflexivity|]. split; [reflexivity|].
  eexists. split; [reflexivity|]. split; [reflexivity|]. split; [reflexivity|].
  unfold exclusiveOutputs, noOutput. simpl. intros [[H _] _]. discriminate.
Qed.

(** C3, amended.  The transition to 'processing' clears the error field and
    nothing else: the success fields of an earlier run stay as they are.
    Every item of the collection satisfies at all times: idle, no output and
    no error; processing, no error; completed, the five success fields set
    and no error; error, a non-empty error message.  A fresh item satisfies
    this, every update of the collection keeps it (the transition to
    'processing', a removal, a clear, a drop of a fresh item, the merge of a
    result), and so does a whole run. *)
Theorem C3_lifecycle_invariant :
  (forall item prev f',
     In f' (markProcessing item prev) -> id f' = id item ->
     status f' = Processing /\ error f' = None /\
     exists f, In f prev /\ sameOriginal f f' /\
               processedUrl f' = processedUrl f /\
               processedFormat f' = processedFormat f /\
               processedSize f' = processedSize f /\
               processedWidth f' = processedWidth f /\
               processedHeight f' = processedHeight f) /\
  (forall i f url size w h, consistent (newItem i f url size w h)) /\
  (forall item prev,
     Forall consistent prev -> Forall consistent (markProcessing item prev)) /\
  (forall ev st,
     eventOk ev -> Forall consistent (files st) ->
     Forall consistent (files (applyEvent st ev))) /\
  (forall env item options result st,
     awaitProcessFile env item options = Returned result ->
     Forall consistent (files st) ->
     Forall consistent (files (mergeResult item result st))) /\
  (forall env options schedule st st',
     Forall (Forall eventOk) schedule ->
     Forall consistent (files st) ->
     handleProcessAll env options schedule st = Returned st' ->
     Forall consistent (files st')).
Proof.
  split; [|split; [|split; [|split; [|split]]]];
    [| | exact Forall_consistent_markProcessing
     | exact Forall_consistent_applyEvent | |].
  - intros item prev f' Hin Hid. unfold markProcessing in Hin.
    apply in_map_iff in Hin as (f & <- & Hf).
    destruct (String.eqb (id f) (id item)) eqn:E.
    + split; [reflexivity|]. split; [reflexivity|].
      exists f. split; [assumption|]. now repeat split.
    + apply String.eqb_neq in E. contradiction.
  - exact consistent_newItem.
  - intros env item options result st Hres H.
    destruct (awaitProcessFile_returns env item options) as (r & Hr & Hp).
    rewrite Hres in Hr. injection Hr as <-.
    now apply Forall_consistent_mergeResult.
  - intros env options schedule st st' Hs H Hrun.
    unfold handleProcessAll, bind in Hrun.
    destruct (processLoop env options (itemsToProcess (files st)) schedule
                (setIsProcessing true st)) as [st1|] eqn:Hloop; [|discriminate].
    injection Hrun as <-. simpl.
    eapply processLoop_consistent; [exact Hs | | exact Hloop]. exact H.
Qed.

Lemma C3_lifecycle_invariant_witness :
  (exists f', In f' (markProcessing completedItem [completedItem]) /\
              status f' = Processing /\ error f' = None /\
              processedUrl f' = processedUrl completedItem) /\
  map status (files afterFailedRerun) = [Error] /\
  Forall consistent (files afterFailedRerun).
Proof.
  split; [|split; [reflexivity|]].
  - destruct (proj1 C3_lifecycle_invariant completedItem [completedItem]
                (toProcessing completedItem)) as (Hs & He & f & Hf & _ & Hu & _);
      [now left | reflexivity |].
    exists (toProcessing completedItem). split; [now left|]. now repeat split.
  - apply (proj2 (proj2 (proj2 (proj2 (proj2 C3_lifecycle_invariant))))
             (sampleEnv None) sampleOptions [[RemoveFile "z"%string]]
             (initialState [completedItem]) afterFailedRerun).
    + repeat constructor.
    + repeat constructor; unfold consistent; simpl; repeat split; discriminate.
    + vm_compute. reflexivity.
Defined.

(** ** C4: a null encoding result *)

(** C4, refuted as stated: a zero-byte blob is not [null]; [processFile]
    returns a success record of size 0 for it. *)
Lemma C4_counterexample :
  processFile (sampleEnv (Some emptyBlob)) (sampleItem "a" "blob:a") sampleOptions
    = Returned (completedResult "blob:out" image_webp (Number.of_Z 0)
                  (Number.of_Z 500) (Number.of_Z 250)) /\
  ~ (exists msg,
       processFile (sampleEnv (Some emptyBlob)) (sampleItem "a" "blob:a") sampleOptions
         = Returned (failureResult msg)).
Proof.
  split; [reflexivity|]. intros (msg & H). discriminate H.
Qed.

(** C4, amended.  When the encoding step hands back [null], [processFile]
    returns the failure record with the message 'Image encoding failed';
    when it hands back a blob, of whatever size, zero included,
    [processFile] returns the success record with that blob's size. *)
Theorem C4_null_blob_fails (env : Env) (item : ImageItem)
    (options : ProcessingOptions) (img : HTMLImageElement) (blob : option Blob) :
  env_loadImage env (previewUrl item) = Returned img ->
  let w := fst (targetDimensions img options) in
  let h := snd (targetDimensions img options) in
  env_getContext env w h = Returned true ->
  env_drawImage env img w h = Returned tt ->
  env_toBlob env img w h (format options) (quality options) = Returned blob ->
  processFile env item options =
  Returned
    match blob with
    | None => failureResult "Image encoding failed"
    | Some b => completedResult (env_createObjectURL env b) (format options)
                  (Number.of_Z (blob_size b)) w h
    end.
Proof.
  intros Himg w h Hctx Hdraw Hblob. subst w h.
  unfold processFile, processFile_try, bind. rewrite Himg.
  destruct (targetDimensions img options) as [w h]. simpl in *.
  rewrite Hctx. simpl. rewrite Hdraw, Hblob.
  now destruct blob.
Qed.

Lemma C4_null_blob_fails_witness :
  processFile (sampleEnv None) (sampleItem "a" "blob:a") sampleOptions
    = Returned (failureResult "Image encoding failed").
Proof.
  apply (C4_null_blob_fails (sampleEnv None) (sampleItem "a" "blob:a") sampleOptions
           {| naturalWidth := 1000; naturalHeight := 500 |} None);
    reflexivity.
Defined.

(** ** C5: failures stay inside the item *)

(** C5. [processFile] always resolves, with a success record or with a
    failure record that carries a non-empty message: whatever its [try]
    block throws (the rejected load, the missing canvas context, the failed
    encoding, an exception of the canvas) becomes the failure record with
    that message; a run of the batch
    controller always returns, whatever happens to the items and to the
    collection meanwhile; and when nothing else touches the collection,
    every entry with a candidate's id ends completed or in error. *)
Theorem C5_failures_are_contained :
  (forall env item options,
     exists r, processFile env item options = Returned r /\ pipelineResult r) /\
  (forall env item options err,
     processFile_try env item options = Threw err ->
     processFile env item options =
     Returned (failureResult (or_else (message err) "Processing failed"))) /\
  (forall env options schedule st,
     exists st', handleProcessAll env options schedule st = Returned st') /\
  (forall env options st st' f',
     handleProcessAll env options [] st = Returned st' ->
     In f' (files st') ->
     In (id f') (map id (itemsToProcess (files st))) ->
     terminal (status f')).
Proof.
  split; [exact processFile_returns|]. split; [|split].
  - intros env item options err H. unfold processFile. now rewrite H.
  - intros env options schedule st. unfold handleProcessAll.
    destruct (processLoop_returns env options (itemsToProcess (files st)) schedule
                (setIsProcessing true st)) as (st1 & ->).
    simpl. eauto.
  - intros env options st st' f' Hrun Hin Hid.
    unfold handleProcessAll, bind in Hrun.
    destruct (processLoop env options (itemsToProcess (files st)) []
                (setIsProcessing true st)) as [st1|] eqn:Hloop; [|discriminate].
    injection Hrun as <-. simpl in Hin.
    now apply (processLoop_terminal _ _ _ _ _ _ Hloop Hin).
Qed.

Lemma C5_failures_are_contained_witness :
  handleProcessAll (sampleEnv (Some someBlob)) sampleOptions []
    (initialState threeItems) = Returned afterThreeItems /\
  map status (files afterThreeItems) = [Completed; Error; Completed] /\
  Forall (fun f => terminal (status f)) (files afterThreeItems).
Proof.
  split; [vm_compute; reflexivity|]. split; [vm_compute; reflexivity|].
  apply Forall_forall. intros f' Hin.
  apply (proj2 (proj2 (proj2 C5_failures_are_contained))
           (sampleEnv (Some someBlob)) sampleOptions (initialState threeItems)
           afterThreeItems f'); [vm_compute; reflexivity | exact Hin |].
  vm_compute in Hin. destruct Hin as [<-|[<-|[<-|[]]]]; vm_compute; auto.
Defined.

(** ** C8: a result that arrives after its item was removed *)


Lemma revoked_revokeIfSet (u : option string) (st : AppState) :
  revoked (revokeIfSet u st) =
  match u with
  | Some url => if truthy url then url :: revoked st else revoked st
  | None => revoked st
  end.
Proof.
  destruct u as [u|]; simpl; [|reflexivity]. now destruct (truthy u).
Qed.







(** ** C9: an item in error keeps what it was ingested with *)

(** C9. When [processFile] returns a failure, merging it changes, in the
    entries with the item's id, the status (to 'error') and the error
    message only: id, file, preview url and original size, width and height
    of every entry are what they were.  Such an entry is a candidate of the
    next run. *)
Theorem C9_failure_keeps_original (env : Env) (item : ImageItem)
    (options : ProcessingOptions) (result : PartialItem) (st : AppState)
    (n : nat) (f : ImageItem) :
  processFile env item options = Returned result ->
  p_status result = Some Error ->
  nth_error (files st) n = Some f ->
  exists f',
    nth_error (files (mergeResult item result st)) n = Some f' /\
    sameOriginal f f' /\
    (id f = id item ->
     status f' = Error /\ error f' <> None /\
     In f' (itemsToProcess (files (mergeResult item result st)))).
Proof.
  intros Hrun Hst Hn.
  destruct (processFile_returns env item options) as (r & Hr & Hres).
  rewrite Hrun in Hr. injection Hr as <-.
  destruct Hres as [(url & fmt & size & w & h & ->) | (msg & Hmsg & ->)];
    [discriminate|].
  rewrite files_mergeResult.
  destruct (existsb _ (files st)) eqn:E.
  - rewrite nth_error_map, Hn. simpl.
    destruct (String.eqb (id f) (id item)) eqn:Ef.
    + eexists. split; [reflexivity|]. split; [apply spread_failure_sameOriginal|].
      intros _. split; [reflexivity|]. split; [discriminate|].
      apply in_itemsToProcess; [|reflexivity].
      apply in_map_iff. exists f. rewrite Ef. split; [reflexivity|].
      eapply nth_error_In; eassumption.
    + exists f. split; [reflexivity|]. split; [now repeat split|].
      intros Hid. apply String.eqb_neq in Ef. contradiction.
  - exists f. split; [assumption|]. split; [now repeat split|].
    intros Hid. apply nth_error_In in Hn.
    now elim (proj1 (existsb_id_false _ _) E f Hn).
Qed.

Lemma C9_failure_keeps_original_witness :
  let item := sampleItem "b" "blob:corrupt" in
  let st := setFiles (markProcessing item) (initialState threeItems) in
  exists f',
    nth_error (files (mergeResult item (failureResult "Failed to load image") st)) 1
      = Some f' /\
    sameOriginal item f' /\ status f' = Error.
Proof.
  intros item st.
  destruct (C9_failure_keeps_original (sampleEnv (Some someBlob)) item sampleOptions
              (failureResult "Failed to load image") st 1 (toProcessing item)
              eq_refl eq_refl eq_refl) as (f' & Hn & Hsame & Hid).
  exists f'. split; [exact Hn|]. split; [exact Hsame|].
  exact (proj1 (Hid eq_refl)).
Defined.

(** ** C10: the stored size plays no part *)

Lemma processFile_completed_dims (env : Env) (item : ImageItem)
    (options : ProcessingOptions) (r : PartialItem) :
  processFile env item options = Returned r ->
  p_status r = Some Completed ->
  exists img,
    env_loadImage env (previewUrl item) = Returned img /\
    p_processedWidth r = Some (Some (fst (targetDimensions img options))) /\
    p_processedHeight r = Some (Some (snd (targetDimensions img options))).
Proof.
  unfold processFile, processFile_try, bind.
  destruct (env_loadImage env (previewUrl item)) as [img|];
    [|simpl; intros [= <-]; discriminate].
  destruct (targetDimensions img options) as [w h] eqn:Hd.
  destruct (env_getContext env w h) as [[|]|]; simpl;
    try (intros [= <-]; discriminate).
  destruct (env_drawImage env img w h); simpl;
    try (intros [= <-]; discriminate).
  destruct (env_toBlob env img w h (format options) (quality options))
    as [[blob|]|]; simpl; try (intros [= <-]; discriminate).
  intros [= <-] _. exists img. now rewrite Hd.
Qed.

(** C10. Two items whose images decode to the same natural width and height
    get, under the same options, the same target dimensions, and, when both
    succeed, the same processed width and height, whatever their stored
    [originalWidth] and [originalHeight] (and their other fields) are. *)
Theorem C10_dimensions_ignore_stored_size (env1 env2 : Env)
    (options : ProcessingOptions) (item1 item2 : ImageItem)
    (img1 img2 : HTMLImageElement) :
  env_loadImage env1 (previewUrl item1) = Returned img1 ->
  env_loadImage env2 (previewUrl item2) = Returned img2 ->
  naturalWidth img1 = naturalWidth img2 ->
  naturalHeight img1 = naturalHeight img2 ->
  resolvedDimensions env1 item1 options = Some (targetDimensions img1 options) /\
  resolvedDimensions env1 item1 options = resolvedDimensions env2 item2 options /\
  (forall r1 r2,
     processFile env1 item1 options = Returned r1 ->
     processFile env2 item2 options = Returned r2 ->
     p_status r1 = Some Completed -> p_status r2 = Some Completed ->
     p_processedWidth r1 = p_processedWidth r2 /\
     p_processedHeight r1 = p_processedHeight r2).
Proof.
  intros H1 H2 Hw Hh.
  assert (targetDimensions img1 options = targetDimensions img2 options) as Hd.
  { unfold targetDimensions. now rewrite Hw, Hh. }
  unfold resolvedDimensions. rewrite H1, H2, Hd.
  split; [reflexivity|]. split; [reflexivity|].
  intros r1 r2 Hr1 Hr2 Hs1 Hs2.
  destruct (processFile_completed_dims _ _ _ _ Hr1 Hs1) as (i1 & E1 & -> & ->).
  destruct (processFile_completed_dims _ _ _ _ Hr2 Hs2) as (i2 & E2 & -> & ->).
  rewrite H1 in E1. rewrite H2 in E2. injection E1 as <-. injection E2 as <-.
  now rewrite Hd.
Qed.

Lemma C10_dimensions_ignore_stored_size_witness :
  resolvedDimensions (sampleEnv (Some someBlob))
    (newItem "a" sampleFile "blob:a" 2048 1000 500) sampleOptions =
  resolvedDimensions (sampleEnv (Some someBlob))
    (newItem "b" sampleFile "blob:b" 4096 0 0) sampleOptions.
Proof.
  apply (C10_dimensions_ignore_stored_size
           (sampleEnv (Some someBlob)) (sampleEnv (Some someBlob)) sampleOptions
           (newItem "a" sampleFile "blob:a" 2048 1000 500)
           (newItem "b" sampleFile "blob:b" 4096 0 0)
           {| naturalWidth := 1000; naturalHeight := 500 |}
           {| naturalWidth := 1000; naturalHeight := 500 |});
    reflexivity.
Defined.

(** * Further properties of the pipeline and the controller *)

(** ** The resolved dimensions, continued *)

(** The computed quotient is within half a unit of the exact one, ties
    included. *)
Lemma rounded_close (n d k : Z) :
  0 <= n -> 0 < d ->
  roundHalfAway n d - 1 <= k <= roundHalfAway n d ->
  (~ halfway n d -> k = roundHalfAway n d) ->
  Z.abs (2 * (k * d) - 2 * n) <= d.
Proof.
  intros Hn Hd Hk Hnt. rewrite roundHalfAway_nonneg in * by assumption.
  pose proof (Z.mul_div_le (2 * n + d) (2 * d) ltac:(lia)) as Hlo.
  pose proof (Z.mul_succ_div_gt (2 * n + d) (2 * d) ltac:(lia)) as Hhi.
  set (N := (2 * n + d) / (2 * d)) in *.
  destruct (Z.eq_dec k N) as [->|Hne]; [lia|].
  assert (halfway n d) as Hh.
  { destruct (Z.eq_dec ((2 * n) mod (2 * d)) d) as [E|E]; [exact E|].
    elim Hne. now apply Hnt. }
  unfold halfway in Hh.
  pose proof (Z.div_mod (2 * n) (2 * d) ltac:(lia)) as Hdm. rewrite Hh in Hdm.
  assert (N = 2 * n / (2 * d) + 1) as HN.
  { unfold N. rewrite Hdm at 1.
    replace (2 * d * (2 * n / (2 * d)) + d + d) with ((2 * n / (2 * d) + 1) * (2 * d))
      by ring.
    apply Z.div_mul. lia. }
  assert (k = 2 * n / (2 * d)) as -> by lia. lia.
Qed.

(** A larger numerator never gives a smaller computed quotient. *)
Lemma rounded_mono (n1 n2 d k1 k2 : Z) :
  0 <= n1 -> n1 < n2 -> 0 < d ->
  roundHalfAway n1 d - 1 <= k1 <= roundHalfAway n1 d ->
  roundHalfAway n2 d - 1 <= k2 <= roundHalfAway n2 d ->
  (~ halfway n2 d -> k2 = roundHalfAway n2 d) ->
  k1 <= k2.
Proof.
  intros Hn1 Hlt Hd Hk1 Hk2 Hnt. rewrite !roundHalfAway_nonneg in * by lia.
  pose proof (Z.mul_div_le (2 * n1 + d) (2 * d) ltac:(lia)) as Hlo1.
  pose proof (Z.mul_succ_div_gt (2 * n1 + d) (2 * d) ltac:(lia)) as Hhi1.
  pose proof (Z.mul_div_le (2 * n2 + d) (2 * d) ltac:(lia)) as Hlo2.
  pose proof (Z.mul_succ_div_gt (2 * n2 + d) (2 * d) ltac:(lia)) as Hhi2.
  set (N1 := (2 * n1 + d) / (2 * d)) in *.
  set (N2 := (2 * n2 + d) / (2 * d)) in *.
  assert (N1 <= N2) by nia.
  destruct (Z.eq_dec k2 N2) as [->|Hne]; [lia|].
  assert (halfway n2 d) as Hh.
  { destruct (Z.eq_dec ((2 * n2) mod (2 * d)) d) as [E|E]; [exact E|].
    elim Hne. now apply Hnt. }
  unfold halfway in Hh.
  pose proof (Z.div_mod (2 * n2) (2 * d) ltac:(lia)) as Hdm. rewrite Hh in Hdm.
  assert (N2 = 2 * n2 / (2 * d) + 1) as HN.
  { unfold N2. rewrite Hdm at 1.
    replace (2 * d * (2 * n2 / (2 * d)) + d + d)
      with ((2 * n2 / (2 * d) + 1) * (2 * d)) by ring.
    apply Z.div_mul. lia. }
  assert (N1 <= N2 - 1) by nia. lia.
Qed.

(** Integers below [2^53] compare as numbers the way they compare as
    integers. *)
Lemma leb_of_Z (a b : Z) :
  0 <= a -> a <= b -> b < 2 ^ 53 ->
  Number.leb (Number.of_Z a) (Number.of_Z b) = true.
Proof.
  intros Ha Hab Hb.
  destruct (Z.eq_dec b 0) as [->|Hb0].
  { assert (a = 0) as -> by lia. reflexivity. }
  destruct (of_Z_normal b ltac:(lia)) as (mb & eb & Eb & Hmb & Heb & Vb).
  unfold Number.of_Z, Number.prec, Number.emax. rewrite Eb.
  destruct (Z.eq_dec a 0) as [->|Ha0]; [reflexivity|].
  destruct (of_Z_normal a ltac:(lia)) as (ma & ea & Ea & Hma & Hea & Va).
  rewrite Ea. unfold Number.leb, SFleb, SFcompare.
  assert (0 < 2 ^ (- ea)) by (apply Z.pow_pos_nonneg; lia).
  assert (0 < 2 ^ (- eb)) by (apply Z.pow_pos_nonneg; lia).
  destruct (Z.compare_spec ea eb) as [E|L|G]; [|reflexivity|exfalso].
  - subst eb. change (Pos.compare_cont Eq ma mb) with (Pos.compare ma mb).
    rewrite Pos2Z.inj_compare.
    destruct (Z.compare_spec (Zpos ma) (Zpos mb)) as [E'|L'|G'];
      [reflexivity | reflexivity | nia].
  - assert (2 ^ (- eb) = 2 ^ (ea - eb) * 2 ^ (- ea)) as Hp
      by (rewrite <- Z.pow_add_r by lia; f_equal; lia).
    assert (2 <= 2 ^ (ea - eb)).
    { change 2 with (2 ^ 1) at 1. apply Z.pow_le_mono_r; lia. }
    change (2 ^ 53) with (2 * 2 ^ 52) in *. nia.
Qed.

(** X1. Under 'fixed-height' the resolved height is resizeValue as it is.
    Without maintainAspectRatio the resolved width is W.  With it, and an
    integer resizeValue v, the resolved width is [Math.round(v * (W / H))]
    in double arithmetic: the exactly rounded v*W/H unless that quotient
    lies exactly halfway between two integers, where it is that integer or
    the one below. *)
Theorem fixed_height_dimensions (W H v : Z) (options : ProcessingOptions) :
  0 < W < 2 ^ 32 -> 0 < H < 2 ^ 32 -> 0 <= v < 2 ^ 18 ->
  resizeMode options = fixed_height ->
  resizeValue options = Number.of_Z v ->
  let dims := targetDimensions {| naturalWidth := W; naturalHeight := H |} options in
  snd dims = resizeValue options /\
  (maintainAspectRatio options = false -> fst dims = Number.of_Z W) /\
  (maintainAspectRatio options = true ->
   exists w,
     fst dims = Number.of_Z w /\
     roundHalfAway (v * W) H - 1 <= w <= roundHalfAway (v * W) H /\
     (~ halfway (v * W) H -> w = roundHalfAway (v * W) H)).
Proof.
  intros HW HH Hv Em Ev dims. size_bounds.
  unfold dims, targetDimensions. rewrite Em. cbn [naturalWidth naturalHeight].
  split; [now destruct (maintainAspectRatio options)|].
  split; intros ->; cbn [fst snd]; [reflexivity|].
  rewrite Ev.
  destruct (round_scaled v W H) as (w & -> & _ & Hwb & Hwt); try lia; [nia|].
  exists w. auto.
Qed.

Lemma fixed_height_dimensions_witness :
  let dims := targetDimensions {| naturalWidth := 1000; naturalHeight := 500 |}
                (mkOptions fixed_height (Number.of_Z 100) true) in
  snd dims = Number.of_Z 100 /\ exists w, fst dims = Number.of_Z w /\ w = 200.
Proof.
  destruct (fixed_height_dimensions 1000 500 100
              (mkOptions fixed_height (Number.of_Z 100) true))
    as (Hh & _ & Hw);
    [split; reflexivity | split; reflexivity | split; [lia | reflexivity]
    | reflexivity | reflexivity |].
  split; [exact Hh|].
  destruct (Hw eq_refl) as (w & Ew & _ & Hnt).
  exists w. split; [exact Ew|]. apply Hnt. unfold halfway. vm_compute. discriminate.
Defined.

(** X2. Under 'percentage', when 100 divides W*v the resolved width is
    exactly W*v/100, and likewise the height: in particular 100 percent
    leaves the size as it is and 200 percent doubles it. *)
Theorem percentage_exact_multiples (W H v : Z) (options : ProcessingOptions) :
  0 < W < 2 ^ 32 -> 0 < H < 2 ^ 32 -> 0 <= v < 2 ^ 18 ->
  resizeMode options = percentage ->
  resizeValue options = Number.of_Z v ->
  let dims := targetDimensions {| naturalWidth := W; naturalHeight := H |} options in
  ((W * v) mod 100 = 0 -> fst dims = Number.of_Z (W * v / 100)) /\
  ((H * v) mod 100 = 0 -> snd dims = Number.of_Z (H * v / 100)) /\
  (v = 100 -> dims = (Number.of_Z W, Number.of_Z H)) /\
  (v = 200 -> dims = (Number.of_Z (2 * W), Number.of_Z (2 * H))).
Proof.
  intros HW HH Hv Em Ev dims. size_bounds.
  assert (exists w h,
             dims = (Number.of_Z w, Number.of_Z h) /\
             (~ halfway (W * v) 100 -> w = roundHalfAway (W * v) 100) /\
             (~ halfway (H * v) 100 -> h = roundHalfAway (H * v) 100))
    as (w & h & Hd & Hwt & Hht).
  { unfold dims, targetDimensions. rewrite Em, Ev. cbn [naturalWidth naturalHeight].
    destruct (round_scaled W v 100) as (w & -> & _ & _ & Hwt); try lia; [nia|].
    destruct (round_scaled H v 100) as (h & -> & _ & _ & Hht); try lia; [nia|].
    now exists w, h. }
  assert (forall n, 0 <= n -> n mod 100 = 0 ->
                    ~ halfway n 100 /\ roundHalfAway n 100 = n / 100) as Hex.
  { intros n Hn Hm. pose proof (Z.div_mod n 100 ltac:(lia)) as Hdm.
    rewrite Hm in Hdm. split.
    - unfold halfway. rewrite Hdm at 1.
      replace (2 * (100 * (n / 100) + 0)) with (0 + (n / 100) * (2 * 100)) by ring.
      rewrite Z.mod_add by lia. discriminate.
    - rewrite roundHalfAway_nonneg by lia. rewrite Hdm at 1.
      replace (2 * (100 * (n / 100) + 0) + 100)
        with (100 + (n / 100) * (2 * 100)) by ring.
      rewrite Z.div_add by lia. reflexivity. }
  assert ((W * v) mod 100 = 0 -> fst dims = Number.of_Z (W * v / 100)) as Hfst.
  { intros Hm. destruct (Hex (W * v) ltac:(nia) Hm) as [Hn <-].
    rewrite Hd. cbn [fst]. f_equal. now apply Hwt. }
  assert ((H * v) mod 100 = 0 -> snd dims = Number.of_Z (H * v / 100)) as Hsnd.
  { intros Hm. destruct (Hex (H * v) ltac:(nia) Hm) as [Hn <-].
    rewrite Hd. cbn [snd]. f_equal. now apply Hht. }
  split; [exact Hfst|]. split; [exact Hsnd|]. split; intros ->.
  - rewrite (surjective_pairing dims), Hfst, Hsnd by (apply Z.mod_mul; lia).
    now rewrite !Z.div_mul by lia.
  - assert (forall n, n * 200 = (2 * n) * 100) as E by (intros; ring).
    rewrite (surjective_pairing dims), Hfst, Hsnd
      by (rewrite E; apply Z.mod_mul; lia).
    now rewrite !E, !Z.div_mul by lia.
Qed.

Lemma percentage_exact_multiples_witness :
  targetDimensions {| naturalWidth := 1920; naturalHeight := 1080 |}
    (mkOptions percentage (Number.of_Z 100) false)
    = (Number.of_Z 1920, Number.of_Z 1080).
Proof.
  apply (percentage_exact_multiples 1920 1080 100
           (mkOptions percentage (Number.of_Z 100) false));
    [split; reflexivity | split; reflexivity | split; [lia | reflexivity]
    | reflexivity | reflexivity | reflexivity].
Defined.

(** X3. Every scaled dimension is within half a pixel of the exact
    proportional value, ties included: |w - W*v/100| <= 1/2 under
    'percentage', |h - v*H/W| <= 1/2 under 'fixed-width' and
    |w - v*W/H| <= 1/2 under 'fixed-height' with maintainAspectRatio; under
    'original' the dimensions are the natural ones. *)
Theorem scaled_axis_within_half_pixel (W H v : Z) (options : ProcessingOptions) :
  0 < W < 2 ^ 32 -> 0 < H < 2 ^ 32 -> 0 <= v < 2 ^ 18 ->
  resizeValue options = Number.of_Z v ->
  let dims := targetDimensions {| naturalWidth := W; naturalHeight := H |} options in
  match resizeMode options with
  | original => dims = (Number.of_Z W, Number.of_Z H)
  | percentage =>
      exists w h, dims = (Number.of_Z w, Number.of_Z h) /\
                  Z.abs (2 * (w * 100) - 2 * (W * v)) <= 100 /\
                  Z.abs (2 * (h * 100) - 2 * (H * v)) <= 100
  | fixed_width =>
      maintainAspectRatio options = true ->
      exists h, snd dims = Number.of_Z h /\ Z.abs (2 * (h * W) - 2 * (v * H)) <= W
  | fixed_height =>
      maintainAspectRatio options = true ->
      exists w, fst dims = Number.of_Z w /\ Z.abs (2 * (w * H) - 2 * (v * W)) <= H
  end.
Proof.
  intros HW HH Hv Ev dims. size_bounds.
  unfold dims, targetDimensions. cbn [naturalWidth naturalHeight]. rewrite Ev.
  destruct (resizeMode options).
  - reflexivity.
  - destruct (round_scaled W v 100) as (w & -> & _ & Hwb & Hwt); try lia; [nia|].
    destruct (round_scaled H v 100) as (h & -> & _ & Hhb & Hht); try lia; [nia|].
    exists w, h. split; [reflexivity|].
    split; apply rounded_close; auto; nia.
  - intros ->. cbn [snd].
    destruct (round_scaled v H W) as (h & -> & _ & Hhb & Hht); try lia; [nia|].
    exists h. split; [reflexivity|]. apply rounded_close; auto; nia.
  - intros ->. cbn [fst].
    destruct (round_scaled v W H) as (w & -> & _ & Hwb & Hwt); try lia; [nia|].
    exists w. split; [reflexivity|]. apply rounded_close; auto; nia.
Qed.

Lemma scaled_axis_within_half_pixel_witness :
  exists h,
    snd (targetDimensions {| naturalWidth := 40; naturalHeight := 23 |}
           (mkOptions fixed_width (Number.of_Z 100) true)) = Number.of_Z h /\
    Z.abs (2 * (h * 40) - 2 * (100 * 23)) <= 40.
Proof.
  apply (scaled_axis_within_half_pixel 40 23 100
           (mkOptions fixed_width (Number.of_Z 100) true));
    [split; reflexivity | split; reflexivity | split; [lia | reflexivity]
    | reflexivity | reflexivity].
Defined.

(** X4. Under 'percentage' the resolved size grows with the image and with
    the percentage: a wider (taller) image or a larger resizeValue never
    resolves to a smaller width (height). *)
Theorem percentage_monotone (W1 H1 v1 W2 H2 v2 : Z) (options1 options2 : ProcessingOptions) :
  0 < W1 <= W2 -> W2 < 2 ^ 32 -> 0 < H1 <= H2 -> H2 < 2 ^ 32 ->
  0 <= v1 <= v2 -> v2 < 2 ^ 18 ->
  resizeMode options1 = percentage -> resizeValue options1 = Number.of_Z v1 ->
  resizeMode options2 = percentage -> resizeValue options2 = Number.of_Z v2 ->
  let dims1 := targetDimensions {| naturalWidth := W1; naturalHeight := H1 |} options1 in
  let dims2 := targetDimensions {| naturalWidth := W2; naturalHeight := H2 |} options2 in
  Number.leb (fst dims1) (fst dims2) = true /\
  Number.leb (snd dims1) (snd dims2) = true.
Proof.
  intros HW1 HW2 HH1 HH2 Hv1 Hv2 Em1 Ev1 Em2 Ev2 dims1 dims2. size_bounds.
  assert (forall a1 a2, 0 < a1 <= a2 -> a2 < 2 ^ 32 ->
            Number.leb
              (Number.round (Number.mul (Number.of_Z a1)
                               (Number.div (Number.of_Z v1) (Number.of_Z 100))))
              (Number.round (Number.mul (Number.of_Z a2)
                               (Number.div (Number.of_Z v2) (Number.of_Z 100))))
            = true) as Hax.
  { intros a1 a2 Ha1 Ha2.
    destruct (round_scaled a1 v1 100) as (k1 & E1 & Hk1 & Hb1 & Ht1); try lia; [nia|].
    destruct (round_scaled a2 v2 100) as (k2 & E2 & Hk2 & Hb2 & Ht2); try lia; [nia|].
    assert (roundHalfAway (a2 * v2) 100 <= a2 * v2) as Hup.
    { rewrite roundHalfAway_nonneg by nia.
      pose proof (Z.mul_div_le (2 * (a2 * v2) + 100) (2 * 100) ltac:(lia)). nia. }
    assert (k2 < 2 ^ 53) as Hk2b by nia.
    destruct (Z.eq_dec (a1 * v1) (a2 * v2)) as [En|Hn].
    - destruct (Z.eq_dec v2 0) as [->|Hv20].
      + assert (v1 = 0) as -> by lia.
        rewrite E1, E2. apply leb_of_Z; try lia.
        replace (a1 * 0) with 0 in Hb1 by ring.
        replace (a2 * 0) with 0 in Hb2 by ring.
        change (roundHalfAway 0 100) with 0 in *. lia.
      + assert (v1 = v2) as -> by nia. assert (a1 = a2) as -> by nia.
        rewrite E2. apply leb_of_Z; lia.
    - rewrite E1, E2. apply leb_of_Z; try lia.
      apply (rounded_mono (a1 * v1) (a2 * v2) 100); auto; nia. }
  unfold dims1, dims2, targetDimensions. rewrite Em1, Em2, Ev1, Ev2.
  cbn [naturalWidth naturalHeight fst snd]. split; apply Hax; lia.
Qed.

Lemma percentage_monotone_witness :
  Number.leb
    (fst (targetDimensions {| naturalWidth := 90; naturalHeight := 50 |}
            (mkOptions percentage (Number.of_Z 35) true)))
    (fst (targetDimensions {| naturalWidth := 90; naturalHeight := 50 |}
            (mkOptions percentage (Number.of_Z 40) true))) = true.
Proof.
  apply (percentage_monotone 90 50 35 90 50 40
           (mkOptions percentage (Number.of_Z 35) true)
           (mkOptions percentage (Number.of_Z 40) true));
    try reflexivity; try (split; [reflexivity | discriminate]);
    split; discriminate.
Defined.

(** ** Removing and clearing *)

Lemma setFiles_same (st : AppState) : setFiles (fun prev => prev) st = st.
Proof. now destruct st. Qed.

Lemma filter_absent (i : string) (l : list ImageItem) :
  (forall f, In f l -> id f <> i) ->
  filter (fun f => negb (String.eqb (id f) i)) l = l.
Proof.
  induction l as [|a l IH]; intros H; simpl; [reflexivity|].
  destruct (String.eqb_spec (id a) i) as [E|E]; simpl.
  - elim (H a (or_introl eq_refl) E).
  - f_equal. apply IH. intros f Hf. apply H. now right.
Qed.

Lemma find_absent (i : string) (l : list ImageItem) :
  (forall f, In f l -> id f <> i) ->
  find (fun f => String.eqb (id f) i) l = None.
Proof.
  induction l as [|a l IH]; intros H; simpl; [reflexivity|].
  destruct (String.eqb_spec (id a) i) as [E|E].
  - elim (H a (or_introl eq_refl) E).
  - apply IH. intros f Hf. apply H. now right.
Qed.

(** X5. Removing an id the collection does not hold changes nothing: the
    collection is as it was and no object URL is revoked. *)
Theorem handleRemoveFile_absent (i : string) (st : AppState) :
  (forall f, In f (files st) -> id f <> i) ->
  handleRemoveFile i st = st.
Proof.
  intros H. unfold handleRemoveFile. rewrite (find_absent i _ H).
  destruct st as [fs p r]. unfold setFiles. simpl in *.
  now rewrite (filter_absent i fs H).
Qed.

Lemma handleRemoveFile_absent_witness :
  handleRemoveFile "z" (initialState threeItems) = initialState threeItems.
Proof.
  apply handleRemoveFile_absent.
  intros f Hf. vm_compute in Hf.
  destruct Hf as [<-|[<-|[<-|[]]]]; discriminate.
Defined.

(** X6. With unique ids, removing an item takes exactly that entry out, the
    others staying in their order, and revokes the removed entry's preview
    URL and, when it has one, its processed URL, and nothing else. *)
Theorem handleRemoveFile_present (f : ImageItem) (st : AppState) :
  NoDup (map id (files st)) -> In f (files st) ->
  exists before after,
    files st = before ++ f :: after /\
    files (handleRemoveFile (id f) st) = before ++ after /\
    revoked (handleRemoveFile (id f) st) =
      match processedUrl f with
      | Some url => if truthy url then url :: previewUrl f :: revoked st
                    else previewUrl f :: revoked st
      | None => previewUrl f :: revoked st
      end /\
    isProcessing (handleRemoveFile (id f) st) = isProcessing st.
Proof.
  intros Hnd Hin. apply in_split in Hin as (l1 & l2 & E).
  exists l1, l2. split; [exact E|].
  rewrite E, map_app in Hnd. simpl in Hnd.
  assert (forall g, In g l1 -> id g <> id f) as H1.
  { intros g Hg Eg. apply NoDup_remove_2 in Hnd. apply Hnd.
    apply in_or_app. left. rewrite <- Eg. now apply in_map. }
  assert (forall g, In g l2 -> id g <> id f) as H2.
  { intros g Hg Eg. apply NoDup_remove_2 in Hnd. apply Hnd.
    apply in_or_app. right. rewrite <- Eg. now apply in_map. }
  assert (find (fun g => String.eqb (id g) (id f)) (files st) = Some f) as Hfind.
  { rewrite E. clear E Hnd. induction l1 as [|a l1 IH]; simpl.
    - now rewrite String.eqb_refl.
    - destruct (String.eqb_spec (id a) (id f)) as [Ea|Ea].
      + elim (H1 a (or_introl eq_refl) Ea).
      + apply IH. intros g Hg. apply H1. now right. }
  split; [|split].
  - rewrite files_handleRemoveFile, E, filter_app. simpl.
    rewrite String.eqb_refl. simpl.
    now rewrite (filter_absent _ l1 H1), (filter_absent _ l2 H2).
  - unfold handleRemoveFile. rewrite Hfind. unfold revokeItem. simpl.
    rewrite revoked_revokeIfSet. reflexivity.
  - unfold handleRemoveFile. rewrite Hfind. unfold revokeItem. simpl.
    destruct (processedUrl f) as [u|]; simpl; [|reflexivity]. now destruct (truthy u).
Qed.

Lemma handleRemoveFile_present_witness :
  exists before after,
    files afterThreeItems = before ++ hd completedItem (files afterThreeItems) :: after /\
    files (handleRemoveFile "a" afterThreeItems) = before ++ after /\
    revoked (handleRemoveFile "a" afterThreeItems) = ["blob:out"; "blob:a"]%string.
Proof.
  destruct (handleRemoveFile_present (hd completedItem (files afterThreeItems))
              afterThreeItems) as (l1 & l2 & E & Hf & Hr & _).
  - repeat constructor; simpl; intuition discriminate.
  - now left.
  - exists l1, l2. split; [exact E|]. split; [exact Hf | exact Hr].
Defined.

Lemma revoked_revokeItem (f : ImageItem) (st : AppState) (u : string) :
  In u (revoked (revokeItem f st)) <->
  u = previewUrl f \/ (processedUrl f = Some u /\ truthy u = true) \/ In u (revoked st).
Proof.
  unfold revokeItem. rewrite revoked_revokeIfSet.
  destruct (processedUrl f) as [p|]; simpl.
  - destruct (truthy p) eqn:T; simpl; split; intros H.
    + destruct H as [<-|[<-|H]]; auto.
    + destruct H as [->|[[[= ->] _]|H]]; auto.
    + destruct H as [<-|H]; auto.
    + destruct H as [->|[[[= ->] T']|H]]; auto. congruence.
  - split; intros H.
    + destruct H as [<-|H]; auto.
    + destruct H as [->|[[C _]|H]]; auto. discriminate.
Qed.

Lemma revoked_fold_revokeItem (l : list ImageItem) :
  forall (st : AppState) (u : string),
    In u (revoked (fold_left (fun s f => revokeItem f s) l st)) <->
    (exists f, In f l /\
               (u = previewUrl f \/ (processedUrl f = Some u /\ truthy u = true))) \/
    In u (revoked st).
Proof.
  induction l as [|a l IH]; intros st u; simpl.
  - split; [now right | intros [(f & [] & _)|H]; exact H].
  - rewrite IH, revoked_revokeItem. split.
    + intros [(f & Hf & H)|[H|[H|H]]].
      * left. exists f. auto.
      * left. exists a. auto.
      * left. exists a. auto.
      * now right.
    + intros [(f & [<-|Hf] & H)|H].
      * right. tauto.
      * left. exists f. auto.
      * right. auto.
Qed.

(** X7. Clearing empties the collection and revokes exactly the object URLs
    of the items it closed over, preview and processed, on top of those
    revoked before; the URLs of items that are not in that snapshot are not
    revoked. *)
Theorem handleClearAll_revokes (snapshot : list ImageItem) (st : AppState) :
  files (handleClearAll snapshot st) = [] /\
  isProcessing (handleClearAll snapshot st) = isProcessing st /\
  forall u,
    In u (revoked (handleClearAll snapshot st)) <->
    (exists f, In f snapshot /\
               (u = previewUrl f \/ (processedUrl f = Some u /\ truthy u = true))) \/
    In u (revoked st).
Proof.
  unfold handleClearAll. split; [reflexivity|]. split.
  - simpl. generalize st. induction snapshot as [|a l IH]; intros s; simpl;
      [reflexivity|].
    rewrite IH. unfold revokeItem.
    destruct (processedUrl a) as [p|]; simpl; [|reflexivity]. now destruct (truthy p).
  - intros u. simpl. apply revoked_fold_revokeItem.
Qed.

Lemma handleClearAll_revokes_witness :
  files (handleClearAll (files afterThreeItems) afterThreeItems) = [] /\
  In "blob:c"%string (revoked (handleClearAll (files afterThreeItems) afterThreeItems)).
Proof.
  destruct (handleClearAll_revokes (files afterThreeItems) afterThreeItems)
    as (Hf & _ & Hr).
  split; [exact Hf|]. apply Hr. left.
  exists (nth 2 (files afterThreeItems) completedItem).
  split; [right; right; now left | now left].
Defined.

(** ** What a run does to each entry *)

Lemma sameOriginal_refl (f : ImageItem) : sameOriginal f f.
Proof. now repeat split. Qed.

Lemma sameOriginal_trans (f g h : ImageItem) :
  sameOriginal f g -> sameOriginal g h -> sameOriginal f h.
Proof.
  unfold sameOriginal. intros (A1 & A2 & A3 & A4 & A5 & A6) (B1 & B2 & B3 & B4 & B5 & B6).
  repeat split; congruence.
Qed.

Lemma sameOriginal_spread (f : ImageItem) (r : PartialItem) :
  pipelineResult r -> sameOriginal f (spread f r).
Proof.
  intros [(url & fmt & size & w & h & ->) | (msg & _ & ->)]; now repeat split.
Qed.

Lemma Forall2_map_same (g : ImageItem -> ImageItem) (l : list ImageItem) :
  (forall f, sameOriginal f (g f)) -> Forall2 sameOriginal l (map g l).
Proof.
  intros Hg. induction l as [|a l IH]; simpl; constructor; auto.
Qed.

Lemma Forall2_sameOriginal_refl (l : list ImageItem) : Forall2 sameOriginal l l.
Proof. induction l; constructor; auto using sameOriginal_refl. Qed.

Lemma Forall2_sameOriginal_trans (l1 l2 l3 : list ImageItem) :
  Forall2 sameOriginal l1 l2 -> Forall2 sameOriginal l2 l3 ->
  Forall2 sameOriginal l1 l3.
Proof.
  intros H. revert l3. induction H as [|a b l1 l2 Hab _ IH]; intros l3 H3;
    inversion H3; subst; constructor.
  - eapply sameOriginal_trans; eassumption.
  - now apply IH.
Qed.

Lemma processLoop_sameOriginal (env : Env) (options : ProcessingOptions)
    (items : list ImageItem) :
  forall st st',
    processLoop env options items [] st = Returned st' ->
    Forall2 sameOriginal (files st) (files st').
Proof.
  induction items as [|item rest IH]; intros st st'; simpl.
  - intros [= <-]. apply Forall2_sameOriginal_refl.
  - await_result env item options r Hr. intros Hloop.
    eapply Forall2_sameOriginal_trans; [|apply (IH _ _ Hloop)].
    rewrite files_mergeResult. simpl.
    eapply Forall2_sameOriginal_trans.
    + apply Forall2_map_same with
        (g := fun f => if String.eqb (id f) (id item) then toProcessing f else f).
      intros f. destruct (String.eqb (id f) (id item)); now repeat split.
    + fold (markProcessing item (files st)).
      destruct (existsb _ (markProcessing item (files st))).
      * apply Forall2_map_same. intros f.
        destruct (String.eqb (id f) (id item));
          [now apply sameOriginal_spread | apply sameOriginal_refl].
      * apply Forall2_sameOriginal_refl.
Qed.

(** X8. When nothing else touches the collection, a run keeps the number and
    the order of the entries and, for every entry, whether its processing
    succeeds or fails, its id, file, preview URL and original size, width
    and height. *)
Theorem run_keeps_originals (env : Env) (options : ProcessingOptions)
    (st st' : AppState) :
  handleProcessAll env options [] st = Returned st' ->
  Forall2 sameOriginal (files st) (files st') /\
  List.length (files st') = List.length (files st) /\
  map id (files st') = map id (files st).
Proof.
  intros Hrun. unfold handleProcessAll, bind in Hrun.
  destruct (processLoop env options (itemsToProcess (files st)) []
              (setIsProcessing true st)) as [st1|] eqn:Hloop; [|discriminate].
  injection Hrun as <-. simpl.
  apply processLoop_sameOriginal in Hloop. simpl in Hloop.
  split; [exact Hloop|].
  induction Hloop as [|a b l1 l2 Hab _ IH]; simpl; [auto|].
  destruct IH as [IH1 IH2]. destruct Hab as (E & _).
  split; congruence.
Qed.

Lemma run_keeps_originals_witness :
  map id (files afterThreeItems) = ["a"; "b"; "c"]%string /\
  Forall2 sameOriginal threeItems (files afterThreeItems).
Proof.
  destruct (run_keeps_originals (sampleEnv (Some someBlob)) sampleOptions
              (initialState threeItems) afterThreeItems) as (H2 & _ & Hid).
  - vm_compute. reflexivity.
  - split; [exact Hid | exact H2].
Defined.

(** X9. With unique ids and nothing else touching the collection, what a
    run leaves in the place of each candidate is that entry, marked
    'processing', overwritten with the result [processFile] returns for this
    very item: no item's outcome depends on another item's. *)
Theorem run_result_per_item (env : Env) (options : ProcessingOptions)
    (st st' : AppState) (n : nat) (f : ImageItem) :
  NoDup (map id (files st)) ->
  handleProcessAll env options [] st = Returned st' ->
  nth_error (files st) n = Some f ->
  In f (itemsToProcess (files st)) ->
  exists r,
    processFile env f options = Returned r /\
    nth_error (files st') n = Some (spread (toProcessing f) r).
Proof.
  intros Hnd Hrun Hn Hin. unfold handleProcessAll, bind in Hrun.
  destruct (processLoop env options (itemsToProcess (files st)) []
              (setIsProcessing true st)) as [st1|] eqn:Hloop; [|discriminate].
  injection Hrun as <-. simpl.
  assert (NoDup (map id (itemsToProcess (files st)))) as Hnd'.
  { unfold itemsToProcess.
    destruct ((List.length (filter isCandidate (files st)) =? 0)%nat && _);
      [assumption|].
    clear -Hnd. induction (files st) as [|a l IH]; simpl; [constructor|].
    inversion Hnd as [|? ? Ha Hl]; subst.
    destruct (isCandidate a); simpl; [|now apply IH].
    constructor; [|now apply IH].
    intros C. apply Ha. apply in_map_iff in C as (g & Eg & Hg).
    apply filter_In in Hg as [Hg _]. rewrite <- Eg. now apply in_map. }
  destruct (processLoop_results env options _ _ _ n f Hnd' Hloop Hn)
    as (item & r & Hitem & Eid & Hr & Hn'); [now apply in_map|].
  assert (item = f) as ->.
  { pose proof (nth_error_In _ _ Hn).
    apply (NoDup_id_inj (files st) Hnd); auto using itemsToProcess_incl. }
  now exists r.
Qed.

Lemma run_result_per_item_witness :
  exists r,
    processFile (sampleEnv (Some someBlob)) (sampleItem "b" "blob:corrupt") sampleOptions
      = Returned r /\
    nth_error (files afterThreeItems) 1
      = Some (spread (toProcessing (sampleItem "b" "blob:corrupt")) r).
Proof.
  apply (run_result_per_item (sampleEnv (Some someBlob)) sampleOptions
           (initialState threeItems) afterThreeItems 1
           (sampleItem "b" "blob:corrupt")).
  - repeat constructor; simpl; intuition discriminate.
  - vm_compute. reflexivity.
  - reflexivity.
  - right. now left.
Defined.

(** ** Object URLs under a merge *)

Lemma option_string_eqb_eq (a b : option string) :
  option_string_eqb a b = true <-> a = b.
Proof.
  destruct a as [x|], b as [y|]; simpl; split; try discriminate; auto.
  - intros H. apply String.eqb_eq in H. now subst.
  - intros [= ->]. apply String.eqb_refl.
Qed.

Lemma revoked_fold_merge (i : string) (new : option string) (l : list ImageItem) :
  forall (st : AppState) (u : string),
    In u (revoked
            (fold_left
               (fun s f =>
                  if String.eqb (id f) i then
                    match processedUrl f with
                    | Some p =>
                        if truthy p && negb (option_string_eqb (processedUrl f) new)
                        then revokeObjectURL p s else s
                    | None => s
                    end
                  else s) l st)) <->
    In u (revoked st) \/
    exists f, In f l /\ id f = i /\ processedUrl f = Some u /\
              truthy u = true /\ new <> Some u.
Proof.
  induction l as [|a l IH]; intros st u; simpl.
  - split; [now left | intros [H|(f & [] & _)]; exact H].
  - rewrite IH. clear IH.
    destruct (String.eqb_spec (id a) i) as [E|E].
    + destruct (processedUrl a) as [p|] eqn:Ep.
      * destruct (truthy p) eqn:T; cbn [andb].
        -- destruct (option_string_eqb (Some p) new) eqn:Q; cbn [negb].
           ++ apply option_string_eqb_eq in Q. split.
              ** intros [H|(f & Hf & H)]; [now left | right; exists f; auto].
              ** intros [H|(f & [<-|Hf] & Ef & Eu & Tu & Hne)]; [now left | |].
                 { rewrite Ep in Eu. injection Eu as ->. now elim Hne. }
                 { right. exists f. auto. }
           ++ assert (new <> Some p) as Hne.
              { intros C. rewrite C in Q. simpl in Q.
                rewrite String.eqb_refl in Q. discriminate. }
              split.
              ** intros [[<-|H]|(f & Hf & H)].
                 { right. exists a. auto 10. }
                 { now left. }
                 { right. exists f. auto. }
              ** intros [H|(f & [<-|Hf] & Ef & Eu & Tu & Hn)].
                 { left. now right. }
                 { rewrite Ep in Eu. injection Eu as ->. left. now left. }
                 { right. exists f. auto. }
        -- split.
           ++ intros [H|(f & Hf & H)]; [now left | right; exists f; auto].
           ++ intros [H|(f & [<-|Hf] & Ef & Eu & Tu & Hn)]; [now left | |].
              { rewrite Ep in Eu. injection Eu as ->. congruence. }
              { right. exists f. auto. }
      * split.
        -- intros [H|(f & Hf & H)]; [now left | right; exists f; auto].
        -- intros [H|(f & [<-|Hf] & Ef & Eu & Tu & Hn)]; [now left | |].
           { congruence. }
           { right. exists f. auto. }
    + split.
      * intros [H|(f & Hf & H)]; [now left | right; exists f; auto].
      * intros [H|(f & [<-|Hf] & Ef & Eu & Tu & Hn)]; [now left | |].
        { now elim E. }
        { right. exists f. auto. }
Qed.

(** X10. A merge revokes, on top of what was revoked before, exactly the
    processed URLs it replaces in the entries with the item's id or, when
    the collection has no such entry, the result's own URL.  So the URL it
    installs in an entry is never revoked by it, and the URL a re-run
    replaces always is. *)
Theorem mergeResult_revokes (item : ImageItem) (result : PartialItem)
    (st : AppState) (u : string) :
  let present := existsb (fun f => String.eqb (id f) (id item)) (files st) in
  let new := get (p_processedUrl result) in
  (In u (revoked (mergeResult item result st)) <->
   In u (revoked st) \/
   (present = true /\
    exists f, In f (files st) /\ id f = id item /\ processedUrl f = Some u /\
              truthy u = true /\ new <> Some u) \/
   (present = false /\ new = Some u /\ truthy u = true)) /\
  (present = true -> new = Some u -> ~ In u (revoked st) ->
   ~ In u (revoked (mergeResult item result st))).
Proof.
  intros present new.
  assert (In u (revoked (mergeResult item result st)) <->
          In u (revoked st) \/
          (present = true /\
           exists f, In f (files st) /\ id f = id item /\ processedUrl f = Some u /\
                     truthy u = true /\ new <> Some u) \/
          (present = false /\ new = Some u /\ truthy u = true)) as Hiff.
  { unfold mergeResult. fold present. fold new.
    destruct present; simpl.
    - rewrite revoked_fold_merge. split.
      + intros [H|H]; [now left | right; left; auto].
      + intros [H|[[_ H]|[C _]]]; [now left | now right | discriminate].
    - rewrite revoked_revokeIfSet. destruct new as [p|].
      + destruct (truthy p) eqn:T; simpl.
        * split.
          -- intros [<-|H]; [right; right; auto | now left].
          -- intros [H|[[C _]|(_ & [= ->] & _)]]; [now right | discriminate | now left].
        * split; [now left|].
          intros [H|[[C _]|(_ & [= ->] & T')]]; [assumption | discriminate | congruence].
      + split; [now left|].
        intros [H|[[C _]|(_ & C & _)]]; [assumption | discriminate | discriminate]. }
  split; [exact Hiff|].
  intros Hp Hnew Hnot Hin. apply Hiff in Hin as [H|[(_ & f & _ & _ & _ & _ & Hne)|(C & _)]].
  - contradiction.
  - now elim Hne.
  - congruence.
Qed.

Lemma mergeResult_revokes_witness :
  let item := completedItem in
  let result := completedResult "blob:new" image_webp (Number.of_Z 99)
                  (Number.of_Z 500) (Number.of_Z 250) in
  let st := initialState [completedItem] in
  In "blob:out"%string (revoked (mergeResult item result st)) /\
  ~ In "blob:new"%string (revoked (mergeResult item result st)).
Proof.
  intros item result st. split.
  - apply (proj1 (mergeResult_revokes item result st "blob:out")).
    right. left. split; [reflexivity|].
    exists completedItem. split; [now left|].
    repeat split; try reflexivity. discriminate.
  - apply (proj2 (mergeResult_revokes item result st "blob:new"));
      [reflexivity | reflexivity | intros []].
Defined.

(** ** The label of the run button *)

Lemma filter_all {A : Type} (p : A -> bool) (l : list A) :
  Forall (fun a => p a = true) l -> filter p l = l.
Proof.
  induction 1 as [|a l Ha _ IH]; simpl; [reflexivity|]. now rewrite Ha, IH.
Qed.

Lemma filter_none_existsb {A : Type} (p : A -> bool) (l : list A) :
  (List.length (filter p l) =? 0)%nat = negb (existsb p l).
Proof.
  induction l as [|a l IH]; simpl; [reflexivity|].
  destruct (p a); simpl; [reflexivity | exact IH].
Qed.

Lemma filter_same_all {A : Type} (p : A -> bool) (l : list A) :
  filter p l = l -> forall a, In a l -> p a = true.
Proof.
  induction l as [|b l IH]; simpl; [contradiction|].
  destruct (p b) eqn:Hb.
  - intros [= E] a [<-|Ha]; [assumption | now apply IH].
  - intros E. pose proof (filter_length_le p l) as Hle.
    rewrite E in Hle. simpl in Hle. lia.
Qed.

(** X11. The page offers to re-process exactly when the collection is not
    empty and holds no idle and no failed item; that is exactly the
    condition of line 123 under which a run falls back to the whole
    collection.  A run then takes the whole collection, and otherwise the
    idle and the failed items only; so a run takes the whole collection
    exactly when the page offers to re-process or every item is idle or
    failed. *)
Theorem showReprocess_spec (fs : list ImageItem) :
  (showReprocess fs = true <->
   fs <> [] /\ forall f, In f fs -> status f <> Idle /\ status f <> Error) /\
  (showReprocess fs = true -> itemsToProcess fs = fs) /\
  (showReprocess fs = false -> itemsToProcess fs = filter isCandidate fs) /\
  showReprocess fs =
    ((List.length (filter isCandidate fs) =? 0)%nat && (0 <? List.length fs)%nat) /\
  (itemsToProcess fs = fs <->
   showReprocess fs = true \/
   forall f, In f fs -> status f = Idle \/ status f = Error).
Proof.
  assert (hasIdleOrError fs = false <->
          forall f, In f fs -> status f <> Idle /\ status f <> Error) as Hnone.
  { unfold hasIdleOrError. split.
    - intros H f Hf.
      assert (isCandidate f = false) as Hc.
      { destruct (isCandidate f) eqn:E; [|reflexivity].
        assert (existsb isCandidate fs = true) as C
          by (apply existsb_exists; now exists f).
        congruence. }
      unfold isCandidate in Hc. destruct (status f); split; discriminate.
    - intros H. destruct (existsb isCandidate fs) eqn:E; [|reflexivity].
      apply existsb_exists in E as (f & Hf & Hc).
      apply isCandidate_spec in Hc. specialize (H f Hf). tauto. }
  assert (showReprocess fs = true <->
          fs <> [] /\ forall f, In f fs -> status f <> Idle /\ status f <> Error)
    as Hshow.
  { unfold showReprocess. rewrite andb_true_iff, negb_true_iff, Hnone.
    destruct fs; simpl; split; intros [H1 H2]; split; auto; discriminate. }
  assert (showReprocess fs = true -> itemsToProcess fs = fs) as Hall.
  { intros H. apply Hshow in H as [_ H]. apply itemsToProcess_none.
    intros g Hg. specialize (H g Hg). unfold isCandidate.
    destruct (status g); tauto. }
  assert (showReprocess fs = false -> itemsToProcess fs = filter isCandidate fs)
    as Hsome.
  { intros H. unfold showReprocess in H. apply andb_false_iff in H as [H|H].
    + destruct fs; [reflexivity | discriminate].
    + apply negb_false_iff in H. unfold hasIdleOrError in H.
      apply existsb_exists in H. now apply itemsToProcess_some. }
  split; [exact Hshow|]. split; [exact Hall|]. split; [exact Hsome|]. split.
  - unfold showReprocess, hasIdleOrError. rewrite filter_none_existsb.
    apply andb_comm.
  - split.
    + intros E. destruct (showReprocess fs) eqn:Hs; [now left|]. right.
      rewrite (Hsome eq_refl) in E. intros f Hf.
      apply isCandidate_spec. now apply (filter_same_all isCandidate fs E).
    + intros [H|H]; [now apply Hall|].
      destruct (showReprocess fs) eqn:Hs; [now apply Hall|].
      rewrite (Hsome eq_refl). apply filter_all.
      apply Forall_forall. intros f Hf. apply isCandidate_spec. now apply H.
Qed.

Lemma showReprocess_spec_witness :
  showReprocess (files afterThreeItems) = false /\
  showReprocess [completedItem] = true /\
  itemsToProcess [completedItem] = [completedItem].
Proof.
  split; [reflexivity|]. split; [reflexivity|].
  apply (proj1 (proj2 (showReprocess_spec [completedItem]))). reflexivity.
Defined.

(** ** The names in the archive *)

Lemma list_ascii_of_string_app (s1 s2 : string) :
  list_ascii_of_string (s1 ++ s2) = list_ascii_of_string s1 ++ list_ascii_of_string s2.
Proof. induction s1 as [|c s1 IH]; simpl; [reflexivity | now rewrite IH]. Qed.

Lemma list_ascii_of_string_inj (s1 s2 : string) :
  list_ascii_of_string s1 = list_ascii_of_string s2 -> s1 = s2.
Proof.
  intros H. rewrite <- (string_of_list_ascii_of_string s1),
              <- (string_of_list_ascii_of_string s2). now rewrite H.
Qed.

(** Two ways of cutting a list at its last element outside [p] agree. *)
Lemma split_last (p : ascii -> bool) (X : list ascii) :
  forall (X' : list ascii) (c c' : ascii) (S S' : list ascii),
    X ++ c :: S = X' ++ c' :: S' ->
    p c = false -> p c' = false ->
    forallb p S = true -> forallb p S' = true ->
    X = X' /\ c = c' /\ S = S'.
Proof.
  induction X as [|x X IH]; intros X' c c' S S' E Hc Hc' HS HS'.
  - destruct X' as [|x' X']; simpl in E.
    + injection E as -> ->. auto.
    + injection E as -> ->. rewrite forallb_app in HS. simpl in HS.
      rewrite Hc' in HS. rewrite andb_false_r in HS. discriminate.
  - destruct X' as [|x' X']; simpl in E.
    + injection E as <- <-. rewrite forallb_app in HS'. simpl in HS'.
      rewrite Hc in HS'. rewrite andb_false_r in HS'. discriminate.
    + injection E as -> E. destruct (IH _ _ _ _ _ E Hc Hc' HS HS') as (-> & -> & ->).
      auto.
Qed.

Lemma decimal_digits (n : nat) :
  forallb isDigit (list_ascii_of_string (decimal n)) = true.
Proof.
  unfold decimal. induction (Nat.to_uint n) as [|d IH|d IH|d IH|d IH|d IH|d IH|d IH|d IH|d IH|d IH];
    simpl; [reflexivity | exact IH ..].
Qed.

Lemma decimal_inj (n m : nat) : decimal n = decimal m -> n = m.
Proof.
  unfold decimal. intros H. apply Unsigned.to_uint_inj.
  assert (Some (Nat.to_uint n) = Some (Nat.to_uint m)) as E
    by (rewrite <- !NilEmpty.usu; now rewrite H).
  now injection E.
Qed.

Lemma extensionOf_cases (t : string) :
  extensionOf t = "jpg"%string \/ extensionOf t = "png"%string \/
  extensionOf t = "webp"%string.
Proof.
  unfold extensionOf. destruct (String.eqb t "image/png"); [auto|].
  destruct (String.eqb t "image/webp"); auto.
Qed.

Lemma extensionOf_notDot (t : string) :
  forallb notDot (list_ascii_of_string (extensionOf t)) = true.
Proof. destruct (extensionOf_cases t) as [-> | [-> | ->]]; reflexivity. Qed.

(** A numbered name tells its stem, its number and its extension. *)
Lemma numbered_inj (b b' : string) (k k' : nat) (t t' : string) :
  (b ++ "_optimized_" ++ decimal k ++ "." ++ extensionOf t)%string =
  (b' ++ "_optimized_" ++ decimal k' ++ "." ++ extensionOf t')%string ->
  b = b' /\ k = k' /\ extensionOf t = extensionOf t'.
Proof.
  intros E. apply (f_equal list_ascii_of_string) in E.
  rewrite !list_ascii_of_string_app in E.
  change (list_ascii_of_string ".") with ["."%char] in E.
  change (list_ascii_of_string "_optimized_")
    with (list_ascii_of_string "_optimized" ++ ["_"%char]) in E.
  rewrite !app_assoc in E. rewrite <- !(app_assoc _ ["."%char]) in E.
  simpl ([_] ++ _) in E.
  apply split_last with (p := notDot) in E as (E & _ & Ee);
    try reflexivity; try apply extensionOf_notDot.
  rewrite <- !(app_assoc _ ["_"%char]) in E. simpl ([_] ++ _) in E.
  apply split_last with (p := isDigit) in E as (E & _ & Ek);
    try reflexivity; try apply decimal_digits.
  apply app_inv_tail in E.
  split; [now apply list_ascii_of_string_inj|].
  split; [apply decimal_inj; now apply list_ascii_of_string_inj|].
  now apply list_ascii_of_string_inj.
Qed.

(** A plain name is never a numbered one. *)
Lemma plain_not_numbered (b b' : string) (k : nat) (t t' : string) :
  (b ++ "_optimized." ++ extensionOf t)%string <>
  (b' ++ "_optimized_" ++ decimal k ++ "." ++ extensionOf t')%string.
Proof.
  intros E. apply (f_equal list_ascii_of_string) in E.
  rewrite !list_ascii_of_string_app in E.
  change (list_ascii_of_string ".") with ["."%char] in E.
  change (list_ascii_of_string "_optimized.")
    with (list_ascii_of_string "_optimize" ++ ["d"%char] ++ ["."%char]) in E.
  change (list_ascii_of_string "_optimized_")
    with (list_ascii_of_string "_optimized" ++ ["_"%char]) in E.
  rewrite !app_assoc in E. rewrite <- !(app_assoc _ ["."%char]) in E.
  simpl ([_] ++ _) in E.
  apply split_last with (p := notDot) in E as (E & _ & _);
    try reflexivity; try apply extensionOf_notDot.
  rewrite <- (app_assoc _ ["_"%char]) in E. simpl ([_] ++ _) in E.
  rewrite <- (app_nil_r (_ ++ ["d"%char])) in E.
  rewrite <- (app_assoc _ ["d"%char]) in E. simpl ([_] ++ _) in E.
  apply split_last with (p := isDigit) in E as (_ & C & _);
    try reflexivity; try apply decimal_digits.
  discriminate.
Qed.

Lemma NoDup_snoc {A : Type} (l : list A) (x : A) :
  NoDup l -> ~ In x l -> NoDup (l ++ [x]).
Proof.
  induction l as [|a l IH]; intros Hl Hx; simpl.
  - constructor; [intros [] | constructor].
  - inversion Hl as [|? ? Ha Hl']; subst. constructor.
    + rewrite in_app_iff. intros [H | [-> | []]]; [now apply Ha | apply Hx; now left].
    + apply IH; [assumption | intros H; apply Hx; now right].
Qed.

Lemma namesInv_nil : namesInv [] [].
Proof.
  split; [constructor|]. split; [intros key c H; discriminate | intros name []].
Qed.

(** The first file of a plain name takes that name. *)
Lemma namesInv_plain (usedNames : list (string * nat)) (names : list string)
    (b t : string) :
  namesInv usedNames names ->
  lookupName usedNames (b ++ "_optimized." ++ extensionOf t)%string = None ->
  namesInv (((b ++ "_optimized." ++ extensionOf t)%string, 1%nat) :: usedNames)
           (names ++ [(b ++ "_optimized." ++ extensionOf t)%string]).
Proof.
  intros (Hnd & Hkeys & Hnames) Hnone.
  set (P := (b ++ "_optimized." ++ extensionOf t)%string) in *.
  split; [|split].
  - apply NoDup_snoc; [assumption|]. intros Hin.
    destruct (Hnames _ Hin) as [[c Hc] | (b' & t' & k & c & _ & _ & E)].
    + rewrite Hnone in Hc. discriminate.
    + now apply plain_not_numbered in E.
  - intros key c. cbn [lookupName]. destruct (String.eqb P key) eqn:E.
    + apply String.eqb_eq in E. subst key. intros [= <-].
      split; [lia | now exists b, t].
    + apply Hkeys.
  - intros name Hin. apply in_app_iff in Hin as [Hin | [<- | []]].
    + destruct (Hnames _ Hin) as [[c Hc] | (b' & t' & k & c & Hc & Hk & E)].
      * left. cbn [lookupName]. destruct (String.eqb P name); eauto.
      * right. exists b', t', k. cbn [lookupName].
        destruct (String.eqb P _) eqn:E'.
        -- apply String.eqb_eq in E'. rewrite <- E' in Hc. rewrite Hnone in Hc.
           discriminate.
        -- exists c. auto.
    + left. exists 1%nat. cbn [lookupName]. now rewrite String.eqb_refl.
Qed.

(** A later file of the same plain name takes the next number. *)
Lemma namesInv_numbered (usedNames : list (string * nat)) (names : list string)
    (b t : string) (count : nat) :
  namesInv usedNames names ->
  lookupName usedNames (b ++ "_optimized." ++ extensionOf t)%string = Some (S count) ->
  namesInv (((b ++ "_optimized." ++ extensionOf t)%string, S (S count)) :: usedNames)
           (names ++ [(b ++ "_optimized_" ++ decimal (S (S count)) ++ "."
                         ++ extensionOf t)%string]).
Proof.
  intros (Hnd & Hkeys & Hnames) Hsome.
  set (P := (b ++ "_optimized." ++ extensionOf t)%string) in *.
  split; [|split].
  - apply NoDup_snoc; [assumption|]. intros Hin.
    destruct (Hnames _ Hin) as [[c Hc] | (b' & t' & k & c & Hc & Hk & E)].
    + destruct (Hkeys _ _ Hc) as (_ & b' & t' & E).
      symmetry in E. now apply plain_not_numbered in E.
    + apply numbered_inj in E as (-> & <- & Ee). rewrite <- Ee in Hc.
      fold P in Hc. rewrite Hsome in Hc. injection Hc as <-. lia.
  - intros key c. cbn [lookupName]. destruct (String.eqb P key) eqn:E.
    + apply String.eqb_eq in E. subst key. intros [= <-].
      split; [lia | now exists b, t].
    + apply Hkeys.
  - intros name Hin. apply in_app_iff in Hin as [Hin | [<- | []]].
    + destruct (Hnames _ Hin) as [[c Hc] | (b' & t' & k & c & Hc & Hk & E)].
      * left. cbn [lookupName]. destruct (String.eqb P name); eauto.
      * right. exists b', t', k. cbn [lookupName].
        destruct (String.eqb P _) eqn:E'.
        -- apply String.eqb_eq in E'. rewrite <- E' in Hc. rewrite Hsome in Hc.
           injection Hc as <-. exists (S (S count)). repeat split; auto; lia.
        -- exists c. auto.
    + right. exists b, t, (S (S count)), (S (S count)). fold P. cbn [lookupName].
      rewrite String.eqb_refl. repeat split; auto; lia.
Qed.

Lemma zipLoop_namesInv (fetchBlob : string -> Completion Blob)
    (processedFiles : list ImageItem) :
  forall usedNames zip,
    namesInv usedNames (map fst zip) ->
    NoDup (map fst (zipLoop fetchBlob processedFiles usedNames zip)).
Proof.
  induction processedFiles as [|f rest IH]; intros usedNames zip Hinv; simpl.
  - apply Hinv.
  - destruct (processedUrl f) as [url|]; [|now apply IH].
    destruct (truthy url); [|now apply IH].
    destruct (fetchBlob url) as [blob|e]; [|now apply IH].
    destruct (lookupName usedNames _) as [[|count]|] eqn:Hl.
    + destruct Hinv as (_ & Hkeys & _). apply Hkeys in Hl as (Hl & _). lia.
    + apply IH. rewrite map_app. simpl. now apply namesInv_numbered.
    + apply IH. rewrite map_app. simpl. now apply namesInv_plain.
Qed.

Lemma zipLoop_blobs (fetchBlob : string -> Completion Blob)
    (processedFiles : list ImageItem) :
  forall usedNames zip,
    map snd (zipLoop fetchBlob processedFiles usedNames zip) =
    map snd zip ++ fetchedBlobs fetchBlob processedFiles.
Proof.
  induction processedFiles as [|f rest IH]; intros usedNames zip; simpl.
  - now rewrite app_nil_r.
  - destruct (processedUrl f) as [url|]; [|now apply IH].
    destruct (truthy url); [|now apply IH].
    destruct (fetchBlob url) as [blob|e]; [|now apply IH].
    destruct (lookupName usedNames _) as [[|count]|];
      rewrite IH, map_app, <- app_assoc; reflexivity.
Qed.

Lemma zipLoop_plain (fetchBlob : string -> Completion Blob)
    (processedFiles : list ImageItem) :
  forall usedNames zip,
    NoDup (plainNames fetchBlob processedFiles) ->
    (forall key, In key (plainNames fetchBlob processedFiles) ->
                 lookupName usedNames key = None) ->
    map fst (zipLoop fetchBlob processedFiles usedNames zip) =
    map fst zip ++ plainNames fetchBlob processedFiles.
Proof.
  induction processedFiles as [|f rest IH]; intros usedNames zip Hnd Hnone.
  - simpl. now rewrite app_nil_r.
  - cbn [zipLoop]. cbn [plainNames flat_map] in Hnd, Hnone |- *.
    fold (plainNames fetchBlob rest) in Hnd, Hnone |- *.
    destruct (processedUrl f) as [url|]; [|now apply IH].
    destruct (truthy url); [|now apply IH].
    destruct (fetchBlob url) as [blob|e]; [|now apply IH].
    cbv zeta. cbn [app] in Hnd, Hnone |- *.
    rewrite (Hnone _ (or_introl eq_refl)).
    inversion Hnd as [|? ? Hnotin Hnd']; subst.
    rewrite IH; [now rewrite map_app, <- app_assoc | assumption |].
    intros key Hin. cbn [lookupName].
    destruct (String.eqb _ key) eqn:E.
    + apply String.eqb_eq in E. subst key. contradiction.
    + apply Hnone. now right.
Qed.

(** X12. Downloading does nothing when no item is completed with an output
    URL; otherwise the names given to [zip.file] are pairwise distinct, so no
    entry of the archive overwrites another, and the entries are the blobs
    that could be fetched, in the order of the collection (an item whose
    fetch fails is left out).  ([handleDownloadAll], lines 160-203.) *)
Theorem archive_names_distinct (fetchBlob : string -> Completion Blob)
    (files : list ImageItem) :
  match handleDownloadAll fetchBlob files with
  | None => processedFiles files = []
  | Some zip =>
      processedFiles files <> [] /\
      NoDup (map fst zip) /\
      map snd zip = fetchedBlobs fetchBlob (processedFiles files)
  end.
Proof.
  unfold handleDownloadAll.
  destruct (processedFiles files) as [|f rest] eqn:E; simpl (_ =? _)%nat; cbv iota.
  - reflexivity.
  - split; [discriminate|]. split.
    + apply zipLoop_namesInv. apply namesInv_nil.
    + now rewrite zipLoop_blobs.
Qed.

Lemma zipLoop_numberedFrom (fetchBlob : string -> Completion Blob)
    (processedFiles : list ImageItem) :
  forall usedNames zip seen,
    (forall key, lookupName usedNames key =
                 match count_occ string_dec seen key with
                 | O => None
                 | S c => Some (S c)
                 end) ->
    map fst (zipLoop fetchBlob processedFiles usedNames zip) =
    map fst zip ++ numberedFrom seen (fetchedStems fetchBlob processedFiles).
Proof.
  induction processedFiles as [|f rest IH]; intros usedNames zip seen Hinv.
  - simpl. now rewrite app_nil_r.
  - cbn [zipLoop fetchedStems flat_map].
    fold (fetchedStems fetchBlob rest).
    destruct (processedUrl f) as [url|]; [|now apply IH].
    destruct (truthy url); [|now apply IH].
    destruct (fetchBlob url) as [blob|e]; [|now apply IH].
    cbv zeta. simpl (_ ++ fetchedStems _ _). cbn [numberedFrom]. rewrite Hinv.
    set (P := (baseName (file_name (file f)) ++ "_optimized."
                 ++ extensionOf (blob_type blob))%string).
    assert (forall c key,
              count_occ string_dec seen P = c ->
              lookupName ((P, S c) :: usedNames) key =
              match count_occ string_dec (P :: seen) key with
              | O => None
              | S c => Some (S c)
              end) as Hstep.
    { intros c key Hc. cbn [lookupName count_occ].
      destruct (string_dec P key) as [<-|Hne].
      - now rewrite String.eqb_refl, Hc.
      - apply String.eqb_neq in Hne. rewrite Hne. apply Hinv. }
    destruct (count_occ string_dec seen P) as [|c] eqn:Hc.
    + rewrite (IH _ _ (P :: seen)) by (intros key; apply Hstep; reflexivity).
      now rewrite map_app, <- app_assoc.
    + rewrite (IH _ _ (P :: seen)) by (intros key; apply Hstep; reflexivity).
      now rewrite map_app, <- app_assoc.
Qed.

Lemma plainNames_fetchedStems (fetchBlob : string -> Completion Blob)
    (files : list ImageItem) :
  plainNames fetchBlob files =
  map (fun s => (fst s ++ "_optimized." ++ snd s)%string)
      (fetchedStems fetchBlob files).
Proof.
  induction files as [|f rest IH]; [reflexivity|].
  cbn [plainNames fetchedStems flat_map].
  fold (plainNames fetchBlob rest). fold (fetchedStems fetchBlob rest).
  rewrite map_app, <- IH.
  destruct (processedUrl f) as [url|]; [|reflexivity].
  destruct (truthy url); [|reflexivity].
  now destruct (fetchBlob url).
Qed.

Lemma numberedFrom_nth (stems : list (string * string)) :
  forall seen i b ext,
    nth_error stems i = Some (b, ext) ->
    nth_error (numberedFrom seen stems) i =
    Some (match (count_occ string_dec seen (b ++ "_optimized." ++ ext)%string +
                 count_occ string_dec
                   (firstn i (map (fun s => (fst s ++ "_optimized." ++ snd s)%string)
                                  stems))
                   (b ++ "_optimized." ++ ext)%string)%nat with
          | O => (b ++ "_optimized." ++ ext)%string
          | S k => (b ++ "_optimized_" ++ decimal (S (S k)) ++ "." ++ ext)%string
          end).
Proof.
  induction stems as [|[b0 e0] rest IH]; intros seen i b ext Hn.
  - now destruct i.
  - destruct i as [|i]; cbn [nth_error numberedFrom] in *.
    + injection Hn as -> ->. cbn [firstn count_occ]. now rewrite Nat.add_0_r.
    + rewrite (IH _ _ _ _ Hn). cbn [map firstn count_occ fst snd].
      destruct (string_dec _ _); [|reflexivity].
      now rewrite Nat.add_succ_r.
Qed.

(** X13. The name of each entry of the archive, by counting: the file at a
    place among the fetched ones keeps its plain name [b_optimized.ext] when
    no fetched file before it has that plain name, and is named
    [b_optimized_(k+1).ext] when [k >= 1] of them have.  So the files that
    share a base name and an extension are archived as [b_optimized.ext],
    [b_optimized_2.ext], [b_optimized_3.ext], ... in the order of the
    collection, whatever other files lie between them.
    ([handleDownloadAll], lines 181-199.) *)
Theorem archive_same_name_numbering (fetchBlob : string -> Completion Blob)
    (files : list ImageItem) (zip : list (string * Blob))
    (i : nat) (b ext : string) :
  handleDownloadAll fetchBlob files = Some zip ->
  nth_error (fetchedStems fetchBlob (processedFiles files)) i = Some (b, ext) ->
  nth_error (map fst zip) i =
  Some (match count_occ string_dec
                (firstn i (plainNames fetchBlob (processedFiles files)))
                (b ++ "_optimized." ++ ext)%string with
        | O => (b ++ "_optimized." ++ ext)%string
        | S k => (b ++ "_optimized_" ++ decimal (S (S k)) ++ "." ++ ext)%string
        end).
Proof.
  unfold handleDownloadAll.
  destruct (_ =? _)%nat; [discriminate|]. intros [= <-] Hn.
  rewrite (zipLoop_numberedFrom fetchBlob _ [] [] []) by reflexivity.
  cbn [map]. rewrite app_nil_l, (numberedFrom_nth _ [] _ _ _ Hn).
  now rewrite plainNames_fetchedStems.
Qed.

Lemma archive_same_name_numbering_witness :
  nth_error (map fst (zipLoop sampleFetch (processedFiles mixedArchive) [] [])) 2 =
  Some "photo_optimized_2.webp"%string.
Proof.
  apply (archive_same_name_numbering sampleFetch mixedArchive
           (zipLoop sampleFetch (processedFiles mixedArchive) [] [])
           2 "photo" "webp"); reflexivity.
Defined.

(** X14. When the plain names [baseName_optimized.ext] of the files that
    are fetched are pairwise distinct, every entry of the archive has its
    plain name: no number is added.  ([handleDownloadAll], lines 190-199.) *)
Theorem archive_plain_names (fetchBlob : string -> Completion Blob)
    (files : list ImageItem) (zip : list (string * Blob)) :
  NoDup (plainNames fetchBlob (processedFiles files)) ->
  handleDownloadAll fetchBlob files = Some zip ->
  map fst zip = plainNames fetchBlob (processedFiles files).
Proof.
  intros Hnd. unfold handleDownloadAll.
  destruct (_ =? _)%nat; [discriminate|]. intros [= <-].
  rewrite zipLoop_plain; [reflexivity | assumption | reflexivity].
Qed.

Lemma archive_plain_names_witness :
  map fst (zipLoop sampleFetch
             (processedFiles
                [completedNamed "a" "photo.png" "blob:1";
                 sampleItem "i" "blob:i";
                 completedNamed "b" "scan.final.png" "blob:2";
                 completedNamed "c" "lost.png" "blob:gone"]) [] []) =
  ["photo_optimized.webp"; "scan.final_optimized.webp"]%string.
Proof.
  apply (archive_plain_names sampleFetch
           [completedNamed "a" "photo.png" "blob:1";
            sampleItem "i" "blob:i";
            completedNamed "b" "scan.final.png" "blob:2";
            completedNamed "c" "lost.png" "blob:gone"]).
  - vm_compute. repeat constructor; simpl; intuition discriminate.
  - reflexivity.
Defined.

Lemma lastIndexOfDot_none (s : string) :
  forallb notDot (list_ascii_of_string s) = true -> lastIndexOfDot s = None.
Proof.
  induction s as [|c s IH]; simpl; [reflexivity|].
  intros H. apply andb_true_iff in H as [Hc Hs]. rewrite (IH Hs).
  unfold notDot in Hc. now destruct (Ascii.eqb c ".").
Qed.

Lemma lastIndexOfDot_app (stem ext : string) :
  forallb notDot (list_ascii_of_string ext) = true ->
  lastIndexOfDot (stem ++ "." ++ ext) = Some (String.length stem).
Proof.
  intros H. induction stem as [|c stem IH].
  - simpl. now rewrite (lastIndexOfDot_none _ H).
  - cbn [String.append lastIndexOfDot String.length] in *. now rewrite IH.
Qed.

Lemma substring_prefix (s t : string) :
  substring 0 (String.length s) (s ++ t) = s.
Proof.
  induction s as [|c s IH]; simpl.
  - now destruct t.
  - now rewrite IH.
Qed.

(** X15. The base name of an archive entry: a file name is cut at its last
    dot, so a stem that itself holds dots is kept whole; a name without a
    dot, and a name whose only dot comes first (the stem would be empty), is
    taken as it is.  ([handleDownloadAll], line 188.) *)
Theorem baseName_cases (stem ext : string) :
  forallb notDot (list_ascii_of_string ext) = true ->
  baseName ext = ext /\
  baseName ("." ++ ext) = ("." ++ ext)%string /\
  (stem <> ""%string -> baseName (stem ++ "." ++ ext) = stem).
Proof.
  intros H. unfold baseName. split; [|split].
  - now rewrite (lastIndexOfDot_none _ H).
  - pose proof (lastIndexOfDot_app "" ext H) as E.
    change ("" ++ "." ++ ext)%string with ("." ++ ext)%string in E.
    rewrite E. reflexivity.
  - intros Hstem. rewrite (lastIndexOfDot_app stem ext H), substring_prefix.
    unfold or_else, truthy. destruct (String.eqb stem "") eqn:E; [|reflexivity].
    now apply String.eqb_eq in E.
Qed.

Lemma baseName_cases_witness :
  baseName "png" = "png"%string /\
  baseName ".png" = ".png"%string /\
  baseName "scan.final.png" = "scan.final"%string.
Proof.
  destruct (baseName_cases "scan.final" "png" eq_refl) as (Hnone & Hfirst & Hcut).
  split; [exact Hnone | split; [exact Hfirst | apply Hcut; discriminate]].
Defined.

(** ** Dropping files in *)

Lemma droppedItem_yields (env : DropEnv) (k : nat) (dropped : File) :
  match droppedItem env k dropped with
  | Some f =>
      yieldsItem env dropped = true /\
      id f = drop_generateId env k /\ status f = Idle /\ consistent f /\
      droppedFrom env dropped f
  | None => yieldsItem env dropped = false
  end.
Proof.
  unfold droppedItem, yieldsItem, droppedFrom.
  destruct (drop_isHeic env dropped) eqn:Hh.
  - destruct (drop_convertHeicToJpeg env dropped) as [converted|e] eqn:Hc;
      [|reflexivity].
    destruct (drop_loadImage env (drop_createObjectURL env converted)) eqn:Hl;
      cbn; rewrite ?Hh, ?Hl;
      repeat split; auto using consistent_newItem.
  - destruct (drop_loadImage env (drop_createObjectURL env dropped)) eqn:Hl;
      cbn; rewrite ?Hh, ?Hl;
      repeat split; auto using consistent_newItem.
Qed.

Lemma dropLoop_spec (env : DropEnv) (total : nat) (newFiles : list File) :
  forall processedCount st,
  exists new,
    files (app (dropLoop env total newFiles processedCount st)) =
      files (app st) ++ new /\
    isProcessing (app (dropLoop env total newFiles processedCount st)) =
      isProcessing (app st) /\
    revoked (app (dropLoop env total newFiles processedCount st)) =
      revoked (app st) /\
    uploadProgress (dropLoop env total newFiles processedCount st) =
      match newFiles with
      | [] => uploadProgress st
      | _ => Some ((processedCount + List.length newFiles)%nat, total)
      end /\
    Forall2 (fun dropped f => status f = Idle /\ consistent f /\
                              droppedFrom env dropped f)
            (filter (yieldsItem env) newFiles) new.
Proof.
  induction newFiles as [|dropped rest IH]; intros processedCount st.
  - exists []. simpl. rewrite app_nil_r. repeat split; constructor.
  - cbn [dropLoop].
    pose proof (droppedItem_yields env processedCount dropped) as Hd.
    destruct (droppedItem env processedCount dropped) as [f|];
      match goal with
      | |- context [dropLoop env total rest ?k ?s] =>
          destruct (IH k s) as (new & Hf & Hp & Hr & Hu & Hall)
      end;
      rewrite Hf, Hp, Hr, Hu; cbn [app uploadProgress files setFiles
                                   isProcessing revoked] in *.
    + destruct Hd as (Hy & _ & Hs & Hc & Hfrom).
      exists (f :: new). rewrite <- app_assoc. cbn [filter]. rewrite Hy.
      repeat split.
      * destruct rest; cbn [List.length]; f_equal; f_equal; lia.
      * constructor; auto.
    + exists new. cbn [filter]. rewrite Hd. repeat split.
      * destruct rest; cbn [List.length]; f_equal; f_equal; lia.
      * assumption.
Qed.

(** X16. When nothing else touches the collection, dropping files only
    appends: the entries there before stay, in their order; one idle item
    without output or error is added for every dropped file except a HEIC
    file whose conversion fails; nothing is revoked, the processing flag is
    untouched, and the upload progress ends at (n, n) for n dropped files.
    ([handleFilesDropped], lines 30-89.) *)
Theorem handleFilesDropped_appends (env : DropEnv) (newFiles : list File)
    (st : UploadState) :
  exists new,
    files (app (handleFilesDropped env newFiles st)) = files (app st) ++ new /\
    List.length new = List.length (filter (yieldsItem env) newFiles) /\
    Forall (fun f => status f = Idle /\ consistent f) new /\
    isProcessing (app (handleFilesDropped env newFiles st)) = isProcessing (app st) /\
    revoked (app (handleFilesDropped env newFiles st)) = revoked (app st) /\
    uploadProgress (handleFilesDropped env newFiles st) =
      Some (List.length newFiles, List.length newFiles).
Proof.
  unfold handleFilesDropped.
  destruct (dropLoop_spec env (List.length newFiles) newFiles 0
              {| app := app st;
                 uploadProgress := Some (0%nat, List.length newFiles) |})
    as (new & Hf & Hp & Hr & Hu & Hall).
  exists new. cbn [app uploadProgress] in *. repeat split; try assumption.
  - symmetry. eapply Forall2_length. exact Hall.
  - clear -Hall. induction Hall as [|? ? ? ? (Hs & Hc & _) _ IH]; constructor; auto.
  - rewrite Hu. now destruct newFiles.
Qed.

(** X17. Every item a drop adds records the size of the file as it was
    dropped, also when the item's file is the converted one; its preview
    URL is the object URL of the item's file (the converted file for a HEIC
    drop, the dropped file itself otherwise); and a file whose image cannot
    be loaded is added all the same, with original dimensions 0 x 0.
    ([handleFilesDropped], lines 37-81.) *)
Theorem dropped_items_record_the_drop (env : DropEnv) (newFiles : list File)
    (st : UploadState) :
  exists new,
    files (app (handleFilesDropped env newFiles st)) = files (app st) ++ new /\
    Forall2 (droppedFrom env) (filter (yieldsItem env) newFiles) new.
Proof.
  unfold handleFilesDropped.
  destruct (dropLoop_spec env (List.length newFiles) newFiles 0
              {| app := app st;
                 uploadProgress := Some (0%nat, List.length newFiles) |})
    as (new & Hf & _ & _ & _ & Hall).
  exists new. cbn [app] in *. split; [assumption|].
  clear -Hall. induction Hall as [|? ? ? ? (_ & _ & H) _ IH]; constructor; auto.
Qed.

Lemma handleFilesDropped_appends_witness :
  exists new,
    files (app (handleFilesDropped sampleDropEnv sampleDrop
                  {| app := initialState [completedItem];
                     uploadProgress := None |})) = [completedItem] ++ new /\
    List.length new = 3%nat /\
    Forall (fun f => status f = Idle /\ consistent f) new /\
    isProcessing (app (handleFilesDropped sampleDropEnv sampleDrop
                         {| app := initialState [completedItem];
                            uploadProgress := None |})) = false /\
    revoked (app (handleFilesDropped sampleDropEnv sampleDrop
                    {| app := initialState [completedItem];
                       uploadProgress := None |})) = [] /\
    uploadProgress (handleFilesDropped sampleDropEnv sampleDrop
                      {| app := initialState [completedItem];
                         uploadProgress := None |}) = Some (4%nat, 4%nat).
Proof.
  exact (handleFilesDropped_appends sampleDropEnv sampleDrop
           {| app := initialState [completedItem]; uploadProgress := None |}).
Defined.

Lemma dropped_items_record_the_drop_witness :
  exists new,
    files (app (handleFilesDropped sampleDropEnv sampleDrop
                  {| app := initialState []; uploadProgress := None |})) = new /\
    Forall2 (droppedFrom sampleDropEnv)
      [sampleFile;
       {| file_name := "holiday.heic"; file_type := "image/heic"; file_size := 5000 |};
       {| file_name := "corrupt"; file_type := "image/png"; file_size := 10 |}]
      new.
Proof.
  exact (dropped_items_record_the_drop sampleDropEnv sampleDrop
           {| app := initialState []; uploadProgress := None |}).
Defined.

(** ** What [processFile] reports *)



(** * Sums and differences of sizes *)

(** ** Rounding an exactly representable value *)

Lemma binary_round_aux_canonical_signed (s : bool) (m : positive) (e : Z) :
  2 ^ 52 <= Zpos m < 2 ^ 53 -> -1074 <= e <= 971 ->
  binary_round_aux 53 1024 s (Zpos m) e loc_Exact = S754_finite s m e.
Proof.
  intros Hm He. unfold binary_round_aux.
  rewrite shr_fexp_exact_small by lia. cbn [shr_m loc_of_shr_record round_nearest_even].
  rewrite shr_fexp_exact_small by lia. cbn [shr_m].
  assert ((e <=? 1024 - 53) = true) as -> by (apply Z.leb_le; lia).
  reflexivity.
Qed.

Lemma iter_shr_1_exact (n : positive) :
  forall m : positive,
    SpecFloat.iter_pos shr_1 n
      {| shr_m := Zpos (Pos.iter xO m n); shr_r := false; shr_s := false |} =
    {| shr_m := Zpos m; shr_r := false; shr_s := false |}.
Proof.
  induction n as [n IH|n IH|]; intros m; cbn [SpecFloat.iter_pos Pos.iter].
  - cbn [shr_1 orb]. now rewrite !IH.
  - now rewrite !IH.
  - reflexivity.
Qed.

(** A mantissa that has to be shifted left to reach 53 digits. *)
Lemma binary_round_exact_up (s : bool) (p m1 : positive) (e e1 : Z) :
  2 ^ 52 <= Zpos m1 < 2 ^ 53 -> -1074 <= e1 <= 971 -> e1 <= e ->
  Zpos m1 = Zpos p * 2 ^ (e - e1) ->
  binary_round 53 1024 s p e = S754_finite s m1 e1.
Proof.
  intros Hm He1 He Hp. unfold binary_round.
  assert (0 < 2 ^ (e - e1)) as Hpow by (apply Z.pow_pos_nonneg; lia).
  assert (e - e1 <= 52) as Hk.
  { destruct (Z_le_gt_dec (e - e1) 52); [assumption|].
    assert (2 ^ 53 <= 2 ^ (e - e1)) by (apply Z.pow_le_mono_r; lia). nia. }
  assert (Zpos (digits2_pos p) = 53 - (e - e1)) as Hd.
  { apply digits_unique.
    assert (2 ^ (53 - (e - e1) - 1) * 2 ^ (e - e1) = 2 ^ 52) as E1
      by (rewrite <- Z.pow_add_r by lia; f_equal; lia).
    assert (2 ^ (53 - (e - e1)) * 2 ^ (e - e1) = 2 ^ 53) as E2
      by (rewrite <- Z.pow_add_r by lia; f_equal; lia).
    split; nia. }
  rewrite Hd, fexp_eq. replace (Z.max (53 - (e - e1) + e - 53) (-1074)) with e1 by lia.
  unfold shl_align. destruct (e1 - e) as [|k|k] eqn:Ek; try lia.
  - replace (e - e1) with 0 in Hp by lia. replace e with e1 by lia.
    assert (p = m1) as -> by lia.
    now apply binary_round_aux_canonical_signed.
  - assert (Pos.iter xO p k = m1) as ->.
    { apply Pos2Z.inj. rewrite iter_xO, Hp. f_equal. f_equal. lia. }
    now apply binary_round_aux_canonical_signed.
Qed.

(** A mantissa of more than 53 digits whose low digits are zero. *)
Lemma binary_round_exact_down (s : bool) (p m1 : positive) (e e1 : Z) :
  2 ^ 52 <= Zpos m1 < 2 ^ 53 -> -1074 <= e1 <= 971 -> e < e1 ->
  Zpos p = Zpos m1 * 2 ^ (e1 - e) ->
  binary_round 53 1024 s p e = S754_finite s m1 e1.
Proof.
  intros Hm He1 He Hp. unfold binary_round.
  assert (0 < 2 ^ (e1 - e)) as Hpow by (apply Z.pow_pos_nonneg; lia).
  assert (Zpos (digits2_pos p) = 53 + (e1 - e)) as Hd.
  { apply digits_unique.
    assert (2 ^ 52 * 2 ^ (e1 - e) = 2 ^ (53 + (e1 - e) - 1)) as E1
      by (rewrite <- Z.pow_add_r by lia; f_equal; lia).
    assert (2 ^ 53 * 2 ^ (e1 - e) = 2 ^ (53 + (e1 - e))) as E2
      by (rewrite <- Z.pow_add_r by lia; f_equal; lia).
    split; nia. }
  rewrite Hd, fexp_eq. replace (Z.max (53 + (e1 - e) + e - 53) (-1074)) with e1 by lia.
  unfold shl_align. destruct (e1 - e) as [|k|k] eqn:Ek; try lia.
  assert (p = Pos.iter xO m1 k) as ->.
  { apply Pos2Z.inj. now rewrite iter_xO. }
  unfold binary_round_aux.
  assert (shr_fexp 53 1024 (Zpos (Pos.iter xO m1 k)) e loc_Exact =
          ({| shr_m := Zpos m1; shr_r := false; shr_s := false |}, e1)) as ->.
  { unfold shr_fexp. cbn [Zdigits2]. rewrite Hd, fexp_eq.
    replace (Z.max (53 + Zpos k + e - 53) (-1074) - e) with (Zpos k) by lia.
    cbn [shr shr_record_of_loc]. rewrite iter_shr_1_exact. f_equal. lia. }
  cbn [shr_m loc_of_shr_record round_nearest_even].
  rewrite shr_fexp_exact_small by lia. cbn [shr_m].
  assert ((e1 <=? 1024 - 53) = true) as -> by (apply Z.leb_le; lia).
  reflexivity.
Qed.

Lemma of_Z_0 : Number.of_Z 0 = S754_zero false.
Proof. reflexivity. Qed.

(** An integer other than 0, below [2^53] in size, as a number. *)
Lemma of_Z_signed (n : Z) :
  n <> 0 -> Z.abs n < 2 ^ 53 ->
  exists m e,
    Number.of_Z n = S754_finite (n <? 0) m e /\
    2 ^ 52 <= Zpos m < 2 ^ 53 /\ -52 <= e <= 0 /\
    Zpos m = Z.abs n * 2 ^ (- e).
Proof.
  intros Hn Hlt.
  assert (exists p, Z.abs n = Zpos p /\
                    Number.of_Z n = binary_round 53 1024 (n <? 0) p 0) as (p & Hp & ->).
  { destruct n as [|p|p]; [congruence | exists p | exists p]; split; reflexivity. }
  rewrite Hp in *.
  pose proof (digits_bounds p) as [Dlo Dhi].
  assert (0 < Zpos (digits2_pos p) <= 53) as Hd.
  { split; [lia|]. apply (digits_range p 0 53); lia. }
  set (d := Zpos (digits2_pos p)) in *.
  assert (2 ^ (53 - d) * 2 ^ (d - 1) = 2 ^ 52) as E1
    by (rewrite <- Z.pow_add_r by lia; f_equal; lia).
  assert (2 ^ (53 - d) * 2 ^ d = 2 ^ 53) as E2
    by (rewrite <- Z.pow_add_r by lia; f_equal; lia).
  assert (0 < 2 ^ (53 - d)) by (apply Z.pow_pos_nonneg; lia).
  assert (0 < Zpos p * 2 ^ (53 - d)) as Hpos by nia.
  destruct (Zpos p * 2 ^ (53 - d)) as [|m1|m1] eqn:Em; try lia.
  exists m1, (d - 53).
  split; [|split; [nia | split; [lia | rewrite <- Em; f_equal; f_equal; lia]]].
  apply binary_round_exact_up; try lia; [nia|].
  rewrite <- Em. f_equal. f_equal. lia.
Qed.

(** Normalising [N * 2^k] at exponent [-k] gives the number of [N]. *)
Lemma binary_normalize_of_Z (M N e : Z) :
  -52 <= e <= 0 -> M = N * 2 ^ (- e) -> Z.abs N < 2 ^ 53 ->
  binary_normalize 53 1024 M e false = Number.of_Z N.
Proof.
  intros He HM HN.
  assert (0 < 2 ^ (- e)) as Hpow by (apply Z.pow_pos_nonneg; lia).
  destruct (Z.eq_dec N 0) as [->|Hn0]; [now subst M|].
  destruct (of_Z_signed N Hn0 HN) as (m1 & e1 & -> & Hm1 & He1 & Hval).
  assert (exists p, Z.abs M = Zpos p /\
                    binary_normalize 53 1024 M e false =
                    binary_round 53 1024 (N <? 0) p e) as (p & Hp & ->).
  { destruct M as [|p|p]; [nia| |]; exists p; (split; [reflexivity|]);
      cbn [binary_normalize]; f_equal;
      [symmetry; apply Z.ltb_ge; nia | symmetry; apply Z.ltb_lt; nia]. }
  assert (Zpos p = Z.abs N * 2 ^ (- e)) as Hp'.
  { rewrite <- Hp, HM, Z.abs_mul. f_equal. lia. }
  assert (0 < 2 ^ (- e1)) by (apply Z.pow_pos_nonneg; lia).
  destruct (Z_le_gt_dec e1 e).
  - apply binary_round_exact_up; try lia.
    rewrite Hval, Hp', <- Z.mul_assoc, <- Z.pow_add_r by lia.
    f_equal. f_equal. lia.
  - apply binary_round_exact_down; try lia.
    rewrite Hval, Hp', <- Z.mul_assoc, <- Z.pow_add_r by lia.
    f_equal. f_equal. lia.
Qed.

Lemma shl_align_fst (m : positive) (e ez : Z) :
  ez <= e -> Zpos (fst (shl_align m e ez)) = Zpos m * 2 ^ (e - ez).
Proof.
  intros H. unfold shl_align. destruct (ez - e) as [|k|k] eqn:Ek; try lia; cbn [fst].
  - replace (e - ez) with 0 by lia. lia.
  - rewrite iter_xO. f_equal. f_equal. lia.
Qed.

(** What the aligned mantissa of an integer is. *)
Lemma aligned_of_Z (n : Z) (m : positive) (e ez : Z) :
  -52 <= e <= 0 -> -52 <= ez <= e ->
  Zpos m = Z.abs n * 2 ^ (- e) ->
  cond_Zopp (n <? 0) (Zpos (fst (shl_align m e ez))) = n * 2 ^ (- ez).
Proof.
  intros He Hez Hm. rewrite shl_align_fst by lia.
  rewrite Hm, <- Z.mul_assoc, <- Z.pow_add_r by lia.
  replace (- e + (e - ez)) with (- ez) by lia.
  destruct (Z.ltb_spec n 0); cbn [cond_Zopp]; lia.
Qed.

(** Sums and differences of integers are exact below [2^53]. *)
Lemma add_of_Z (a b : Z) :
  Z.abs a < 2 ^ 53 -> Z.abs b < 2 ^ 53 -> Z.abs (a + b) < 2 ^ 53 ->
  number_add (Number.of_Z a) (Number.of_Z b) = Number.of_Z (a + b).
Proof.
  intros Ha Hb Hab. unfold number_add.
  destruct (Z.eq_dec a 0) as [->|Ha0].
  - rewrite of_Z_0. destruct (Z.eq_dec b 0) as [->|Hb0]; [reflexivity|].
    destruct (of_Z_signed b Hb0 Hb) as (mb & eb & E & _). cbn [Z.add]. now rewrite E.
  - destruct (of_Z_signed a Ha0 Ha) as (ma & ea & Ea & Hma & Hea & Hva).
    destruct (Z.eq_dec b 0) as [->|Hb0].
    + rewrite of_Z_0, Z.add_0_r, Ea. reflexivity.
    + destruct (of_Z_signed b Hb0 Hb) as (mb & eb & Eb & Hmb & Heb & Hvb).
      rewrite Ea, Eb. cbn [SFadd].
      rewrite (aligned_of_Z a), (aligned_of_Z b) by (assumption || lia).
      apply binary_normalize_of_Z; [lia | ring | assumption].
Qed.

Lemma sub_of_Z (a b : Z) :
  Z.abs a < 2 ^ 53 -> Z.abs b < 2 ^ 53 -> Z.abs (a - b) < 2 ^ 53 ->
  number_sub (Number.of_Z a) (Number.of_Z b) = Number.of_Z (a - b).
Proof.
  intros Ha Hb Hab. unfold number_sub.
  destruct (Z.eq_dec a 0) as [->|Ha0].
  - rewrite of_Z_0. destruct (Z.eq_dec b 0) as [->|Hb0]; [reflexivity|].
    destruct (of_Z_signed b Hb0 Hb) as (mb & eb & E & Hmb & Heb & Hvb).
    rewrite E. cbn [SFsub Z.sub Z.add].
    assert (- b <> 0) as Hnb0 by lia.
    assert (Z.abs (- b) < 2 ^ 53) as Hnb by lia.
    destruct (of_Z_signed (- b) Hnb0 Hnb) as (mn & en & En & Hmn & Hen & Hvn).
    rewrite En. rewrite Z.abs_opp in Hvn.
    assert (en = eb) as ->.
    { destruct (Z.lt_trichotomy en eb) as [C|[C|C]]; [exfalso|assumption|exfalso].
      - assert (2 * 2 ^ (- eb) <= 2 ^ (- en)).
        { replace (- en) with (Z.succ (- eb) + (eb - en - 1)) by lia.
          rewrite Z.pow_add_r, Z.pow_succ_r by lia.
          assert (0 < 2 ^ (eb - en - 1)) by (apply Z.pow_pos_nonneg; lia).
          assert (0 < 2 ^ (- eb)) by (apply Z.pow_pos_nonneg; lia). nia. }
        nia.
      - assert (2 * 2 ^ (- en) <= 2 ^ (- eb)).
        { replace (- eb) with (Z.succ (- en) + (en - eb - 1)) by lia.
          rewrite Z.pow_add_r, Z.pow_succ_r by lia.
          assert (0 < 2 ^ (en - eb - 1)) by (apply Z.pow_pos_nonneg; lia).
          assert (0 < 2 ^ (- en)) by (apply Z.pow_pos_nonneg; lia). nia. }
        nia. }
    assert (mn = mb) as -> by lia.
    f_equal. destruct (Z.ltb_spec b 0), (Z.ltb_spec (- b) 0); try reflexivity; lia.
  - destruct (of_Z_signed a Ha0 Ha) as (ma & ea & Ea & Hma & Hea & Hva).
    destruct (Z.eq_dec b 0) as [->|Hb0].
    + rewrite of_Z_0, Z.sub_0_r, Ea. reflexivity.
    + destruct (of_Z_signed b Hb0 Hb) as (mb & eb & Eb & Hmb & Heb & Hvb).
      rewrite Ea, Eb. cbn [SFsub].
      rewrite (aligned_of_Z a), (aligned_of_Z b) by (assumption || lia).
      apply binary_normalize_of_Z; [lia | ring | assumption].
Qed.

Lemma truthyNumber_of_Z (p : Z) :
  Z.abs p < 2 ^ 53 -> truthyNumber (Number.of_Z p) = negb (p =? 0).
Proof.
  intros Hp. destruct (Z.eqb_spec p 0) as [->|Hp0]; [reflexivity|].
  destruct (of_Z_signed p Hp0 Hp) as (m & e & -> & _). reflexivity.
Qed.

Lemma hasSizes_sums (files : list ImageItem) (sizes : list (Z * Z)) :
  Forall2 hasSizes files sizes ->
  0 <= sumZ (map fst sizes) /\ 0 <= sumZ (map snd sizes).
Proof.
  induction 1 as [|f op files sizes (Ho & Hp & _) _ IH]; simpl; lia.
Qed.

(** The running sum of the reduction is exact as long as the sizes seen so
    far and those to come stay below [2^53] in total. *)
Lemma savedBytes_fold (files : list ImageItem) :
  forall (sizes : list (Z * Z)) (A lo hi : Z),
    Forall2 hasSizes files sizes ->
    0 <= lo -> 0 <= hi -> - lo <= A <= hi ->
    hi + sumZ (map fst sizes) < 2 ^ 53 ->
    lo + sumZ (map snd sizes) < 2 ^ 53 ->
    fold_left (fun acc curr =>
                 match status curr, processedSize curr with
                 | Completed, Some size =>
                     if truthyNumber size
                     then number_add acc (number_sub (originalSize curr) size)
                     else acc
                 | _, _ => acc
                 end) files (Number.of_Z A) =
    Number.of_Z (A + savedExact files sizes).
Proof.
  induction files as [|f files IH]; intros sizes A lo hi Hall Hlo Hhi HA HO HP.
  - simpl. now rewrite Z.add_0_r.
  - inversion Hall as [|? [o p] ? sizes' (Ho & Hp & Eo & Ep) Hrest]; subst.
    cbn [fst snd] in *. cbn [map sumZ fold_right fst snd] in HO, HP.
    fold (sumZ (map fst sizes')) in HO. fold (sumZ (map snd sizes')) in HP.
    destruct (hasSizes_sums _ _ Hrest) as [HOs HPs].
    cbn [fold_left savedExact].
    assert (forall acc, fold_left
              (fun acc curr =>
                 match status curr, processedSize curr with
                 | Completed, Some size =>
                     if truthyNumber size
                     then number_add acc (number_sub (originalSize curr) size)
                     else acc
                 | _, _ => acc
                 end) files (Number.of_Z A) = acc ->
            Number.of_Z (A + (0 + savedExact files sizes')) = acc) as Hskip.
    { intros acc <-. rewrite Z.add_0_l. symmetry.
      apply (IH sizes' A lo hi); try assumption; lia. }
    destruct (status f); try (symmetry; now apply Hskip).
    destruct Ep as [Ep | [Ep ->]]; rewrite Ep.
    + rewrite truthyNumber_of_Z by lia.
      destruct (Z.eqb_spec p 0) as [->|Hp0]; cbn [negb].
      * symmetry. now apply Hskip.
      * rewrite Eo, sub_of_Z, add_of_Z by lia.
        rewrite (IH sizes' (A + (o - p)) (lo + p) (hi + o)); try assumption; try lia.
        f_equal. lia.
    + cbn [Z.eqb]. symmetry. now apply Hskip.
Qed.

(** X19. The figures of the header: the number of completed items never
    exceeds the number of items; and for items whose sizes are integers with
    all originals, and all outputs, below 2^53 bytes in total, the
    floating-point reduction gives the saved bytes exactly: the sum of
    (original size - processed size) over the completed items with a
    non-zero processed size.  An item that is not completed, or whose
    output has 0 bytes, counts for nothing; an output larger than its
    original counts negatively.  ([stats], lines 223-232.) *)
Theorem savedBytes_exact (files : list ImageItem) (sizes : list (Z * Z)) :
  Forall2 hasSizes files sizes ->
  sumZ (map fst sizes) < 2 ^ 53 ->
  sumZ (map snd sizes) < 2 ^ 53 ->
  savedBytes (stats files) = Number.of_Z (savedExact files sizes) /\
  (completed (stats files) <= total (stats files))%nat.
Proof.
  intros Hall HO HP. split.
  - unfold stats. cbn [savedBytes].
    rewrite (savedBytes_fold files sizes 0 0 0); try assumption; try lia.
    reflexivity.
  - unfold stats. cbn [completed total]. apply filter_length_le.
Qed.

Lemma savedBytes_exact_witness :
  savedBytes (stats statsItems) = Number.of_Z (814 - 2000) /\
  (completed (stats statsItems) <= total (stats statsItems))%nat.
Proof.
  apply (savedBytes_exact statsItems
           [(2048, 1234); (2048, 0); (1000, 3000); (2048, 1234); (5000, 0)]).
  - unfold statsItems.
    repeat (apply Forall2_cons;
            [unfold hasSizes; cbn [fst snd];
             split; [lia | split; [lia | split; [reflexivity|]]];
             first [left; reflexivity | right; split; reflexivity]|]).
    apply Forall2_nil.
  - vm_compute. reflexivity.
  - vm_compute. reflexivity.
Defined.

(** ** What a run leaves alone, whatever else happens *)

Lemma in_applyEvent_items (ev : Event) (st : AppState) (f' : ImageItem) :
  In f' (files (applyEvent st ev)) ->
  In f' (files st) \/ In f' (eventItems ev).
Proof.
  destruct ev as [i|snapshot|it]; cbn [applyEvent eventItems].
  - rewrite files_handleRemoveFile. intros H. apply filter_In in H. tauto.
  - simpl. contradiction.
  - simpl. intros H. apply in_app_or in H as [H|[<-|[]]]; [now left | right; now left].
Qed.

Lemma in_events_items (evs : list Event) (f' : ImageItem) :
  forall st,
    In f' (files (fold_left applyEvent evs st)) ->
    In f' (files st) \/ In f' (flat_map eventItems evs).
Proof.
  induction evs as [|ev evs IH]; intros st; simpl; [now left|].
  intros H. apply IH in H as [H|H].
  - apply in_applyEvent_items in H as [H|H]; [now left|].
    right. apply in_or_app. now left.
  - right. apply in_or_app. now right.
Qed.

Lemma processLoop_others (env : Env) (options : ProcessingOptions)
    (items : list ImageItem) :
  forall schedule st st' f',
    processLoop env options items schedule st = Returned st' ->
    In f' (files st') ->
    ~ In (id f') (map id items) ->
    In f' (files st) \/ In f' (droppedItems schedule).
Proof.
  induction items as [|item rest IH]; intros schedule st st' f'; simpl.
  - intros [= <-] H _. now left.
  - await_result env item options r Hr.
    intros Hloop Hin Hid.
    assert (droppedItems schedule =
            flat_map eventItems (hd [] schedule) ++ droppedItems (tl schedule)) as ->
      by now destruct schedule.
    destruct (IH _ _ _ _ Hloop Hin) as [H|H];
      [tauto | | right; apply in_or_app; now right].
    apply in_files_mergeResult in H as [(g & _ & Eg & ->) | [H _]].
    { exfalso. apply Hid. left. rewrite <- Eg. symmetry. now apply spread_id. }
    apply in_events_items in H as [H|H]; [|right; apply in_or_app; now left].
    simpl in H. apply in_markProcessing in H as [H|H]; [|now left].
    exfalso. apply Hid. now left.
Qed.

(** X20. Whatever reaches the collection while a run is under way (removals,
    clearing, files dropped in), the run itself only ever writes to entries
    with the id of an item it took at its start: an entry the run leaves
    with another id is an entry of the collection as it was before the run,
    or an item exactly as it was dropped in meanwhile.  A file dropped in
    during a run is thus not processed by this run.  ([handleProcessAll],
    lines 119-155.) *)
Theorem run_leaves_others_alone (env : Env) (options : ProcessingOptions)
    (schedule : list (list Event)) (st st' : AppState) (f' : ImageItem) :
  handleProcessAll env options schedule st = Returned st' ->
  In f' (files st') ->
  ~ In (id f') (map id (itemsToProcess (files st))) ->
  In f' (files st) \/ In f' (droppedItems schedule).
Proof.
  unfold handleProcessAll, bind.
  destruct (processLoop env options (itemsToProcess (files st)) schedule
              (setIsProcessing true st)) as [st1|e] eqn:Hloop; [|discriminate].
  intros [= <-] Hin Hid. cbn [setIsProcessing files] in Hin.
  apply (processLoop_others _ _ _ _ _ _ _ Hloop Hin Hid).
Qed.

Lemma run_leaves_others_alone_witness :
  In (sampleItem "n" "blob:n") [sampleItem "a" "blob:a"] \/
  In (sampleItem "n" "blob:n")
     (droppedItems [[FileDropped (sampleItem "n" "blob:n")]]).
Proof.
  apply (run_leaves_others_alone (sampleEnv (Some someBlob)) sampleOptions
           [[FileDropped (sampleItem "n" "blob:n")]]
           (initialState [sampleItem "a" "blob:a"]) afterDropDuringRun).
  - vm_compute. reflexivity.
  - vm_compute. right. left. reflexivity.
  - vm_compute. intros [H|[]]. discriminate.
Defined.

(** ** What the next run takes *)

(** X21. When nothing else touches the collection, a run leaves no entry
    idle; so the run after it takes exactly the entries that failed or,
    when none failed, every entry: "process" retries the failures and
    "re-process" starts over.  ([handleProcessAll], lines 119-155.) *)
Theorem next_run_takes_failures (env : Env) (options : ProcessingOptions)
    (st st' : AppState) :
  handleProcessAll env options [] st = Returned st' ->
  (forall f', In f' (files st') -> status f' <> Idle) /\
  itemsToProcess (files st') =
  if existsb (fun f => match status f with Error => true | _ => false end)
             (files st')
  then filter (fun f => match status f with Error => true | _ => false end)
              (files st')
  else files st'.
Proof.
  unfold handleProcessAll, bind.
  destruct (processLoop env options (itemsToProcess (files st)) []
              (setIsProcessing true st)) as [st1|e] eqn:Hloop; [|discriminate].
  intros [= <-]. cbn [setIsProcessing files].
  assert (forall f', In f' (files st1) -> status f' <> Idle) as Hidle.
  { intros f' Hin Hs.
    destruct (processLoop_terminal _ _ _ _ _ _ Hloop Hin) as [Ht Hf].
    destruct (in_dec string_dec (id f') (map id (itemsToProcess (files st))))
      as [Hid|Hid].
    - destruct (Ht Hid) as [C|C]; congruence.
    - apply Hid. apply in_map. apply in_itemsToProcess; [now apply Hf|].
      apply isCandidate_spec. now left. }
  split; [exact Hidle|].
  destruct (existsb _ (files st1)) eqn:Ex.
  - apply existsb_exists in Ex as (g & Hg & Hs).
    rewrite itemsToProcess_some.
    + apply filter_ext_in. intros a Ha. specialize (Hidle a Ha).
      unfold isCandidate. now destruct (status a).
    + exists g. split; [assumption|]. unfold isCandidate. now destruct (status g).
  - apply itemsToProcess_none. intros g Hg.
    assert (existsb (fun f => match status f with Error => true | _ => false end)
              (files st1) = true -> False) as Hno by (rewrite Ex; discriminate).
    specialize (Hidle g Hg). unfold isCandidate.
    destruct (status g) eqn:Hs; try reflexivity; [congruence|].
    exfalso. apply Hno. apply existsb_exists. exists g. now rewrite Hs.
Qed.

Lemma next_run_takes_failures_witness :
  (forall f', In f' (files afterThreeItems) -> status f' <> Idle) /\
  itemsToProcess (files afterThreeItems) =
  if existsb (fun f => match status f with Error => true | _ => false end)
             (files afterThreeItems)
  then filter (fun f => match status f with Error => true | _ => false end)
              (files afterThreeItems)
  else files afterThreeItems.
Proof.
  apply (next_run_takes_failures (sampleEnv (Some someBlob)) sampleOptions
           (initialState threeItems) afterThreeItems).
  vm_compute. reflexivity.
Defined.
